(** * perfect-decimal: the exhaustive round-trip validator

    A shallow embedding of the scripts of [src/__util__]:

    - the worker [verifyChunk] (safe-decimal-validate-worker.js), which
      walks a chunk of indices, rebuilds the decimal of each index, sends
      it through [toFixed]/[Number] and [JSON.stringify]/[JSON.parse] and
      compares, reporting progress through a shared [Int32Array];
    - the coordinator [verifyRangeParallel] (safe-decimal-validate.js),
      which cuts the index range into one chunk per CPU, spawns the
      workers, reacts to their messages and exits and prints a progress
      line once a second;
    - [calculateSafeDecimals] and [generateData], the script of the
      chart page that ships with the coordinator.

    Numbers.  A JavaScript number is an IEEE-754 binary64.  The finite
    ones are rationals, so a number is a [Q] and every arithmetic
    operation is the exact operation followed by [round64], round to
    nearest with ties to even on 53 significant bits and subnormals below
    2^-1022.  Loop counters and chunk bounds ([i], [start], [end],
    [batchProgress], [totalInChunk]) are integers below 2^53 on which
    [+], [-] and [++] are exact; they are kept in [Z].  Overflow to
    Infinity, NaN and the sign of zero are outside the model: none of
    them arises on the arguments [Worker_spec.valid] admits, which are
    those the coordinator passes. *)

From Stdlib Require Import ZArith QArith Qround Qabs Qpower Qreduction.
From Stdlib Require Import Lqa Lia String Ascii DecimalString.
From Stdlib Require SpecFloat DecimalFacts DecimalPos DecimalN.
From stdpp Require Import list gmap.

Local Open Scope Z_scope.

(** ** binary64 arithmetic *)

Module JS.

(** [ilog2 x] is the binade of a positive rational: 2^(ilog2 x) <= x < 2^(ilog2 x + 1). *)
Definition ilog2 (x : Q) : Z :=
  let l := Z.log2 (Qnum x) - Z.log2 (Zpos (Qden x)) in
  if Qle_bool (2 ^ l) x then l else l - 1.

(** Nearest integer, ties to the even one. *)
Definition rne (y : Q) : Z :=
  let f := Qfloor y in
  match (y - inject_Z f ?= 1 # 2)%Q with
  | Lt => f
  | Gt => f + 1
  | Eq => if Z.even f then f else f + 1
  end.

(** The exponent of the unit in the last place of [x]: 53 significant
    bits, and never below 2^-1074 (the subnormal spacing). *)
Definition exponent (x : Q) : Z := Z.max (ilog2 (Qabs x) - 52) (-1074).

Definition round64 (x : Q) : Q :=
  if Qeq_bool x 0 then 0%Q
  else let e := exponent x in
       Qred (inject_Z (rne (x * 2 ^ (- e))) * 2 ^ e).

Definition fadd (x y : Q) : Q := round64 (x + y).
Definition fmul (x y : Q) : Q := round64 (x * y).
Definition fdiv (x y : Q) : Q := round64 (x / y).

(** Truncation toward zero. *)
Definition Qtrunc (x : Q) : Z := Z.quot (Qnum x) (Zpos (Qden x)).

(** [x % y]: the remainder has the sign of the dividend and is exact. *)
Definition frem (x y : Q) : Q := Qred (x - y * inject_Z (Qtrunc (x / y))).

(** [x | 0], and the conversion a store into an [Int32Array] applies:
    truncate, reduce modulo 2^32, read as a signed 32-bit integer. *)
Definition ToInt32 (x : Q) : Z :=
  let int32bit := Qtrunc x mod 2 ^ 32 in
  if 2 ^ 31 <=? int32bit then int32bit - 2 ^ 32 else int32bit.

Definition Math_floor (x : Q) : Q := inject_Z (Qfloor x).

(** [Math.pow(b, n)] for an integer base and a non-negative integer exponent. *)
Definition Math_pow (b : Z) (n : nat) : Q := round64 (inject_Z (b ^ Z.of_nat n)).

(** [x === y] on numbers. *)
Definition strict_eq (x y : Q) : bool := Qeq_bool x y.

(** The Standard Library's binary64 ([SpecFloat] with 53 bits of
    precision and exponents up to 1024), to check [round64] against. *)
Definition B64_of_Z (z : Z) : SpecFloat.spec_float :=
  SpecFloat.binary_normalize 53 1024 z 0 false.

Definition B64_to_Q (f : SpecFloat.spec_float) : Q :=
  match f with
  | SpecFloat.S754_finite s m e =>
      ((if s then -1 else 1) * inject_Z (Zpos m) * 2 ^ e)%Q
  | _ => 0%Q
  end.

End JS.

(** ** The runtime's conversions between numbers and text

    [Number.prototype.toFixed], [Number::toString] (which
    [JSON.stringify] prints a number with) and the reading of a decimal
    literal (which [Number] and [JSON.parse] share), after ECMA-262. *)

Module ES.
Import JS.
Local Open Scope string_scope.
Local Open Scope Z_scope.

Definition digits (n : Z) : string := NilZero.string_of_uint (N.to_uint (Z.to_N n)).

(** ["0".repeat(k)] and its sibling for any character. *)
Fixpoint repeat_char (c : ascii) (k : nat) : string :=
  match k with
  | O => ""
  | S k' => String c (repeat_char c k')
  end.

(** floor (log10 x) for a positive rational, from its binade. *)
Definition ilog10 (x : Q) : Z :=
  let g := ilog2 x * 30103 / 100000 in
  if Qle_bool (10 ^ (g + 1)) x then g + 1
  else if Qle_bool (10 ^ g) x then g
  else g - 1.

(** The [k]-digit significand [s] and the exponent [n] with
    [s * 10^(n-k)] reading back as [x], if there is one: the candidates
    are the two [k]-digit decimals around [x]. *)
Definition significand (x : Q) (k : Z) : option (Z * Z) :=
  let n := ilog10 x + 1 in
  let scaled := (x * 10 ^ (k - n))%Q in
  let lo := Qfloor scaled in
  let hi := lo + 1 in
  let reads c := Qeq_bool (round64 (inject_Z c * 10 ^ (n - k))) x in
  let norm c := if c =? 10 ^ k then (10 ^ (k - 1), n + 1) else (c, n) in
  let lo_closer := Qle_bool (scaled - inject_Z lo) (inject_Z hi - scaled) in
  match reads lo, reads hi with
  | true, true => Some (norm (if lo_closer then lo else hi))
  | true, false => Some (norm lo)
  | false, true => Some (norm hi)
  | false, false => None
  end.

Fixpoint shortest (fuel : nat) (x : Q) (k : Z) : Z * Z * Z :=
  match fuel with
  | O => (k, 0, 0)
  | S fuel' =>
      match significand x k with
      | Some (s, n) => (k, s, n)
      | None => shortest fuel' x (k + 1)
      end
  end.

(** [Number::toString] of a positive number. *)
Definition toString_pos (x : Q) : string :=
  let '(k, s, n) := shortest 17 x 1 in
  let d := digits s in
  if (k <=? n) && (n <=? 21) then d ++ repeat_char "0" (Z.to_nat (n - k))
  else if (0 <? n) && (n <=? 21) then
    substring 0 (Z.to_nat n) d ++ "." ++ substring (Z.to_nat n) (Z.to_nat (k - n)) d
  else if (-6 <? n) && (n <=? 0) then "0." ++ repeat_char "0" (Z.to_nat (- n)) ++ d
  else
    let e := (if 0 <? n - 1 then "+" else "-") ++ digits (Z.abs (n - 1)) in
    if k =? 1 then d ++ "e" ++ e
    else substring 0 1 d ++ "." ++ substring 1 (Z.to_nat (k - 1)) d ++ "e" ++ e.

Definition Number_toString (x : Q) : string :=
  if Qeq_bool x 0 then "0"
  else if Qle_bool 0 x then toString_pos x
  else "-" ++ toString_pos (- x).

(** [x.toFixed(f)]: the integer [n] nearest to [x * 10^f], the larger one
    on a tie, printed with a point before its last [f] digits. *)
Definition toFixed (x : Q) (f : nat) : string :=
  if Qle_bool (10 ^ 21) (Qabs x) then Number_toString x
  else
    let s := if Qle_bool 0 x then "" else "-" in
    let n := Qfloor (Qabs x * 10 ^ Z.of_nat f + (1 # 2)) in
    let m := digits n in
    let m :=
      if (f =? 0)%nat then m
      else
        let m := if (String.length m <=? f)%nat
                 then repeat_char "0" (f + 1 - String.length m) ++ m else m in
        let k := String.length m in
        substring 0 (k - f) m ++ "." ++ substring (k - f) f m in
    s ++ m.

(** Reading a decimal literal: sign, digits, fraction, exponent. *)
Definition digit_of (c : ascii) : option Z :=
  let n := Z.of_nat (nat_of_ascii c) in
  if (48 <=? n) && (n <=? 57) then Some (n - 48) else None.

Fixpoint read_digits (s : string) (acc : Z) (count : nat) : Z * nat * string :=
  match s with
  | String c s' =>
      match digit_of c with
      | Some d => read_digits s' (10 * acc + d) (S count)
      | None => (acc, count, s)
      end
  | EmptyString => (acc, count, s)
  end.

Definition read_sign (s : string) : bool * string :=
  match s with
  | String "-" s' => (true, s')
  | String "+" s' => (false, s')
  | _ => (false, s)
  end.

Definition read_exponent (s : string) : option Z :=
  match s with
  | EmptyString => Some 0
  | String c s' =>
      if (Ascii.eqb c "e" || Ascii.eqb c "E")%bool then
        let '(neg, s1) := read_sign s' in
        match read_digits s1 0 0 with
        | (e, S _, EmptyString) => Some (if neg then - e else e)
        | _ => None
        end
      else None
  end.

Definition read_decimal (s : string) : option Q :=
  let '(neg, s0) := read_sign s in
  let '(ip, ic, s1) := read_digits s0 0 0 in
  let '(fp, fc, s2) :=
    match s1 with
    | String "." s1' => read_digits s1' 0 0
    | _ => (0, O, s1)
    end in
  match ic, read_exponent s2 with
  | S _, Some e =>
      let m := (inject_Z (ip * 10 ^ Z.of_nat fc + fp) * 10 ^ (e - Z.of_nat fc))%Q in
      Some (if neg then (- m)%Q else m)
  | _, _ => None
  end.

(** [Number(s)] and [JSON.parse(s)] on the text of a number: the literal's
    value, rounded.  Text that is no literal reads as NaN, which the
    model does not have; [toFixed] and [Number_toString] print literals
    only. *)
Definition Number (s : string) : Q :=
  match read_decimal s with
  | Some q => round64 q
  | None => 0%Q
  end.

Definition JSON_stringify (x : Q) : string := Number_toString x.
Definition JSON_parse (s : string) : Q := Number s.

End ES.

(** The conversions the worker calls, as an interface: the runtime's own
    ([node]) or a stand-in that can be made to fail at a chosen value. *)
Record Platform := {
  toFixed : Q -> nat -> string;
  Number : string -> Q;
  JSON_stringify : Q -> string;
  JSON_parse : string -> Q
}.

Definition node : Platform := {|
  toFixed := ES.toFixed;
  Number := ES.Number;
  JSON_stringify := ES.JSON_stringify;
  JSON_parse := ES.JSON_parse
|}.

(** ** The worker: safe-decimal-validate-worker.js *)

Module Worker.
Import JS.

(** What [parentPort.postMessage] sends:
    [{ error: true, value, serialized, deserialized }] or [{ completed: true }]. *)
Inductive Message :=
  | Error (value serialized deserialized : Q)
  | Completed.

(** What a run does, in order.  [Store], [Notify] and [Post] are the
    effects of the script: the write to [progressArray[workerId]] (with
    the integer the array then holds), [Atomics.notify] and
    [postMessage].  [Check i ok] is a marker, not an effect: it records
    that the loop body ran for index [i] and what the comparison gave. *)
Inductive Event :=
  | Check (i : Z) (ok : bool)
  | Store (slot : nat) (v : Z)
  | Notify (slot : nat)
  | Post (m : Message).

(** How a piece of the script ends: it falls through to the next
    statement (with the current [batchProgress]), it executes [return],
    or a call throws. *)
Inductive Control :=
  | Next (batchProgress : Z)
  | Return
  | Throw.

Record Run := mkRun {
  events : list Event;
  progressArray : list Z;
  control : Control
}.

Definition emit (es : list Event) (r : Run) : Run :=
  mkRun (es ++ events r) (progressArray r) (control r).

Definition batchSize : Z := 10000000.

Definition multiplier (decimalPlaces : nat) : Q := Math_pow 10 decimalPlaces.

Definition intPart (i : Z) (multiplier : Q) : Z :=
  ToInt32 (fdiv (inject_Z i) multiplier).

Definition fracPart (i : Z) (multiplier : Q) : Q :=
  frem (inject_Z i) multiplier.

Definition value (i : Z) (multiplier : Q) : Q :=
  fadd (inject_Z (intPart i multiplier)) (fdiv (fracPart i multiplier) multiplier).

(** [Math.floor((i - start) / totalInChunk * 1000000)], as the
    [Int32Array] keeps it. *)
Definition batchValue (done totalInChunk : Z) : Z :=
  ToInt32 (Math_floor (fmul (fdiv (inject_Z done) (inject_Z totalInChunk)) 1000000)).

(** [progressArray[workerId] += batchProgress / totalInChunk], as the
    [Int32Array] keeps it. *)
Definition flushValue (slot batchProgress totalInChunk : Z) : Z :=
  ToInt32 (fadd (inject_Z slot) (fdiv (inject_Z batchProgress) (inject_Z totalInChunk))).

Section Script.

Variable rt : Platform.

Definition serialized (value : Q) (decimalPlaces : nat) : Q :=
  Number rt (toFixed rt value decimalPlaces).

Definition deserialized (serialized : Q) : Q :=
  JSON_parse rt (JSON_stringify rt serialized).

(** The condition of the [if] in the loop body. *)
Definition mismatch (value : Q) (decimalPlaces : nat) : bool :=
  let serialized := serialized value decimalPlaces in
  let deserialized := deserialized serialized in
  negb (strict_eq serialized deserialized)
  || negb (String.eqb (toFixed rt serialized decimalPlaces)
                      (toFixed rt value decimalPlaces)).

Variables (start end_ : Z) (decimalPlaces : nat) (workerId : nat).

(** [n] turns of [for (let i = ...; i < end; i++)] from index [i] on,
    with [totalInChunk] written out as [end - start].  A write past the
    end of a typed array is dropped, and [Atomics.notify] on such an
    index throws a RangeError. *)
Fixpoint loop (n : nat) (i batchProgress : Z) (arr : list Z) : Run :=
  match n with
  | O => mkRun [] arr (Next batchProgress)
  | S n' =>
      let value := value i (multiplier decimalPlaces) in
      let serialized := serialized value decimalPlaces in
      let deserialized := deserialized serialized in
      if mismatch value decimalPlaces then
        mkRun [Check i false; Post (Error value serialized deserialized)] arr Return
      else
        let batchProgress := batchProgress + 1 in
        if batchProgress =? batchSize then
          let v := batchValue (i - start) (end_ - start) in
          if (workerId <? length arr)%nat then
            emit [Check i true; Store workerId v; Notify workerId]
                 (loop n' (i + 1) 0 (<[workerId := v]> arr))
          else mkRun [Check i true] arr Throw
        else emit [Check i true] (loop n' (i + 1) batchProgress arr)
  end.

End Script.

(** [verifyChunk(start, end, decimalPlaces, progressBuffer, workerId)].
    [progressBuffer] is the shared array as this worker sees it: no other
    worker writes the slot of [workerId]. *)
Definition verifyChunk (rt : Platform) (start end_ : Z) (decimalPlaces : nat)
    (progressBuffer : list Z) (workerId : nat) : Run :=
  let totalInChunk := end_ - start in
  let r := loop rt start end_ decimalPlaces workerId (Z.to_nat totalInChunk) start 0
             progressBuffer in
  match control r with
  | Next batchProgress =>
      if 0 <? batchProgress then
        match progressArray r !! workerId with
        | Some slot =>
            let v := flushValue slot batchProgress totalInChunk in
            mkRun (events r ++ [Store workerId v; Notify workerId; Post Completed])
                  (<[workerId := v]> (progressArray r)) Return
        | None => mkRun (events r) (progressArray r) Throw
        end
      else mkRun (events r ++ [Post Completed]) (progressArray r) Return
  | _ => r
  end.

(** Projections of a trace. *)
Definition posted (es : list Event) : list Message :=
  omap (fun e => match e with Post m => Some m | _ => None end) es.

Definition stored (slot : nat) (es : list Event) : list Z :=
  omap (fun e => match e with
                 | Store s v => if (s =? slot)%nat then Some v else None
                 | _ => None
                 end) es.

Definition checked (es : list Event) : list Z :=
  omap (fun e => match e with Check i _ => Some i | _ => None end) es.

End Worker.

(** ** The coordinator: safe-decimal-validate.js *)

Module Coordinator.
Import JS.
Local Open Scope string_scope.
Local Open Scope Z_scope.

Record WorkerData := {
  start : Z;
  end_ : Z;
  decimalPlaces : nat;
  workerId : nat
}.

(** [maxInteger * Math.pow(10, decimalPlaces) - 1], exact below 2^53. *)
Definition totalNumbers (maxInteger : Z) (decimalPlaces : nat) : Z :=
  maxInteger * 10 ^ Z.of_nat decimalPlaces - 1.

(** [Math.ceil(totalNumbers / numCPUs)]. *)
Definition chunkSize (totalNumbers : Z) (numCPUs : nat) : Z :=
  Qceiling (fdiv (inject_Z totalNumbers) (inject_Z (Z.of_nat numCPUs))).

(** The [workerData] of the [i]-th worker. *)
Definition chunk (totalNumbers : Z) (numCPUs : nat) (decimalPlaces : nat) (i : nat)
  : WorkerData :=
  let chunkSize := chunkSize totalNumbers numCPUs in
  {| start := Z.of_nat i * chunkSize;
     end_ := Z.min ((Z.of_nat i + 1) * chunkSize) totalNumbers;
     decimalPlaces := decimalPlaces;
     workerId := i |}.

(** The workers of the [for] loop, in spawn order. *)
Definition workers (totalNumbers : Z) (numCPUs : nat) (decimalPlaces : nat)
  : list WorkerData :=
  map (chunk totalNumbers numCPUs decimalPlaces) (seq 0 numCPUs).

(** [new Int32Array(new SharedArrayBuffer(numCPUs * 4))]. *)
Definition progressArray (numCPUs : nat) : list Z := replicate numCPUs 0.

(** The first line the coordinator logs. *)
Definition banner (maxInteger : Z) (decimalPlaces : nat) : string :=
  "Validating safe parsing of "
  ++ ES.Number_toString (inject_Z (totalNumbers maxInteger decimalPlaces))
  ++ " numbers in range: 0." ++ ES.repeat_char "0" decimalPlaces
  ++ " to " ++ ES.Number_toString (inject_Z (maxInteger - 1))
  ++ "." ++ ES.repeat_char "9" decimalPlaces.

(** What reaches the coordinator from worker [w]: a posted message, an
    uncaught exception (['error']), the end of the thread (['exit']). *)
Inductive WorkerEvent :=
  | OnMessage (w : nat) (msg : Worker.Message)
  | OnError (w : nat) (err : string)
  | OnExit (w : nat) (code : Z).

Inductive Output :=
  | Log (line : string)
  | LogError (line : string)
  | TimeEnd
  | Stdout (text : string).

Inductive Process :=
  | Alive
  | Exited (code : Z).

Record State := mkState {
  console : list Output;
  exited : gset nat;
  ticking : bool;
  process : Process
}.

Definition all_exited (numCPUs : nat) (s : gset nat) : bool :=
  forallb (fun w => bool_decide (w ∈ s)) (seq 0 numCPUs).

Section Run.

Variables (maxInteger : Z) (decimalPlaces : nat) (numCPUs : nat).

(** After the synchronous part of [verifyRangeParallel]: the first line
    is logged, the workers are spawned and the ticker is set.  The
    ticker only reads the array and overwrites one line of the terminal;
    its output is left out. *)
Definition started : State :=
  mkState [Log (banner maxInteger decimalPlaces)] ∅ true Alive.

(** [Promise.all(...).then(...)]: once every worker's ['exit'] has
    fired, stop the ticker and print the closing lines; nothing is left
    to keep the process alive after that. *)
Definition settle (st : State) : State :=
  match process st with
  | Exited _ => st
  | Alive =>
      if all_exited numCPUs (exited st) then
        mkState
          (console st ++
             [Stdout (String (ascii_of_nat 10) "");
              TimeEnd;
              Log ("All tests passed: "
                   ++ ES.Number_toString
                        (inject_Z (totalNumbers maxInteger decimalPlaces))
                   ++ " numbers verified");
              Log "100% of the range verified successfully"])%list
          (exited st) false (Exited 0)
      else st
  end.

(** The handlers of [worker.on("message")], [worker.on("error")] and the
    two of [worker.on("exit")], the second of which settles the worker's
    promise. *)
Definition handle (st : State) (ev : WorkerEvent) : State :=
  match process st with
  | Exited _ => st
  | Alive =>
      match ev with
      | OnMessage w (Worker.Error value serialized deserialized) =>
          mkState
            (console st ++
               [LogError ("Error detected at " ++ ES.Number_toString value
                          ++ ". Serialized: " ++ ES.Number_toString serialized
                          ++ ", Deserialized: " ++ ES.Number_toString deserialized);
                TimeEnd])%list
            (exited st) (ticking st) (Exited 1)
      | OnMessage w Worker.Completed =>
          let d := chunk (totalNumbers maxInteger decimalPlaces) numCPUs decimalPlaces w in
          mkState
            (console st ++
               [Log ("Worker completed chunk " ++ ES.Number_toString (inject_Z (start d))
                     ++ " to " ++ ES.Number_toString (inject_Z (end_ d)))])%list
            (exited st) (ticking st) Alive
      | OnError w err =>
          mkState (console st ++ [LogError err])%list (exited st) (ticking st) Alive
      | OnExit w code =>
          let out :=
            if code =? 0 then console st
            else (console st ++
                    [LogError ("Worker stopped with exit code "
                               ++ ES.Number_toString (inject_Z code))])%list in
          settle (mkState out ({[w]} ∪ exited st) (ticking st) Alive)
      end
  end.

Definition run (evs : list WorkerEvent) : State := fold_left handle evs (settle started).

End Run.

(** The run is declared successful when the closing lines are printed. *)
Definition declared_success (st : State) : bool :=
  existsb (fun o => match o with
                    | Log line => String.eqb line "100% of the range verified successfully"
                    | _ => false
                    end) (console st).

(** What worker [w] makes the coordinator see: its messages, then the end
    of its thread; an uncaught exception surfaces as ['error'] and exit
    code 1. *)
Definition reported (w : nat) (r : Worker.Run) : list WorkerEvent :=
  (map (OnMessage w) (Worker.posted (Worker.events r))
   ++ match Worker.control r with
      | Worker.Throw => [OnError w "RangeError"; OnExit w 1]
      | _ => [OnExit w 0]
      end)%list.

End Coordinator.

(** ** The progress line: the callback of [setInterval]

    With no CPU the divisor is zero; the statements about this module
    have one CPU at least. *)

Module Ticker.
Import JS.
Local Open Scope string_scope.
Local Open Scope Z_scope.

(** [progressArray.reduce((sum, progress) => sum + progress, 0) / (numCPUs * 1000000)]. *)
Definition overallProgress (progressArray : list Z) (numCPUs : nat) : Q :=
  fdiv (fold_left (fun sum progress => fadd sum (inject_Z progress)) progressArray 0%Q)
       (fmul (inject_Z (Z.of_nat numCPUs)) 1000000).

Definition progressString (progressArray : list Z) (numCPUs : nat) : string :=
  "Validating: " ++ ES.toFixed (fmul (overallProgress progressArray numCPUs) 100) 4
  ++ "% complete...".

End Ticker.

(** ** The workers as the coordinator spawns them *)

Module Threads.
Import Coordinator.

(** The top level of the worker script: [verifyChunk] on the fields of
    [workerData]. *)
Definition thread (rt : Platform) (workerData : WorkerData) (progressBuffer : list Z)
  : Worker.Run :=
  Worker.verifyChunk rt (start workerData) (end_ workerData) (decimalPlaces workerData)
    progressBuffer (workerId workerData).

(** The worker an event comes from. *)
Definition sender (ev : WorkerEvent) : nat :=
  match ev with
  | OnMessage w _ => w
  | OnError w _ => w
  | OnExit w _ => w
  end.

(** An order in which the events of the [numCPUs] workers can reach the
    coordinator: those of each worker in the worker's own order, and
    nothing from anywhere else.  The workers run concurrently, so the
    orders of different workers interleave freely. *)
Definition schedule (rt : Platform) (maxInteger : Z) (decimalPlaces numCPUs : nat)
    (evs : list WorkerEvent) : Prop :=
  forall w,
    List.filter (fun ev => (sender ev =? w)%nat) evs
    = if (w <? numCPUs)%nat
      then reported w (thread rt
                         (chunk (totalNumbers maxInteger decimalPlaces) numCPUs
                            decimalPlaces w)
                         (progressArray numCPUs))
      else [].

End Threads.

(** ** The chart page: how many decimals an integer part leaves safe

    On a [maxInteger] below 1 the products of the loop stay safe until
    [Math.pow] overflows, which the model of numbers does not have: the
    statements about this module are on integers from 1 on. *)

Module Visualizer.
Import JS.

(** [Math.pow(2, 53) - 1]. *)
Definition maxSafeInteger : Q := round64 (Math_pow 2 53 - 1).

(** The [while] loop of [calculateSafeDecimals], for at most [fuel]
    tests of its condition. *)
Fixpoint count (fuel : nat) (maxInteger : Q) (safeDecimals : nat) : option nat :=
  match fuel with
  | O => None
  | S fuel' =>
      if Qle_bool (fmul maxInteger (Math_pow 10 (safeDecimals + 1))) maxSafeInteger
      then count fuel' maxInteger (safeDecimals + 1)
      else Some safeDecimals
  end.

Definition calculateSafeDecimals (fuel : nat) (maxInteger : Q) : option nat :=
  if negb (Qle_bool maxInteger maxSafeInteger) then Some 0%nat
  else count fuel maxInteger 0.

Record Point := {
  maxInteger : Q;
  safeDecimals : nat
}.

(** [generateData()]: one point for each [i] from 2 to 15. *)
Definition generateData (fuel : nat) : option (list Point) :=
  mapM (fun i =>
          let maxInteger := round64 (Math_pow 10 i - 1) in
          safeDecimals ← calculateSafeDecimals fuel maxInteger;
          Some {| maxInteger := maxInteger; safeDecimals := safeDecimals |})
       (seq 2 14).

End Visualizer.

(** ** Vocabulary of the statements *)

Module Worker_spec.
Import JS Worker.

(** The arguments the model is faithful on: bounds that are integers
    below 2^53 (where [i++] and [end - start] are exact), a
    [decimalPlaces] with an exact [Math.pow(10, decimalPlaces)] that
    [toFixed] accepts, and a [workerId] inside the array. *)
Record valid (start end_ : Z) (decimalPlaces : nat) (workerId : nat) (arr : list Z)
  : Prop := {
  valid_start : 0 <= start;
  valid_end : end_ <= 2 ^ 53;
  valid_places : (decimalPlaces <= 22)%nat;
  valid_slot : (workerId < length arr)%nat
}.

(** The comparison at index [i] finds nothing. *)
Definition passes (rt : Platform) (decimalPlaces : nat) (i : Z) : Prop :=
  mismatch rt (value i (multiplier decimalPlaces)) decimalPlaces = false.

(** Each write is at least the value it replaces. *)
Fixpoint nondecreasing (previous : Z) (writes : list Z) : Prop :=
  match writes with
  | [] => True
  | v :: writes' => previous <= v /\ nondecreasing v writes'
  end.

End Worker_spec.

(** Strings of decimal digits. *)
Module Digits.

(** Every character is a decimal digit. *)
Fixpoint all (s : string) : bool :=
  match s with
  | EmptyString => true
  | String c s' => match ES.digit_of c with Some _ => all s' | None => false end
  end.

(** The number the digits of [s] denote, read after the number [acc]. *)
Fixpoint number (s : string) (acc : Z) : Z :=
  match s with
  | EmptyString => acc
  | String c s' =>
      match ES.digit_of c with
      | Some d => number s' (10 * acc + d)
      | None => acc
      end
  end.

(** The text does not go on with a digit. *)
Definition stops (s : string) : bool :=
  match s with
  | EmptyString => true
  | String c _ => match ES.digit_of c with Some _ => false | None => true end
  end.

End Digits.

(** The formulas of the specification, for comparison with the code. *)
Module Spec.
Import JS.


(** "the fraction (indexesDoneInChunk / totalInChunk) scaled to the
    integer progress domain", floored. *)
Definition progressValue (indexesDoneInChunk totalInChunk : Z) : Z :=
  Qfloor (fmul (fdiv (inject_Z indexesDoneInChunk) (inject_Z totalInChunk)) 1000000).

End Spec.

(** Stand-ins for the runtime's conversions. *)
Module Stand_in.

(** Conversions under which every comparison succeeds. *)
Definition quiet : Platform := {|
  toFixed := fun _ _ => EmptyString;
  Number := fun _ => 0%Q;
  JSON_stringify := fun _ => EmptyString;
  JSON_parse := fun _ => 0%Q
|}.

(** The runtime's conversions, with a JSON transport that corrupts the
    numbers [bad] selects. *)
Definition corrupting (bad : Q -> bool) : Platform := {|
  toFixed := ES.toFixed;
  Number := ES.Number;
  JSON_stringify := ES.JSON_stringify;
  JSON_parse := fun s => let x := ES.JSON_parse s in if bad x then JS.fadd x 1 else x
|}.

(** The numbers between 0.25 and 0.35. *)
Definition near_three_tenths (x : Q) : bool :=
  Qle_bool (1 # 4) x && Qle_bool x (7 # 20).

End Stand_in.

(** * Properties *)

(** ** Powers of two *)

Section Pow2.
Local Open Scope Q_scope.

Lemma pow2_pos (e : Z) : 0 < 2 ^ e.
Proof. apply Qpower_0_lt. reflexivity. Qed.

Lemma pow2_add (a b : Z) : 2 ^ (a + b) == 2 ^ a * 2 ^ b.
Proof. apply Qpower_plus. discriminate. Qed.

Lemma pow2_le (a b : Z) : (a <= b)%Z -> 2 ^ a <= 2 ^ b.
Proof. intros H. apply Qpower_le_compat_l; [exact H | discriminate]. Qed.

Lemma pow2_lt (a b : Z) : (a < b)%Z -> 2 ^ a < 2 ^ b.
Proof. intros H. apply Qpower_lt_compat_l; [exact H | reflexivity]. Qed.

Lemma pow2_lt_inv (a b : Z) : 2 ^ a < 2 ^ b -> (a < b)%Z.
Proof.
  intros H. destruct (Z_lt_le_dec a b) as [Hlt | Hle]; [exact Hlt |].
  apply pow2_le in Hle. lra.
Qed.

Lemma pow2_inject (n : Z) : (0 <= n)%Z -> 2 ^ n == inject_Z (2 ^ n).
Proof. intros H. symmetry. apply (Zpower_Qpower 2 n H). Qed.

Lemma pow2_cancel (e : Z) : 2 ^ (- e) * 2 ^ e == 1.
Proof. rewrite <- pow2_add. replace (- e + e)%Z with 0%Z by lia. reflexivity. Qed.

End Pow2.

(** ** The binade of a positive rational *)

Section Binade.
Local Open Scope Q_scope.
Import JS.

Lemma inject_Z_Qmake (n : Z) (d : positive) :
  (n # d) * inject_Z (Zpos d) == inject_Z n.
Proof. unfold Qeq, Qmult, inject_Z. simpl. lia. Qed.

Lemma ilog2_spec (x : Q) : 0 < x -> 2 ^ ilog2 x <= x /\ x < 2 ^ (ilog2 x + 1).
Proof.
  intros Hx. destruct x as [n d].
  assert (Hn : (0 < n)%Z) by (unfold Qlt in Hx; simpl in Hx; lia).
  pose proof (Z.log2_spec n Hn) as [Hn1 Hn2].
  pose proof (Z.log2_spec (Zpos d) (Pos2Z.is_pos d)) as [Hd1 Hd2].
  pose proof (Z.log2_nonneg n) as Ha.
  pose proof (Z.log2_nonneg (Zpos d)) as Hb.
  unfold ilog2. cbn [Qnum Qden].
  set (a := Z.log2 n) in *. set (b := Z.log2 (Zpos d)) in *.
  pose proof (inject_Z_Qmake n d) as Hxd.
  assert (Hd1q : 2 ^ b <= inject_Z (Zpos d)).
  { rewrite pow2_inject by exact Hb. rewrite <- Zle_Qle. exact Hd1. }
  assert (Hd2q : inject_Z (Zpos d) < 2 ^ (b + 1)).
  { rewrite pow2_inject by lia. rewrite <- Zlt_Qlt. replace (b + 1)%Z with (Z.succ b) by lia. exact Hd2. }
  assert (Hn1q : 2 ^ a <= inject_Z n).
  { rewrite pow2_inject by exact Ha. rewrite <- Zle_Qle. exact Hn1. }
  assert (Hn2q : inject_Z n < 2 ^ (a + 1)).
  { rewrite pow2_inject by lia. rewrite <- Zlt_Qlt. replace (a + 1)%Z with (Z.succ a) by lia. exact Hn2. }
  pose proof (pow2_pos b) as Hpb. pose proof (pow2_pos (b + 1)) as Hpb1.
  destruct (Qle_bool (2 ^ (a - b)) (n # d)) eqn:E.
  - apply Qle_bool_iff in E. split; [exact E |].
    (* x * 2^b <= x * d = n < 2^(a+1) = 2^(a-b+1) * 2^b *)
    assert (H1 : 2 ^ (a - b + 1) * 2 ^ b == 2 ^ (a + 1)).
    { rewrite <- pow2_add. replace (a - b + 1 + b)%Z with (a + 1)%Z by lia. reflexivity. }
    apply Qnot_le_lt. intros Hc.
    assert (H2 : 2 ^ (a - b + 1) * 2 ^ b <= (n # d) * inject_Z (Zpos d)) by nra.
    rewrite H1, Hxd in H2. lra.
  - assert (E' : (n # d) < 2 ^ (a - b)).
    { apply Qnot_le_lt. intros Hc. apply Qle_bool_iff in Hc. congruence. }
    replace (a - b - 1 + 1)%Z with (a - b)%Z by lia. split; [| exact E'].
    assert (H1 : 2 ^ (a - b - 1) * 2 ^ (b + 1) == 2 ^ a).
    { rewrite <- pow2_add. replace (a - b - 1 + (b + 1))%Z with a by lia. reflexivity. }
    apply Qnot_lt_le. intros Hc.
    assert (H2 : (n # d) * inject_Z (Zpos d) < 2 ^ (a - b - 1) * 2 ^ (b + 1)) by nra.
    rewrite H1, Hxd in H2. lra.
Qed.

Lemma ilog2_unique (x : Q) (k : Z) : 2 ^ k <= x -> x < 2 ^ (k + 1) -> ilog2 x = k.
Proof.
  intros H1 H2.
  assert (Hx : 0 < x) by (pose proof (pow2_pos k); lra).
  destruct (ilog2_spec x Hx) as [H3 H4].
  assert ((k < ilog2 x + 1)%Z) by (apply pow2_lt_inv; lra).
  assert ((ilog2 x < k + 1)%Z) by (apply pow2_lt_inv; lra).
  lia.
Qed.

Lemma ilog2_mono (x y : Q) : 0 < x -> x <= y -> (ilog2 x <= ilog2 y)%Z.
Proof.
  intros Hx Hxy.
  destruct (ilog2_spec x Hx) as [H1 _].
  destruct (ilog2_spec y) as [_ H2]; [lra |].
  assert ((ilog2 x < ilog2 y + 1)%Z) by (apply pow2_lt_inv; lra).
  lia.
Qed.

Lemma ilog2_compat (x y : Q) : 0 < x -> x == y -> ilog2 x = ilog2 y.
Proof.
  intros Hx Hxy. symmetry.
  destruct (ilog2_spec x Hx) as [H1 H2].
  apply ilog2_unique; rewrite <- Hxy; assumption.
Qed.

End Binade.

(** ** Rounding to the nearest integer *)

Section Nearest.
Local Open Scope Q_scope.
Import JS.

Lemma Qfloor_bounds (y : Q) : inject_Z (Qfloor y) <= y /\ y < inject_Z (Qfloor y) + 1.
Proof.
  split; [apply Qfloor_le |].
  pose proof (Qlt_floor y) as H. rewrite inject_Z_plus in H. exact H.
Qed.

Lemma inject_Z_succ (k : Z) : inject_Z (k + 1) == inject_Z k + 1.
Proof. rewrite inject_Z_plus. reflexivity. Qed.

Lemma inject_Z_pred (k : Z) : inject_Z (k - 1) == inject_Z k - 1.
Proof. unfold Z.sub. rewrite inject_Z_plus. reflexivity. Qed.

Lemma rne_cases (y : Q) :
  (rne y = Qfloor y /\ y - inject_Z (Qfloor y) <= 1 # 2)
  \/ (rne y = (Qfloor y + 1)%Z /\ 1 # 2 <= y - inject_Z (Qfloor y)).
Proof.
  unfold rne.
  destruct (Qcompare_spec (y - inject_Z (Qfloor y)) (1 # 2)) as [E | E | E].
  - destruct (Z.even (Qfloor y)); [left | right]; (split; [reflexivity | lra]).
  - left. split; [reflexivity | lra].
  - right. split; [reflexivity | lra].
Qed.

Lemma rne_half (y : Q) : inject_Z (rne y) - (1 # 2) <= y /\ y <= inject_Z (rne y) + (1 # 2).
Proof.
  pose proof (Qfloor_bounds y) as [H1 H2].
  destruct (rne_cases y) as [[-> H] | [-> H]]; rewrite ?inject_Z_succ; split; lra.
Qed.

Lemma rne_inject (k : Z) : rne (inject_Z k) = k.
Proof.
  unfold rne. rewrite Qfloor_Z.
  replace (inject_Z k - inject_Z k ?= 1 # 2) with Lt; [reflexivity |].
  symmetry. apply -> Qlt_alt. lra.
Qed.

Lemma rne_le (y : Q) (k : Z) : y <= inject_Z k -> (rne y <= k)%Z.
Proof.
  intros H. pose proof (rne_half y) as [H1 _].
  assert (Hq : inject_Z (rne y) < inject_Z (k + 1)) by (rewrite inject_Z_succ; lra).
  rewrite <- Zlt_Qlt in Hq. lia.
Qed.

Lemma rne_ge (y : Q) (k : Z) : inject_Z k <= y -> (k <= rne y)%Z.
Proof.
  intros H. pose proof (rne_half y) as [_ H2].
  assert (Hq : inject_Z (k - 1) < inject_Z (rne y)).
  { rewrite inject_Z_pred. lra. }
  rewrite <- Zlt_Qlt in Hq. lia.
Qed.

Lemma rne_lt (y : Q) (k : Z) : y < inject_Z k - (1 # 2) -> (rne y < k)%Z.
Proof.
  intros H. pose proof (rne_half y) as [H1 _].
  assert (Hq : inject_Z (rne y) < inject_Z k) by lra.
  rewrite <- Zlt_Qlt in Hq. exact Hq.
Qed.

Lemma rne_gt (y : Q) (k : Z) : inject_Z k + (1 # 2) < y -> (k < rne y)%Z.
Proof.
  intros H. pose proof (rne_half y) as [_ H2].
  assert (Hq : inject_Z k < inject_Z (rne y)) by lra.
  rewrite <- Zlt_Qlt in Hq. exact Hq.
Qed.

Lemma rne_compat (x y : Q) : x == y -> rne x = rne y.
Proof.
  intros H. unfold rne.
  assert (Hf : Qfloor x = Qfloor y) by (rewrite H; reflexivity).
  rewrite Hf.
  assert (Hc : (x - inject_Z (Qfloor y) ?= 1 # 2) = (y - inject_Z (Qfloor y) ?= 1 # 2))
    by (rewrite H; reflexivity).
  rewrite Hc. reflexivity.
Qed.

Lemma rne_mono (x y : Q) : x <= y -> (rne x <= rne y)%Z.
Proof.
  intros Hxy.
  pose proof (Qfloor_resp_le x y Hxy) as Hf.
  pose proof (Qfloor_bounds x) as [Hx1 Hx2].
  pose proof (Qfloor_bounds y) as [Hy1 Hy2].
  destruct (Z.eq_dec (Qfloor x) (Qfloor y)) as [E | NE].
  - unfold rne. rewrite E.
    destruct (Qcompare_spec (x - inject_Z (Qfloor y)) (1 # 2)) as [Ex | Ex | Ex];
      destruct (Qcompare_spec (y - inject_Z (Qfloor y)) (1 # 2)) as [Ey | Ey | Ey];
      try (destruct (Z.even (Qfloor y))); try lia; exfalso; lra.
  - destruct (rne_cases x) as [[-> _] | [-> _]];
      destruct (rne_cases y) as [[-> _] | [-> _]]; lia.
Qed.

End Nearest.

(** ** Rounding to binary64 *)

Section Round64.
Local Open Scope Q_scope.
Import JS.

Lemma round64_zero (x : Q) : x == 0 -> round64 x = 0.
Proof.
  intros H. unfold round64.
  destruct (Qeq_bool x 0) eqn:E; [reflexivity |].
  apply Qeq_bool_neq in E. contradiction.
Qed.

Lemma round64_nonzero (x : Q) :
  ~ x == 0 -> round64 x == inject_Z (rne (x * 2 ^ (- exponent x))) * 2 ^ exponent x.
Proof.
  intros H. unfold round64.
  destruct (Qeq_bool x 0) eqn:E.
  - apply Qeq_bool_iff in E. contradiction.
  - apply Qred_correct.
Qed.

Lemma exponent_compat (x y : Q) : x == y -> ~ x == 0 -> exponent x = exponent y.
Proof.
  intros H Hx. unfold exponent. f_equal. f_equal.
  apply ilog2_compat; [| rewrite H; reflexivity].
  pose proof (Qabs_nonneg x). destruct (Qeq_dec (Qabs x) 0) as [E | NE]; [| lra].
  exfalso. apply Hx. revert E. apply Qabs_case; intros; lra.
Qed.

#[global] Instance round64_Proper : Proper (Qeq ==> eq) round64.
Proof.
  intros x y H. unfold round64.
  destruct (Qeq_bool x 0) eqn:Ex; destruct (Qeq_bool y 0) eqn:Ey; try reflexivity.
  - apply Qeq_bool_iff in Ex. apply Qeq_bool_neq in Ey. exfalso. apply Ey. rewrite <- H. exact Ex.
  - apply Qeq_bool_iff in Ey. apply Qeq_bool_neq in Ex. exfalso. apply Ex. rewrite H. exact Ey.
  - apply Qeq_bool_neq in Ex.
    rewrite <- (exponent_compat x y H Ex).
    apply Qred_complete.
    rewrite (rne_compat (x * 2 ^ (- exponent x)) (y * 2 ^ (- exponent x))); [reflexivity |].
    apply Qmult_comp; [exact H | reflexivity].
Qed.

Lemma exponent_pos (x : Q) : 0 < x -> exponent x = Z.max (ilog2 x - 52) (-1074).
Proof.
  intros Hx. unfold exponent. f_equal. f_equal.
  apply ilog2_compat; [| apply Qabs_pos; lra].
  apply Qlt_le_trans with x; [exact Hx | apply Qle_Qabs].
Qed.

Lemma exponent_mono (x y : Q) : 0 < x -> x <= y -> (exponent x <= exponent y)%Z.
Proof.
  intros Hx Hxy. rewrite !exponent_pos by lra.
  pose proof (ilog2_mono x y Hx Hxy). lia.
Qed.

(** The scaled significand is below 2^53, and at least 2^52 unless subnormal. *)
Lemma scaled_upper (x : Q) : 0 < x -> x * 2 ^ (- exponent x) < 2 ^ 53.
Proof.
  intros Hx. destruct (ilog2_spec x Hx) as [_ H2].
  rewrite exponent_pos by exact Hx.
  set (e := Z.max (ilog2 x - 52) (-1074)).
  assert (He : (ilog2 x + 1 <= 53 + e)%Z) by lia.
  clearbody e. apply pow2_le in He. rewrite (pow2_add 53 e) in He.
  pose proof (pow2_pos (- e)) as Hp. pose proof (pow2_cancel e) as Hc.
  pose proof (pow2_pos e) as Hpe.
  assert (Hx53 : x < 2 ^ 53 * 2 ^ e) by lra.
  apply Qlt_le_trans with (2 ^ 53 * 2 ^ e * 2 ^ (- e)).
  - apply Qmult_lt_compat_r; assumption.
  - rewrite <- Qmult_assoc, (Qmult_comm (2 ^ e)), Hc. lra.
Qed.

Lemma scaled_lower (x : Q) :
  0 < x -> (-1074 < exponent x)%Z -> 2 ^ 52 <= x * 2 ^ (- exponent x).
Proof.
  intros Hx He. destruct (ilog2_spec x Hx) as [H1 _].
  rewrite exponent_pos in * by exact Hx.
  set (e := Z.max (ilog2 x - 52) (-1074)) in *.
  assert (Hl : ilog2 x = (52 + e)%Z) by lia.
  clearbody e. rewrite Hl, pow2_add in H1.
  pose proof (pow2_pos (- e)) as Hp. pose proof (pow2_cancel e) as Hc.
  apply Qle_trans with (2 ^ 52 * 2 ^ e * 2 ^ (- e)).
  - rewrite <- Qmult_assoc, (Qmult_comm (2 ^ e)), Hc. lra.
  - apply Qmult_le_compat_r; lra.
Qed.

Lemma round64_pos_eq (x : Q) :
  0 < x -> round64 x == inject_Z (rne (x * 2 ^ (- exponent x))) * 2 ^ exponent x.
Proof. intros Hx. apply round64_nonzero. lra. Qed.

Lemma round64_nonneg (x : Q) : 0 <= x -> 0 <= round64 x.
Proof.
  intros Hx. destruct (Qeq_dec x 0) as [E | NE].
  - rewrite (round64_zero x E). lra.
  - rewrite round64_nonzero by exact NE.
    pose proof (pow2_pos (exponent x)). pose proof (pow2_pos (- exponent x)).
    assert (H1 : (0 <= rne (x * 2 ^ (- exponent x)))%Z).
    { apply rne_ge. change (inject_Z 0) with 0. apply Qmult_le_0_compat; lra. }
    rewrite Zle_Qle in H1. change (inject_Z 0) with 0 in H1.
    apply Qmult_le_0_compat; lra.
Qed.

Theorem round64_mono (x y : Q) : 0 <= x -> x <= y -> round64 x <= round64 y.
Proof.
  intros Hx Hxy. destruct (Qeq_dec x 0) as [E | NE].
  { rewrite (round64_zero x E). apply round64_nonneg. lra. }
  assert (Hx' : 0 < x) by lra. assert (Hy' : 0 < y) by lra.
  rewrite (round64_pos_eq x Hx'), (round64_pos_eq y Hy').
  pose proof (exponent_mono x y Hx' Hxy) as He.
  pose proof (pow2_pos (exponent x)) as Hpx. pose proof (pow2_pos (exponent y)) as Hpy.
  destruct (Z.eq_dec (exponent x) (exponent y)) as [Ee | Ne].
  - rewrite Ee. apply Qmult_le_compat_r; [| lra].
    rewrite <- Zle_Qle. apply rne_mono.
    apply Qmult_le_compat_r; [exact Hxy |]. pose proof (pow2_pos (- exponent y)). lra.
  - assert (Hlt : (exponent x + 1 <= exponent y)%Z) by lia.
    assert (Hy1074 : (-1074 < exponent y)%Z).
    { rewrite (exponent_pos x Hx') in Hlt. lia. }
    pose proof (scaled_upper x Hx') as Hu.
    pose proof (scaled_lower y Hy' Hy1074) as Hl.
    assert (H1 : (rne (x * 2 ^ (- exponent x)) <= 2 ^ 53)%Z).
    { apply rne_le. rewrite <- pow2_inject by lia. lra. }
    assert (H2 : (2 ^ 52 <= rne (y * 2 ^ (- exponent y)))%Z).
    { apply rne_ge. rewrite <- pow2_inject by lia. exact Hl. }
    rewrite Zle_Qle in H1, H2. rewrite <- pow2_inject in H1, H2 by lia.
    apply pow2_le in Hlt. rewrite pow2_add in Hlt.
    apply Qle_trans with (2 ^ 53 * 2 ^ exponent x).
    + apply Qmult_le_compat_r; lra.
    + apply Qle_trans with (2 ^ 52 * 2 ^ exponent y).
      * assert (E53 : 2 ^ 53 == 2 ^ 52 * 2 ^ 1) by reflexivity.
        rewrite E53. rewrite <- Qmult_assoc. apply Qmult_le_l; [reflexivity |].
        rewrite (Qmult_comm (2 ^ 1)). exact Hlt.
      * apply Qmult_le_compat_r; lra.
Qed.

(** The result is within half a unit in the last place of the operand. *)
Lemma round64_nearest (x : Q) :
  0 < x -> Qabs (round64 x - x) <= (1 # 2) * 2 ^ exponent x.
Proof.
  intros Hx. rewrite (round64_pos_eq x Hx).
  pose proof (rne_half (x * 2 ^ (- exponent x))) as [H1 H2].
  pose proof (pow2_cancel (exponent x)) as Hc.
  remember (exponent x) as e eqn:Ee. clear Ee.
  pose proof (pow2_pos e) as Hpe.
  remember (inject_Z (rne (x * 2 ^ (- e)))) as M eqn:EM. clear EM.
  assert (Ex : x == x * 2 ^ (- e) * 2 ^ e).
  { rewrite <- Qmult_assoc, Hc. ring. }
  remember (x * 2 ^ (- e)) as y eqn:Ey. clear Ey.
  apply Qabs_Qle_condition. rewrite Ex. split; nra.
Qed.

(** A number with a significand below 2^53 and an exponent in range is
    a binary64: rounding leaves it alone. *)
Theorem round64_repr (M e : Z) :
  (0 <= M < 2 ^ 53)%Z -> (-1074 <= e)%Z ->
  round64 (inject_Z M * 2 ^ e) == inject_Z M * 2 ^ e.
Proof.
  intros [HM0 HM] He.
  destruct (Z.eq_dec M 0%Z) as [-> | HMne].
  { change (inject_Z 0) with 0. rewrite round64_zero; lra. }
  pose proof (pow2_pos e) as Hpe.
  assert (HMq : 1 <= inject_Z M) by (change 1 with (inject_Z 1); rewrite <- Zle_Qle; lia).
  assert (HMq2 : inject_Z M < 2 ^ 53).
  { rewrite pow2_inject by lia. rewrite <- Zlt_Qlt. exact HM. }
  remember (inject_Z M * 2 ^ e) as x eqn:Ex.
  assert (Hxv : x == inject_Z M * 2 ^ e) by (rewrite Ex; reflexivity).
  clear Ex.
  assert (Hx : 0 < x) by nra.
  rewrite (round64_pos_eq x Hx).
  (* the exponent chosen for x is at most e *)
  assert (Hex : (exponent x <= e)%Z).
  { rewrite (exponent_pos x Hx).
    destruct (ilog2_spec x Hx) as [H1 _].
    assert (H3 : 2 ^ ilog2 x < 2 ^ (53 + e)).
    { rewrite (pow2_add 53 e). nra. }
    apply pow2_lt_inv in H3. lia. }
  remember (exponent x) as ex eqn:Eex. clear Eex.
  assert (Hd : (0 <= e - ex)%Z) by lia.
  assert (Hs : x * 2 ^ (- ex) == inject_Z (M * 2 ^ (e - ex))).
  { rewrite inject_Z_mult, <- (pow2_inject (e - ex) Hd), Hxv.
    rewrite <- Qmult_assoc, <- pow2_add.
    replace (e + - ex)%Z with (e - ex)%Z by lia. reflexivity. }
  rewrite (rne_compat _ _ Hs), rne_inject.
  rewrite inject_Z_mult, <- (pow2_inject (e - ex) Hd), Hxv.
  rewrite <- Qmult_assoc, <- pow2_add.
  replace (e - ex + ex)%Z with e by lia.
  reflexivity.
Qed.

Lemma Qred_inject_Z (k : Z) : Qred (inject_Z k) = inject_Z k.
Proof.
  unfold Qred, inject_Z.
  pose proof (Z.ggcd_correct_divisors k 1) as Hg.
  pose proof (Z.ggcd_gcd k 1) as Hgcd. rewrite Z.gcd_1_r in Hgcd.
  destruct (Z.ggcd k 1) as [g [a b]]. cbn [fst snd] in *. subst g.
  destruct Hg as [Ha Hb].
  assert (Ea : a = k) by lia. assert (Eb : b = 1%Z) by lia. subst a b. reflexivity.
Qed.

(** Whatever rounds to an integer rounds to it on the nose. *)
Lemma round64_eq_int (x : Q) (k : Z) : round64 x == inject_Z k -> round64 x = inject_Z k.
Proof.
  unfold round64. destruct (Qeq_bool x 0).
  - intros H. unfold Qeq in H. cbn in H. assert (k = 0%Z) by lia. subst k. reflexivity.
  - intros H. apply Qred_complete in H.
    rewrite Qred_inject_Z in H. rewrite <- H. symmetry.
    apply Qred_complete, Qred_correct.
Qed.

Corollary round64_int (k : Z) : (0 <= k < 2 ^ 53)%Z -> round64 (inject_Z k) = inject_Z k.
Proof.
  intros Hk. apply round64_eq_int.
  pose proof (round64_repr k 0 Hk ltac:(lia)) as H.
  assert (E : inject_Z k * 2 ^ 0 == inject_Z k) by (change (2 ^ 0) with 1; lra).
  rewrite (round64_Proper _ _ E) in H. rewrite H. exact E.
Qed.

End Round64.

(** ** Quotients of integers against integers

    The rounded quotient of two integers below 2^53 never reaches an
    integer the exact quotient does not reach: the gap to it is at least
    [1/b], more than half a unit in the last place. *)

Section Quotients.
Local Open Scope Q_scope.
Import JS.

Variables a b : Z.
Hypothesis Ha : (0 < a < 2 ^ 53)%Z.
Hypothesis Hb : (1 <= b <= 2 ^ 53)%Z.

Local Abbreviation x := (inject_Z a / inject_Z b).

Lemma quot_facts :
  0 < inject_Z b /\ 0 < x /\ x * inject_Z b == inject_Z a /\ inject_Z a < 2 ^ 53
  /\ inject_Z b <= 2 ^ 53.
Proof.
  assert (Hbq : 0 < inject_Z b) by (change 0 with (inject_Z 0); rewrite <- Zlt_Qlt; lia).
  assert (Haq : 0 < inject_Z a) by (change 0 with (inject_Z 0); rewrite <- Zlt_Qlt; lia).
  split; [exact Hbq |]. split.
  - apply Qlt_shift_div_l; [exact Hbq | lra].
  - split; [field; lra |]. split.
    + rewrite pow2_inject by lia. rewrite <- Zlt_Qlt. lia.
    + rewrite pow2_inject by lia. rewrite <- Zle_Qle. lia.
Qed.

Lemma quot_exponent : (exponent x <= 0)%Z /\ inject_Z b < 2 * 2 ^ (- exponent x).
Proof.
  destruct quot_facts as (Hbq & Hx & Hxb & Haq & Hbq2).
  assert (Hb1 : 1 <= inject_Z b) by (change 1 with (inject_Z 1); rewrite <- Zle_Qle; lia).
  destruct (ilog2_spec x Hx) as [H1 H2].
  rewrite (exponent_pos x Hx).
  remember (ilog2 x) as l eqn:El. clear El.
  assert (Hxa : x <= inject_Z a) by nra.
  assert (Hl : (l < 53)%Z) by (apply pow2_lt_inv; lra).
  split; [lia |].
  destruct (Z.max_spec (l - 52) (-1074)) as [[_ ->] | [_ ->]].
  - assert (E : 2 ^ (- -1074) == 2 ^ 53 * 2 ^ 1021) by reflexivity.
    rewrite E. pose proof (pow2_pos 53). nra.
  - (* b * 2^l <= a < 2^53 *)
    assert (E : 2 * 2 ^ (- (l - 52)) * 2 ^ l == 2 ^ 53).
    { change 2 with (2 ^ 1) at 1. rewrite <- !pow2_add.
      replace (1 + - (l - 52) + l)%Z with 53%Z by lia. reflexivity. }
    pose proof (pow2_pos l) as Hpl. pose proof (pow2_pos (- (l - 52))) as Hps.
    apply Qnot_le_lt. intros Hc.
    assert (H3 : 2 * 2 ^ (- (l - 52)) * 2 ^ l <= inject_Z b * 2 ^ l).
    { apply Qmult_le_compat_r; lra. }
    assert (H4 : inject_Z b * 2 ^ l <= inject_Z b * x).
    { apply Qmult_le_l; lra. }
    rewrite E in H3. rewrite (Qmult_comm (inject_Z b) x), Hxb in H4. lra.
Qed.

Lemma round64_scaled :
  round64 x * 2 ^ (- exponent x) == inject_Z (rne (x * 2 ^ (- exponent x))).
Proof.
  destruct quot_facts as (_ & Hx & _).
  rewrite (round64_pos_eq x Hx), <- Qmult_assoc, (Qmult_comm (2 ^ exponent x)), pow2_cancel.
  apply Qmult_1_r.
Qed.

Lemma round64_quot_lt (K : Z) : (a < K * b)%Z -> round64 x < inject_Z K.
Proof.
  intros HK.
  destruct quot_facts as (Hbq & Hx & Hxb & Haq & Hbq2).
  destruct quot_exponent as [He Hs].
  pose proof round64_scaled as Hr.
  remember (exponent x) as e eqn:Ee. clear Ee.
  pose proof (pow2_pos (- e)) as Hps.
  assert (HS : 2 ^ (- e) == inject_Z (2 ^ (- e))) by (apply pow2_inject; lia).
  assert (HKq : inject_Z a + 1 <= inject_Z K * inject_Z b).
  { rewrite <- inject_Z_mult, <- inject_Z_succ, <- Zle_Qle. lia. }
  assert (Hlt : (rne (x * 2 ^ (- e)) < K * 2 ^ (- e))%Z).
  { apply rne_lt. rewrite inject_Z_mult, <- HS.
    remember (2 ^ (- e)) as s eqn:Es. clear Es HS Hr.
    remember (inject_Z b) as bq. remember (inject_Z a) as aq. remember (inject_Z K) as Kq.
    (* multiply through by bq *)
    apply Qmult_lt_r with bq; [exact Hbq |].
    assert (E1 : aq / bq * s * bq == aq * s) by (field; lra).
    rewrite E1. nra. }
  rewrite Zlt_Qlt, inject_Z_mult, <- HS, <- Hr in Hlt.
  apply Qmult_lt_r with (2 ^ (- e)); assumption.
Qed.

Lemma round64_quot_gt (K : Z) : (K * b < a)%Z -> inject_Z K < round64 x.
Proof.
  intros HK.
  destruct quot_facts as (Hbq & Hx & Hxb & Haq & Hbq2).
  destruct quot_exponent as [He Hs].
  pose proof round64_scaled as Hr.
  remember (exponent x) as e eqn:Ee. clear Ee.
  pose proof (pow2_pos (- e)) as Hps.
  assert (HS : 2 ^ (- e) == inject_Z (2 ^ (- e))) by (apply pow2_inject; lia).
  assert (HKq : inject_Z K * inject_Z b + 1 <= inject_Z a).
  { rewrite <- inject_Z_mult, <- inject_Z_succ, <- Zle_Qle. lia. }
  assert (Hlt : (K * 2 ^ (- e) < rne (x * 2 ^ (- e)))%Z).
  { apply rne_gt. rewrite inject_Z_mult, <- HS.
    remember (2 ^ (- e)) as s eqn:Es. clear Es HS Hr.
    remember (inject_Z b) as bq. remember (inject_Z a) as aq. remember (inject_Z K) as Kq.
    apply Qmult_lt_r with bq; [exact Hbq |].
    assert (E1 : aq / bq * s * bq == aq * s) by (field; lra).
    rewrite E1. nra. }
  rewrite Zlt_Qlt, inject_Z_mult, <- HS, <- Hr in Hlt.
  apply Qmult_lt_r with (2 ^ (- e)); assumption.
Qed.

End Quotients.

(** ** The integer conversions *)

Section Conversions.
Local Open Scope Q_scope.
Import JS.

Lemma Qfloor_unique (r : Q) (k : Z) : inject_Z k <= r -> r < inject_Z k + 1 -> Qfloor r = k.
Proof.
  intros H1 H2.
  pose proof (Qfloor_resp_le _ _ H1) as H3. rewrite Qfloor_Z in H3.
  pose proof (Qfloor_le r) as H4.
  assert (H5 : inject_Z (Qfloor r) < inject_Z (k + 1)) by (rewrite inject_Z_succ; lra).
  rewrite <- Zlt_Qlt in H5. lia.
Qed.

Lemma Qceiling_unique (r : Q) (k : Z) : inject_Z k - 1 < r -> r <= inject_Z k -> Qceiling r = k.
Proof.
  intros H1 H2. unfold Qceiling.
  rewrite (Qfloor_unique (- r) (- k)); [lia | |]; rewrite inject_Z_opp; lra.
Qed.

Lemma Qtrunc_nonneg (r : Q) : 0 <= r -> Qtrunc r = Qfloor r.
Proof.
  destruct r as [n d]. intros H. unfold Qtrunc, Qfloor. cbn [Qnum Qden].
  apply Z.quot_div_nonneg; [| lia].
  unfold Qle in H. cbn in H. lia.
Qed.

Lemma Qtrunc_inject (k : Z) : Qtrunc (inject_Z k) = k.
Proof. unfold Qtrunc, inject_Z. cbn [Qnum Qden]. apply Z.quot_1_r. Qed.

Lemma ToInt32_small (r : Q) :
  (- 2 ^ 31 <= Qtrunc r < 2 ^ 31)%Z -> ToInt32 r = Qtrunc r.
Proof.
  intros H. unfold ToInt32.
  destruct (Z_lt_le_dec (Qtrunc r) 0) as [Hn | Hp].
  - replace (Qtrunc r mod 2 ^ 32)%Z with (Qtrunc r + 2 ^ 32)%Z.
    + destruct (Z.leb_spec (2 ^ 31) (Qtrunc r + 2 ^ 32)); lia.
    + apply Z.mod_unique with (-1)%Z; lia.
  - rewrite Z.mod_small by lia.
    destruct (Z.leb_spec (2 ^ 31) (Qtrunc r)); lia.
Qed.

Lemma ToInt32_inject (k : Z) : (- 2 ^ 31 <= k < 2 ^ 31)%Z -> ToInt32 (inject_Z k) = k.
Proof. intros H. rewrite ToInt32_small; rewrite Qtrunc_inject; auto. Qed.

Lemma frem_exact (i m : Z) :
  (0 <= i)%Z -> (0 < m)%Z -> frem (inject_Z i) (inject_Z m) = inject_Z (i mod m).
Proof.
  intros Hi Hm. unfold frem.
  assert (Hmq : 0 < inject_Z m) by (change 0 with (inject_Z 0); rewrite <- Zlt_Qlt; lia).
  assert (Hiq : 0 <= inject_Z i) by (change 0 with (inject_Z 0); rewrite <- Zle_Qle; lia).
  rewrite Qtrunc_nonneg by (apply Qle_shift_div_l; [exact Hmq | lra]).
  rewrite <- Zdiv_Qdiv.
  rewrite <- (Qred_inject_Z (i mod m)). apply Qred_complete.
  rewrite (Z.mod_eq i m) by lia.
  unfold Z.sub. rewrite inject_Z_plus, inject_Z_opp, inject_Z_mult. ring.
Qed.

(** [Math.pow(10, n)] is exact as long as 10^n is below 2^53. *)
Lemma Math_pow_exact (b : Z) (n : nat) :
  (0 <= b ^ Z.of_nat n < 2 ^ 53)%Z -> Math_pow b n = inject_Z (b ^ Z.of_nat n).
Proof. intros H. unfold Math_pow. apply round64_int. exact H. Qed.

(** Division of two integers below 2^53, then [| 0], [Math.floor] or
    [Math.ceil]: the integer quotient, rounded the same way. *)
Lemma fdiv_between (a b : Z) :
  (0 <= a < 2 ^ 53)%Z -> (1 <= b <= 2 ^ 53)%Z ->
  inject_Z (a / b) <= fdiv (inject_Z a) (inject_Z b)
  /\ fdiv (inject_Z a) (inject_Z b) < inject_Z (a / b) + 1.
Proof.
  intros Ha Hb. unfold fdiv.
  pose proof (Z.div_mod a b ltac:(lia)) as Hdm.
  pose proof (Z.mod_pos_bound a b ltac:(lia)) as Hmod.
  destruct (Z.eq_dec a 0%Z) as [-> | Hne].
  { rewrite Z.div_0_l by lia. rewrite round64_zero; [| unfold Qdiv; ring].
    change (inject_Z 0) with 0. lra. }
  assert (Ha' : (0 < a < 2 ^ 53)%Z) by lia.
  split.
  - destruct (Z.eq_dec (a mod b) 0%Z) as [E | NE].
    + assert (Eq : inject_Z a / inject_Z b == inject_Z (a / b)).
      { assert (Hbq : ~ inject_Z b == 0).
        { intros Hc. unfold Qeq in Hc. cbn in Hc. lia. }
        replace a with (b * (a / b))%Z at 1 by lia.
        rewrite inject_Z_mult. field. exact Hbq. }
      rewrite (round64_Proper _ _ Eq).
      rewrite round64_int; [lra |].
      split; [apply Z.div_pos; lia |].
      apply Z.le_lt_trans with a; [| lia]. apply Z.div_le_upper_bound; nia.
    + apply Qlt_le_weak. apply round64_quot_gt; [exact Ha' | exact Hb |]. nia.
  - rewrite <- inject_Z_succ. apply round64_quot_lt; [exact Ha' | exact Hb |]. nia.
Qed.

Lemma fdiv_floor (a b : Z) :
  (0 <= a < 2 ^ 53)%Z -> (1 <= b <= 2 ^ 53)%Z ->
  Qfloor (fdiv (inject_Z a) (inject_Z b)) = (a / b)%Z.
Proof.
  intros Ha Hb. destruct (fdiv_between a b Ha Hb) as [H1 H2].
  apply Qfloor_unique; assumption.
Qed.

Lemma fdiv_trunc (a b : Z) :
  (0 <= a < 2 ^ 53)%Z -> (1 <= b <= 2 ^ 53)%Z ->
  Qtrunc (fdiv (inject_Z a) (inject_Z b)) = (a / b)%Z.
Proof.
  intros Ha Hb. rewrite Qtrunc_nonneg; [apply fdiv_floor; assumption |].
  destruct (fdiv_between a b Ha Hb) as [H1 _].
  assert (H0 : 0 <= inject_Z (a / b)).
  { change 0 with (inject_Z 0). rewrite <- Zle_Qle. apply Z.div_pos; lia. }
  lra.
Qed.

Lemma fdiv_ceiling (a b : Z) :
  (0 <= a < 2 ^ 53)%Z -> (1 <= b <= 2 ^ 53)%Z ->
  Qceiling (fdiv (inject_Z a) (inject_Z b)) = ((a + b - 1) / b)%Z.
Proof.
  intros Ha Hb. unfold fdiv.
  set (K := ((a + b - 1) / b)%Z).
  pose proof (Z.div_mod (a + b - 1) b ltac:(lia)) as Hdm.
  pose proof (Z.mod_pos_bound (a + b - 1) b ltac:(lia)) as Hmod.
  fold K in Hdm.
  assert (HK1 : ((K - 1) * b < a)%Z) by lia.
  assert (HK2 : (a <= K * b)%Z) by lia.
  clearbody K.
  destruct (Z.eq_dec a 0%Z) as [-> | Hne].
  { assert (K = 0%Z) by nia. subst K.
    rewrite round64_zero; [| unfold Qdiv; ring]. reflexivity. }
  assert (Ha' : (0 < a < 2 ^ 53)%Z) by lia.
  apply Qceiling_unique.
  - rewrite <- inject_Z_pred. apply round64_quot_gt; assumption.
  - destruct (Z.eq_dec a (K * b)%Z) as [E | NE].
    + assert (Eq : inject_Z a / inject_Z b == inject_Z K).
      { assert (Hbq : ~ inject_Z b == 0).
        { intros Hc. unfold Qeq in Hc. cbn in Hc. lia. }
        rewrite E, inject_Z_mult. field. exact Hbq. }
      rewrite (round64_Proper _ _ Eq).
      rewrite round64_int; [lra | nia].
    + apply Qlt_le_weak. apply round64_quot_lt; [exact Ha' | exact Hb | lia].
Qed.

End Conversions.

(** ** The two values the worker writes to its slot *)

Section Progress.
Local Open Scope Q_scope.
Import JS Worker.

Lemma inject_Z_nonneg (k : Z) : (0 <= k)%Z -> 0 <= inject_Z k.
Proof. intros H. change 0 with (inject_Z 0). rewrite <- Zle_Qle. exact H. Qed.

Lemma inject_Z_pos (k : Z) : (0 < k)%Z -> 0 < inject_Z k.
Proof. intros H. change 0 with (inject_Z 0). rewrite <- Zlt_Qlt. exact H. Qed.

Lemma round64_one : round64 1 = 1.
Proof. reflexivity. Qed.

Lemma fdiv_unit (d n : Z) :
  (0 <= d <= n)%Z -> (0 < n)%Z ->
  0 <= fdiv (inject_Z d) (inject_Z n) /\ fdiv (inject_Z d) (inject_Z n) <= 1.
Proof.
  intros Hd Hn. unfold fdiv.
  pose proof (inject_Z_pos n Hn) as Hnq.
  pose proof (inject_Z_nonneg d ltac:(lia)) as Hdq.
  assert (Hdn : inject_Z d <= inject_Z n) by (rewrite <- Zle_Qle; lia).
  assert (H0 : 0 <= inject_Z d / inject_Z n) by (apply Qle_shift_div_l; lra).
  assert (H1 : inject_Z d / inject_Z n <= 1) by (apply Qle_shift_div_r; lra).
  split; [apply round64_nonneg; exact H0 |].
  apply Qle_trans with (round64 1); [apply round64_mono; assumption |].
  rewrite round64_one. apply Qle_refl.
Qed.

Lemma fdiv_mono (d1 d2 n : Z) :
  (0 <= d1 <= d2)%Z -> (0 < n)%Z ->
  fdiv (inject_Z d1) (inject_Z n) <= fdiv (inject_Z d2) (inject_Z n).
Proof.
  intros Hd Hn. unfold fdiv.
  pose proof (inject_Z_pos n Hn) as Hnq.
  pose proof (inject_Z_nonneg d1 ltac:(lia)) as Hdq.
  assert (Hdd : inject_Z d1 <= inject_Z d2) by (rewrite <- Zle_Qle; lia).
  apply round64_mono.
  - apply Qle_shift_div_l; lra.
  - unfold Qdiv. apply Qmult_le_compat_r; [exact Hdd |].
    apply Qlt_le_weak, Qinv_lt_0_compat. exact Hnq.
Qed.

(** The scaled fraction before [Math.floor]. *)
Local Abbreviation scaled d n := (fmul (fdiv (inject_Z d) (inject_Z n)) 1000000).

Lemma scaled_bounds (d n : Z) :
  (0 <= d <= n)%Z -> (0 < n)%Z -> 0 <= scaled d n /\ scaled d n <= 1000000.
Proof.
  intros Hd Hn. destruct (fdiv_unit d n Hd Hn) as [H0 H1]. unfold fmul.
  split; [apply round64_nonneg; lra |].
  assert (E : round64 1000000 = 1000000) by reflexivity.
  apply Qle_trans with (round64 1000000); [apply round64_mono; lra |].
  rewrite E. apply Qle_refl.
Qed.

Lemma scaled_mono (d1 d2 n : Z) :
  (0 <= d1 <= d2)%Z -> (d2 <= n)%Z -> (0 < n)%Z -> scaled d1 n <= scaled d2 n.
Proof.
  intros Hd Hdn Hn. unfold fmul.
  destruct (fdiv_unit d1 n ltac:(lia) Hn) as [H0 _].
  pose proof (fdiv_mono d1 d2 n Hd Hn).
  apply round64_mono; lra.
Qed.

Lemma Qfloor_between (r : Q) (a b : Z) :
  inject_Z a <= r -> r <= inject_Z b -> (a <= Qfloor r <= b)%Z.
Proof.
  intros Ha Hb. apply Qfloor_resp_le in Ha, Hb. rewrite Qfloor_Z in Ha, Hb. lia.
Qed.

Lemma batchValue_floor (d n : Z) :
  (0 <= d <= n)%Z -> (0 < n)%Z -> batchValue d n = Qfloor (scaled d n).
Proof.
  intros Hd Hn. destruct (scaled_bounds d n Hd Hn) as [H0 H1].
  unfold batchValue, Math_floor.
  apply ToInt32_inject.
  pose proof (Qfloor_between _ 0 1000000 H0 H1). lia.
Qed.

Lemma batchValue_bounds (d n : Z) :
  (0 <= d <= n)%Z -> (0 < n)%Z -> (0 <= batchValue d n <= 1000000)%Z.
Proof.
  intros Hd Hn. rewrite (batchValue_floor d n Hd Hn).
  destruct (scaled_bounds d n Hd Hn) as [H0 H1].
  exact (Qfloor_between _ 0 1000000 H0 H1).
Qed.

Lemma batchValue_mono (d1 d2 n : Z) :
  (0 <= d1 <= d2)%Z -> (d2 <= n)%Z -> (0 < n)%Z -> (batchValue d1 n <= batchValue d2 n)%Z.
Proof.
  intros Hd Hdn Hn.
  rewrite (batchValue_floor d1 n), (batchValue_floor d2 n) by lia.
  apply Qfloor_resp_le, scaled_mono; assumption.
Qed.

(** The largest binary64 below 1. *)
Local Abbreviation below_one := (inject_Z (2 ^ 53 - 1) * 2 ^ (-53)).

Lemma fdiv_below_one (d n : Z) :
  (0 <= d < n)%Z -> (n <= 2 ^ 53)%Z -> fdiv (inject_Z d) (inject_Z n) <= below_one.
Proof.
  intros Hd Hn. unfold fdiv.
  pose proof (inject_Z_pos n ltac:(lia)) as Hnq.
  pose proof (inject_Z_nonneg d ltac:(lia)) as Hdq.
  assert (Hr : round64 below_one == below_one).
  { apply round64_repr; lia. }
  rewrite <- Hr. apply round64_mono; [apply Qle_shift_div_l; lra |].
  apply Qle_shift_div_r; [exact Hnq |].
  (* d <= n - 1 and n <= 2^53 give d * 2^53 <= (2^53 - 1) * n *)
  assert (Hz : (d * 2 ^ 53 <= (2 ^ 53 - 1) * n)%Z) by nia.
  rewrite Zle_Qle, !inject_Z_mult in Hz.
  assert (Hb : below_one * inject_Z (2 ^ 53) == inject_Z (2 ^ 53 - 1)) by reflexivity.
  assert (Hp : 0 < inject_Z (2 ^ 53)) by reflexivity.
  apply Qmult_le_r with (inject_Z (2 ^ 53)); [exact Hp |].
  rewrite <- Hb in Hz.
  rewrite <- Qmult_assoc, (Qmult_comm (inject_Z n)), Qmult_assoc. exact Hz.
Qed.

Lemma batchValue_below_full (d n : Z) :
  (0 <= d < n)%Z -> (n <= 2 ^ 53)%Z -> (batchValue d n <= 999999)%Z.
Proof.
  intros Hd Hn. rewrite batchValue_floor by lia.
  destruct (fdiv_unit d n ltac:(lia) ltac:(lia)) as [H0 _].
  pose proof (fdiv_below_one d n Hd Hn) as Hb.
  assert (Hs : scaled d n <= round64 (below_one * 1000000)).
  { unfold fmul. apply round64_mono; lra. }
  assert (Hc : round64 (below_one * 1000000) < 1000000) by (vm_compute; reflexivity).
  pose proof (Qfloor_le (scaled d n)) as Hf.
  assert (Hlt : inject_Z (Qfloor (scaled d n)) < inject_Z 1000000).
  { change (inject_Z 1000000) with 1000000. lra. }
  rewrite <- Zlt_Qlt in Hlt. lia.
Qed.

Lemma flushValue_bounds (s bp n : Z) :
  (0 <= s <= 1000000)%Z -> (0 < bp <= n)%Z ->
  (s <= flushValue s bp n <= s + 1)%Z.
Proof.
  intros Hs Hbp.
  destruct (fdiv_unit bp n ltac:(lia) ltac:(lia)) as [H0 H1].
  pose proof (inject_Z_nonneg s ltac:(lia)) as Hsq.
  unfold flushValue, fadd.
  set (f := fdiv (inject_Z bp) (inject_Z n)) in *. clearbody f.
  assert (Hlo : inject_Z s <= round64 (inject_Z s + f)).
  { rewrite <- (round64_int s) at 1 by lia. apply round64_mono; lra. }
  assert (Hhi : round64 (inject_Z s + f) <= inject_Z (s + 1)).
  { rewrite <- (round64_int (s + 1)) by lia. apply round64_mono; [lra |].
    rewrite inject_Z_succ. lra. }
  rewrite ToInt32_small; rewrite Qtrunc_nonneg by lra.
  - apply Qfloor_resp_le in Hlo, Hhi. rewrite Qfloor_Z in Hlo, Hhi. lia.
  - apply Qfloor_resp_le in Hlo, Hhi. rewrite Qfloor_Z in Hlo, Hhi. lia.
Qed.

(** Past the first batch the closing [+=] adds less than one unit and
    the store truncates it away. *)
Lemma flushValue_same (s bp n : Z) :
  (0 <= s <= 999999)%Z -> (0 < bp < batchSize)%Z -> (batchSize <= n)%Z ->
  flushValue s bp n = s.
Proof.
  unfold batchSize. intros Hs Hbp Hn.
  pose proof (inject_Z_nonneg s ltac:(lia)) as Hsq.
  pose proof (inject_Z_pos n ltac:(lia)) as Hnq.
  pose proof (inject_Z_nonneg bp ltac:(lia)) as Hbq.
  assert (Hf0 : 0 <= fdiv (inject_Z bp) (inject_Z n))
    by (apply (fdiv_unit bp n); lia).
  assert (Hf1 : fdiv (inject_Z bp) (inject_Z n) <= 1 - 2 ^ (-33)).
  { apply Qle_trans with (round64 (9999999 / 10000000)); [| vm_compute; discriminate].
    unfold fdiv. apply round64_mono; [apply Qle_shift_div_l; lra |].
    apply Qle_shift_div_r; [exact Hnq |].
    assert (Hz : (bp * 10000000 <= 9999999 * n)%Z) by nia.
    rewrite Zle_Qle, !inject_Z_mult in Hz.
    change (inject_Z 10000000) with 10000000 in Hz.
    change (inject_Z 9999999) with 9999999 in Hz.
    apply Qmult_le_r with 10000000; [reflexivity |].
    assert (E : 9999999 / 10000000 * inject_Z n * 10000000 == 9999999 * inject_Z n)
      by (field).
    rewrite E. exact Hz. }
  unfold flushValue, fadd.
  set (f := fdiv (inject_Z bp) (inject_Z n)) in *. clearbody f.
  assert (Hlo : inject_Z s <= round64 (inject_Z s + f)).
  { rewrite <- (round64_int s) at 1 by lia. apply round64_mono; lra. }
  assert (Hhi : round64 (inject_Z s + f) < inject_Z s + 1).
  { assert (Hr : round64 (inject_Z ((s + 1) * 2 ^ 33 - 1) * 2 ^ (-33))
                 == inject_Z ((s + 1) * 2 ^ 33 - 1) * 2 ^ (-33)).
    { apply round64_repr; lia. }
    assert (Ev : inject_Z ((s + 1) * 2 ^ 33 - 1) * 2 ^ (-33) == inject_Z s + 1 - 2 ^ (-33)).
    { rewrite inject_Z_pred, inject_Z_mult, inject_Z_succ.
      change (inject_Z (2 ^ 33)) with 8589934592.
      change (2 ^ (-33)) with (1 # 8589934592). field. }
    apply Qle_lt_trans with (inject_Z s + 1 - 2 ^ (-33)).
    - rewrite <- Ev, <- Hr. apply round64_mono; [lra |]. rewrite Ev. lra.
    - assert (0 < 2 ^ (-33)) by reflexivity. lra. }
  rewrite ToInt32_small; rewrite Qtrunc_nonneg by lra;
    rewrite (Qfloor_unique _ s Hlo Hhi); lia.
Qed.

(** A chunk shorter than one batch: the slot goes from 0 to [0 + n/n]. *)
Lemma flushValue_first (n : Z) : (0 < n)%Z -> flushValue 0 n n = 1%Z.
Proof.
  intros Hn. unfold flushValue, fadd, fdiv.
  pose proof (inject_Z_pos n Hn) as Hnq.
  assert (E : inject_Z n / inject_Z n == 1) by (field; lra).
  rewrite (round64_Proper _ _ E). reflexivity.
Qed.

End Progress.

(** ** The worker's loop *)

Section Turn.
Import JS Worker Worker_spec.

Variable rt : Platform.
Variables (start end_ : Z) (decimalPlaces workerId : nat).

Local Abbreviation loop := (Worker.loop rt start end_ decimalPlaces workerId).
Local Abbreviation fails i :=
  (mismatch rt (value i (multiplier decimalPlaces)) decimalPlaces).
Local Abbreviation error_at i :=
  (let v := value i (multiplier decimalPlaces) in
   Error v (serialized rt v decimalPlaces)
         (deserialized rt (serialized rt v decimalPlaces))).
Local Abbreviation total := (end_ - start).

Lemma emit_nil (r : Run) : emit [] r = r.
Proof. destruct r. reflexivity. Qed.

Lemma posted_app (es1 es2 : list Event) : posted (es1 ++ es2) = posted es1 ++ posted es2.
Proof. apply omap_app. Qed.

Lemma checked_app (es1 es2 : list Event) : checked (es1 ++ es2) = checked es1 ++ checked es2.
Proof. apply omap_app. Qed.

Lemma stored_app (slot : nat) (es1 es2 : list Event) :
  stored slot (es1 ++ es2) = stored slot es1 ++ stored slot es2.
Proof. apply omap_app. Qed.

Lemma emit_seq (es : list Event) (r : Run) (k : Z -> list Z -> Run) :
  emit es (match control r with
           | Next bp' => emit (events r) (k bp' (progressArray r))
           | _ => r
           end)
  = match control (emit es r) with
    | Next bp' => emit (events (emit es r)) (k bp' (progressArray (emit es r)))
    | _ => emit es r
    end.
Proof.
  destruct r as [ev pa [bp' | |]]; unfold emit; cbn [control events progressArray];
    rewrite ?app_assoc; reflexivity.
Qed.

(** One turn of the loop, case by case. *)
Lemma loop_fail n i bp arr :
  fails i = true ->
  loop (S n) i bp arr = mkRun [Check i false; Post (error_at i)] arr Return.
Proof. intros H. cbn [Worker.loop]. rewrite H. reflexivity. Qed.

Lemma loop_pass n i bp arr :
  fails i = false -> bp + 1 <> batchSize ->
  loop (S n) i bp arr = emit [Check i true] (loop n (i + 1) (bp + 1) arr).
Proof.
  intros H Hb. cbn [Worker.loop]. rewrite H.
  destruct (Z.eqb_spec (bp + 1) batchSize); [contradiction | reflexivity].
Qed.

Lemma loop_batch n i bp arr :
  fails i = false -> bp + 1 = batchSize -> (workerId < length arr)%nat ->
  loop (S n) i bp arr =
  emit [Check i true; Store workerId (batchValue (i - start) total); Notify workerId]
       (loop n (i + 1) 0 (<[workerId := batchValue (i - start) total]> arr)).
Proof.
  intros H Hb Hw. cbn [Worker.loop]. rewrite H.
  destruct (Z.eqb_spec (bp + 1) batchSize); [| contradiction].
  destruct (Nat.ltb_spec workerId (length arr)); [reflexivity | lia].
Qed.

Lemma loop_throw n i bp arr :
  fails i = false -> bp + 1 = batchSize -> (length arr <= workerId)%nat ->
  loop (S n) i bp arr = mkRun [Check i true] arr Throw.
Proof.
  intros H Hb Hw. cbn [Worker.loop]. rewrite H.
  destruct (Z.eqb_spec (bp + 1) batchSize); [| contradiction].
  destruct (Nat.ltb_spec workerId (length arr)); [lia | reflexivity].
Qed.

(** The four ways a turn can go: the comparison fails; it succeeds
    short of a batch; it succeeds and fills the batch, with the slot in
    the array; the same with the slot outside. *)
Lemma loop_turn n i bp arr :
  (fails i = true
   /\ loop (S n) i bp arr = mkRun [Check i false; Post (error_at i)] arr Return)
  \/ (fails i = false /\ bp + 1 <> batchSize
      /\ loop (S n) i bp arr = emit [Check i true] (loop n (i + 1) (bp + 1) arr))
  \/ (fails i = false /\ bp + 1 = batchSize /\ (workerId < length arr)%nat
      /\ loop (S n) i bp arr
         = emit [Check i true; Store workerId (batchValue (i - start) total);
                 Notify workerId]
                (loop n (i + 1) 0 (<[workerId := batchValue (i - start) total]> arr)))
  \/ (fails i = false /\ bp + 1 = batchSize /\ (length arr <= workerId)%nat
      /\ loop (S n) i bp arr = mkRun [Check i true] arr Throw).
Proof.
  destruct (fails i) eqn:Hf.
  { left. split; [reflexivity | apply loop_fail; exact Hf]. }
  right. destruct (Z.eq_dec (bp + 1) batchSize) as [Hb | Hb].
  - right. destruct (Nat.lt_ge_cases workerId (length arr)) as [Hw | Hw].
    + left. repeat split; try assumption. apply loop_batch; assumption.
    + right. repeat split; try assumption. apply loop_throw; assumption.
  - left. repeat split; try assumption. apply loop_pass; assumption.
Qed.

End Turn.

(** Case analysis on the turn of the loop the goal, or else the
    hypothesis [H], speaks of. *)
Ltac split_turn rt s e dp w n i bp arr E :=
  destruct (loop_turn rt s e dp w n i bp arr)
    as [(Hfail & E) | [(Hfail & Hnobatch & E)
        | [(Hfail & Hbatch & Hslot & E) | (Hfail & Hbatch & Hnoslot & E)]]].

Ltac turn :=
  match goal with
  | |- context [Worker.loop ?rt ?s ?e ?dp ?w (S ?n) ?i ?bp ?arr] =>
      let E := fresh "Hturn" in
      split_turn rt s e dp w n i bp arr E; rewrite E; clear E
  end.

Ltac turn_in H :=
  match type of H with
  | context [Worker.loop ?rt ?s ?e ?dp ?w (S ?n) ?i ?bp ?arr] =>
      let E := fresh "Hturn" in
      split_turn rt s e dp w n i bp arr E; rewrite E in H; clear E
  end.

Section Loop.
Import JS Worker Worker_spec.

Variable rt : Platform.
Variables (start end_ : Z) (decimalPlaces workerId : nat).

Local Abbreviation loop := (Worker.loop rt start end_ decimalPlaces workerId).
Local Abbreviation fails i :=
  (mismatch rt (value i (multiplier decimalPlaces)) decimalPlaces).
Local Abbreviation total := (end_ - start).

(** Running [n1 + n2] turns is running [n1] and, unless they ended the
    script, [n2] more from where they stopped. *)
Lemma loop_app n1 : forall n2 i bp arr,
  loop (n1 + n2) i bp arr =
  match control (loop n1 i bp arr) with
  | Next bp' =>
      emit (events (loop n1 i bp arr))
           (loop n2 (i + Z.of_nat n1) bp' (progressArray (loop n1 i bp arr)))
  | _ => loop n1 i bp arr
  end.
Proof.
  induction n1 as [| n1 IH]; intros n2 i bp arr.
  - cbn [Nat.add Worker.loop control events progressArray].
    rewrite Z.add_0_r. symmetry. apply emit_nil.
  - replace (i + Z.of_nat (S n1)) with (i + 1 + Z.of_nat n1) by lia.
    change (S n1 + n2)%nat with (S (n1 + n2)).
    destruct (fails i) eqn:Hf.
    { rewrite !loop_fail by exact Hf. reflexivity. }
    destruct (Z.eq_dec (bp + 1) batchSize) as [Hb | Hb].
    + destruct (Nat.lt_ge_cases workerId (length arr)) as [Hw | Hw].
      * rewrite !loop_batch by assumption. rewrite IH.
        apply (emit_seq _ _ (fun bp' pa => loop n2 (i + 1 + Z.of_nat n1) bp' pa)).
      * rewrite !loop_throw by assumption. reflexivity.
    + rewrite !loop_pass by assumption. rewrite IH.
      apply (emit_seq _ _ (fun bp' pa => loop n2 (i + 1 + Z.of_nat n1) bp' pa)).
Qed.

(** While every comparison succeeds the loop neither posts nor stops,
    visits the indices in order and keeps its counter below the batch
    size. *)
Lemma loop_passing n : forall i bp arr,
  (workerId < length arr)%nat -> 0 <= bp < batchSize ->
  (forall j, i <= j < i + Z.of_nat n -> fails j = false) ->
  control (loop n i bp arr) = Next ((bp + Z.of_nat n) mod batchSize)
  /\ length (progressArray (loop n i bp arr)) = length arr
  /\ posted (events (loop n i bp arr)) = []
  /\ checked (events (loop n i bp arr)) = seqZ i (Z.of_nat n).
Proof.
  induction n as [| n IH]; intros i bp arr Hw Hbp Hall.
  - cbn [Worker.loop control progressArray events].
    rewrite Z.add_0_r, Z.mod_small by exact Hbp. auto.
  - assert (Hi : fails i = false) by (apply Hall; lia).
    assert (Hrest : forall j, i + 1 <= j < i + 1 + Z.of_nat n -> fails j = false)
      by (intros j Hj; apply Hall; lia).
    replace (Z.of_nat (S n)) with (1 + Z.of_nat n) by lia.
    rewrite (seqZ_cons i) by lia.
    replace (Z.succ i) with (i + 1) by lia.
    replace (Z.pred (1 + Z.of_nat n)) with (Z.of_nat n) by lia.
    destruct (Z.eq_dec (bp + 1) batchSize) as [Hb | Hb].
    + rewrite loop_batch by assumption.
      destruct (IH (i + 1) 0 (<[workerId := batchValue (i - start) total]> arr))
        as (Hc & Hl & Hp & Hk); [rewrite length_insert; exact Hw | unfold batchSize; lia | exact Hrest |].
      cbn [emit control progressArray events].
      rewrite posted_app, checked_app, Hc, Hl, length_insert, Hp, Hk.
      repeat split; try reflexivity.
      f_equal. replace (bp + (1 + Z.of_nat n)) with (0 + Z.of_nat n + 1 * batchSize) by lia.
      rewrite Z.mod_add by (unfold batchSize; lia). reflexivity.
    + rewrite loop_pass by assumption.
      destruct (IH (i + 1) (bp + 1) arr) as (Hc & Hl & Hp & Hk);
        [exact Hw | lia | exact Hrest |].
      cbn [emit control progressArray events].
      rewrite posted_app, checked_app, Hc, Hl, Hp, Hk.
      repeat split; try reflexivity.
      f_equal. f_equal. lia.
Qed.


(** Short of a full batch, nothing is written at all. *)
Lemma loop_short n : forall i bp arr,
  0 <= bp -> bp + Z.of_nat n < batchSize ->
  (forall j, i <= j < i + Z.of_nat n -> fails j = false) ->
  loop n i bp arr
  = mkRun (map (fun j => Check j true) (seqZ i (Z.of_nat n))) arr (Next (bp + Z.of_nat n)).
Proof.
  induction n as [| n IH]; intros i bp arr Hbp Hn Hall.
  - cbn [Worker.loop]. rewrite Z.add_0_r. reflexivity.
  - rewrite loop_pass; [| apply Hall; lia | lia].
    rewrite IH; [| lia | lia | intros j Hj; apply Hall; lia].
    replace (Z.of_nat (S n)) with (1 + Z.of_nat n) by lia.
    rewrite (seqZ_cons i) by lia.
    replace (Z.succ i) with (i + 1) by lia.
    replace (Z.pred (1 + Z.of_nat n)) with (Z.of_nat n) by lia.
    unfold emit. cbn [events progressArray control map app].
    do 2 f_equal. lia.
Qed.

(** The counter never exceeds the successes seen. *)
Lemma loop_counter n : forall i bp arr bp',
  0 <= bp -> control (loop n i bp arr) = Next bp' -> 0 <= bp' <= bp + Z.of_nat n.
Proof.
  induction n as [| n IH]; intros i bp arr bp' Hbp Hc.
  - cbn [Worker.loop control] in Hc. injection Hc as <-. lia.
  - turn_in Hc; cbn [emit control] in Hc; try discriminate; apply IH in Hc; lia.
Qed.

Lemma stored_batch (i v : Z) :
  stored workerId [Check i true; Store workerId v; Notify workerId] = [v].
Proof. unfold stored. simpl. rewrite Nat.eqb_refl. reflexivity. Qed.

Lemma stored_batch_other (slot : nat) (i v : Z) :
  slot <> workerId ->
  stored slot [Check i true; Store workerId v; Notify workerId] = [].
Proof.
  intros H. unfold stored. simpl.
  destruct (Nat.eqb_spec workerId slot); [congruence | reflexivity].
Qed.

Lemma stored_check (slot : nat) (i : Z) (ok : bool) : stored slot [Check i ok] = [].
Proof. reflexivity. Qed.

(** The worker writes to its own slot only, and what the slot holds in
    the end is the last value written to it. *)
Lemma loop_frame n : forall i bp arr slot,
  slot <> workerId ->
  progressArray (loop n i bp arr) !! slot = arr !! slot
  /\ stored slot (events (loop n i bp arr)) = [].
Proof.
  induction n as [| n IH]; intros i bp arr slot Hs.
  - split; reflexivity.
  - turn; cbn [emit progressArray events].
    + split; reflexivity.
    + destruct (IH (i + 1) (bp + 1) arr slot Hs) as [H1 H2].
      rewrite H1, stored_app, H2, stored_check. split; reflexivity.
    + destruct (IH (i + 1) 0 (<[workerId := batchValue (i - start) total]> arr) slot Hs)
        as [H1 H2].
      rewrite H1, stored_app, H2, stored_batch_other, list_lookup_insert_ne by congruence.
      split; reflexivity.
    + split; reflexivity.
Qed.

Lemma List_last_default (l : list Z) : forall x d d', List.last (x :: l) d = List.last (x :: l) d'.
Proof.
  induction l as [| y l IH]; intros x d d'; [reflexivity |].
  change (List.last (x :: y :: l) d) with (List.last (y :: l) d).
  change (List.last (x :: y :: l) d') with (List.last (y :: l) d').
  apply IH.
Qed.

Lemma List_last_cons (v s : Z) (l : list Z) : List.last (v :: l) s = List.last l v.
Proof.
  destruct l as [| x l]; [reflexivity |].
  change (List.last (v :: x :: l) s) with (List.last (x :: l) s). apply List_last_default.
Qed.

Lemma List_last_Forall (P : Z -> Prop) (l : list Z) : forall d,
  P d -> Forall P l -> P (List.last l d).
Proof.
  induction l as [| x l IH]; intros d Hd Hl; [exact Hd |].
  rewrite List_last_cons. inversion Hl; subst. apply IH; assumption.
Qed.


Lemma loop_slot n : forall i bp arr s,
  arr !! workerId = Some s ->
  progressArray (loop n i bp arr) !! workerId
  = Some (List.last (stored workerId (events (loop n i bp arr))) s).
Proof.
  induction n as [| n IH]; intros i bp arr s Hs.
  - exact Hs.
  - turn; cbn [emit progressArray events].
    + exact Hs.
    + rewrite (IH _ _ _ s Hs), stored_app, stored_check. reflexivity.
    + rewrite (IH _ _ _ (batchValue (i - start) total))
        by (apply list_lookup_insert_eq; exact Hslot).
      rewrite stored_app, stored_batch. cbn [app].
      rewrite List_last_cons. reflexivity.
    + exact Hs.
Qed.

(** Every batch write is at least the one before: the written values
    follow the index. *)
Lemma loop_monotone n : forall i bp arr s,
  start <= i -> i + Z.of_nat n <= end_ ->
  0 <= s <= batchValue (i - start) total ->
  nondecreasing s (stored workerId (events (loop n i bp arr)))
  /\ 0 <= List.last (stored workerId (events (loop n i bp arr))) s
       <= batchValue (i + Z.of_nat n - start) total.
Proof.
  induction n as [| n IH]; intros i bp arr s Hi Hn Hs.
  - cbn [Worker.loop events]. change (stored workerId []) with (@nil Z).
    cbn [nondecreasing List.last]. rewrite Z.add_0_r. auto.
  - assert (Hstep : batchValue (i - start) total <= batchValue (i + 1 - start) total)
      by (apply batchValue_mono; lia).
    assert (Hend : batchValue (i - start) total
                   <= batchValue (i + Z.of_nat (S n) - start) total)
      by (apply batchValue_mono; lia).
    replace (i + Z.of_nat (S n)) with (i + 1 + Z.of_nat n) in * by lia.
    turn; cbn [emit events].
    + cbn. split; [exact I | lia].
    + rewrite stored_app, stored_check. cbn [app]. apply IH; lia.
    + rewrite stored_app, stored_batch. cbn [app].
      rewrite List_last_cons. cbn [nondecreasing].
      destruct (IH (i + 1) 0 (<[workerId := batchValue (i - start) total]> arr)
                   (batchValue (i - start) total)) as [H1 H2]; [lia | lia | |].
      { pose proof (batchValue_bounds (i - start) total ltac:(lia) ltac:(lia)). lia. }
      split; [split; [lia | exact H1] | exact H2].
    + cbn. split; [exact I | lia].
Qed.

(** On a chunk of at most 2^53 indices no batch write reaches the full
    scale. *)
Lemma loop_below_full n : forall i bp arr,
  start <= i -> i + Z.of_nat n <= end_ -> total <= 2 ^ 53 ->
  Forall (fun v => 0 <= v <= 999999) (stored workerId (events (loop n i bp arr))).
Proof.
  induction n as [| n IH]; intros i bp arr Hi Hn Ht.
  - constructor.
  - turn; cbn [emit events].
    + constructor.
    + rewrite stored_app, stored_check. cbn [app]. apply IH; lia.
    + rewrite stored_app, stored_batch. cbn [app].
      constructor; [| apply IH; lia].
      pose proof (batchValue_bounds (i - start) total ltac:(lia) ltac:(lia)).
      pose proof (batchValue_below_full (i - start) total ltac:(lia) Ht). lia.
    + constructor.
Qed.

End Loop.

(** ** The worker's script *)

Section Script.
Import JS Worker Worker_spec.

Variable rt : Platform.
Variables (start end_ : Z) (decimalPlaces workerId : nat).

Local Abbreviation loop := (Worker.loop rt start end_ decimalPlaces workerId).
Local Abbreviation run arr := (verifyChunk rt start end_ decimalPlaces arr workerId).
Local Abbreviation fails i :=
  (mismatch rt (value i (multiplier decimalPlaces)) decimalPlaces).
Local Abbreviation error_at i :=
  (let v := value i (multiplier decimalPlaces) in
   Error v (serialized rt v decimalPlaces)
         (deserialized rt (serialized rt v decimalPlaces))).
Local Abbreviation total := (end_ - start).

(** The loop itself never posts [Completed], and it falls through only
    if every comparison succeeded. *)
Lemma loop_posts n : forall i bp arr,
  ~ In Completed (posted (events (loop n i bp arr))).
Proof.
  induction n as [| n IH]; intros i bp arr.
  - intros [].
  - turn; cbn [emit events]; rewrite ?posted_app; try apply IH.
    + cbn. intros [H | []]. discriminate.
    + intros [].
Qed.

Lemma loop_falls_through n : forall i bp arr bp',
  control (loop n i bp arr) = Next bp' ->
  forall j, i <= j < i + Z.of_nat n -> fails j = false.
Proof.
  induction n as [| n IH]; intros i bp arr bp' Hc j Hj; [lia |].
  turn_in Hc; cbn [emit control] in Hc; try discriminate;
    (destruct (Z.eq_dec j i) as [-> | Hne]; [exact Hfail |]);
    (eapply IH; [exact Hc | lia]).
Qed.

Lemma run_events (arr : list Z) :
  exists closing, events (run arr) = events (loop (Z.to_nat total) start 0 arr) ++ closing.
Proof.
  unfold verifyChunk.
  destruct (control (loop (Z.to_nat total) start 0 arr)) as [bp' | |].
  - destruct (0 <? bp').
    + destruct (progressArray (loop (Z.to_nat total) start 0 arr) !! workerId).
      * eexists. reflexivity.
      * exists []. cbn [events]. rewrite app_nil_r. reflexivity.
    + eexists. reflexivity.
  - exists []. rewrite app_nil_r. reflexivity.
  - exists []. rewrite app_nil_r. reflexivity.
Qed.

(** A run that posted [Completed] went through the whole loop. *)
Lemma run_completed (arr : list Z) :
  In Completed (posted (events (run arr))) ->
  exists bp', control (loop (Z.to_nat total) start 0 arr) = Next bp'.
Proof.
  unfold verifyChunk.
  destruct (control (loop (Z.to_nat total) start 0 arr)) as [bp' | |] eqn:Hc.
  - intros _. exists bp'. reflexivity.
  - intros H. exfalso. exact (loop_posts _ _ _ _ H).
  - intros H. exfalso. exact (loop_posts _ _ _ _ H).
Qed.

(** The run up to the first failing index [k]: the turns before [k],
    then the two events of the failing turn, and [return]. *)
Lemma first_failure (arr : list Z) (k : Z) :
  (workerId < length arr)%nat -> start <= k < end_ ->
  (forall j, start <= j < k -> passes rt decimalPlaces j) ->
  fails k = true ->
  run arr
  = mkRun (events (loop (Z.to_nat (k - start)) start 0 arr)
             ++ [Check k false; Post (error_at k)])
          (progressArray (loop (Z.to_nat (k - start)) start 0 arr)) Return
  /\ posted (events (loop (Z.to_nat (k - start)) start 0 arr)) = []
  /\ checked (events (loop (Z.to_nat (k - start)) start 0 arr)) = seqZ start (k - start).
Proof.
  intros Hw Hk Hpass Hfail.
  destruct (loop_passing rt start end_ decimalPlaces workerId
              (Z.to_nat (k - start)) start 0 arr Hw)
    as (Hc & Hl & Hp & Hch).
  { unfold batchSize. lia. }
  { intros j Hj. apply Hpass. lia. }
  rewrite Z2Nat.id in Hch by lia.
  split; [| split; assumption].
  unfold verifyChunk.
  replace (Z.to_nat total) with (Z.to_nat (k - start) + S (Z.to_nat (end_ - k - 1)))%nat
    by lia.
  rewrite loop_app, Hc.
  replace (start + Z.of_nat (Z.to_nat (k - start))) with k by lia.
  rewrite loop_fail by exact Hfail.
  reflexivity.
Qed.

(** The run when every comparison succeeds. *)
Lemma all_pass (arr : list Z) :
  (workerId < length arr)%nat ->
  (forall j, start <= j < end_ -> passes rt decimalPlaces j) ->
  control (loop (Z.to_nat total) start 0 arr) = Next (Z.of_nat (Z.to_nat total) mod batchSize)
  /\ posted (events (loop (Z.to_nat total) start 0 arr)) = []
  /\ checked (events (loop (Z.to_nat total) start 0 arr)) = seqZ start (Z.of_nat (Z.to_nat total)).
Proof.
  intros Hw Hpass.
  destruct (loop_passing rt start end_ decimalPlaces workerId
              (Z.to_nat total) start 0 arr Hw)
    as (Hc & Hl & Hp & Hch).
  { unfold batchSize. lia. }
  { intros j Hj. apply Hpass. lia. }
  rewrite Z.add_0_l in Hc. auto.
Qed.

Lemma nondecreasing_snoc (l : list Z) : forall s v,
  nondecreasing s l -> List.last l s <= v -> nondecreasing s (l ++ [v]).
Proof.
  induction l as [| x l IH]; intros s v Hl Hv.
  - cbn in *. auto.
  - rewrite List_last_cons in Hv. cbn [nondecreasing app] in *.
    destruct Hl as [H1 H2]. split; [exact H1 |]. apply IH; assumption.
Qed.

(** Every write of the run is at least the value it replaces, from a
    slot that starts at zero. *)
Lemma run_monotone (arr : list Z) :
  arr !! workerId = Some 0 -> nondecreasing 0 (stored workerId (events (run arr))).
Proof.
  intros Hs.
  destruct (Z_lt_le_dec start end_) as [Hlt | Hge].
  2:{ unfold verifyChunk. replace (Z.to_nat total) with 0%nat by lia.
      cbn [Worker.loop control events progressArray]. exact I. }
  pose proof (batchValue_bounds 0 total ltac:(lia) ltac:(lia)) as Hb0.
  destruct (loop_monotone rt start end_ decimalPlaces workerId
              (Z.to_nat total) start 0 arr 0) as [Hmono Hlast];
    [lia | lia | rewrite Z.sub_diag; lia |].
  pose proof (loop_slot rt start end_ decimalPlaces workerId (Z.to_nat total) start 0 arr 0 Hs)
    as Hslot.
  pose proof (batchValue_bounds (start + Z.of_nat (Z.to_nat total) - start) total
                ltac:(lia) ltac:(lia)) as Hb1.
  unfold verifyChunk.
  destruct (control (loop (Z.to_nat total) start 0 arr)) as [bp' | |] eqn:Hc;
    [| exact Hmono | exact Hmono].
  pose proof (loop_counter rt start end_ decimalPlaces workerId (Z.to_nat total) start 0
                arr bp' ltac:(lia) Hc) as Hbp.
  destruct (Z.ltb_spec 0 bp') as [Hpos | Hzero].
  - rewrite Hslot. cbn [events]. rewrite stored_app.
    match goal with
    | |- context [stored workerId [Store workerId ?v; Notify workerId; Post Completed]] =>
        replace (stored workerId [Store workerId v; Notify workerId; Post Completed])
          with [v] by (unfold stored; simpl; rewrite Nat.eqb_refl; reflexivity)
    end.
    apply nondecreasing_snoc; [exact Hmono |].
    apply flushValue_bounds; lia.
  - cbn [events]. rewrite stored_app.
    change (stored workerId [Post Completed]) with (@nil Z).
    rewrite app_nil_r. exact Hmono.
Qed.

(** Where a chunk that ran to completion leaves its slot. *)
Lemma run_final_slot (arr : list Z) :
  (workerId < length arr)%nat -> arr !! workerId = Some 0 ->
  start < end_ -> total <= 2 ^ 53 ->
  (forall j, start <= j < end_ -> passes rt decimalPlaces j) ->
  exists v, progressArray (run arr) !! workerId = Some v
            /\ 0 <= v < 1000000 /\ (total < batchSize -> v = 1).
Proof.
  intros Hw Hs Hlt Ht Hpass.
  destruct (Z_lt_le_dec total batchSize) as [Hshort | Hlong].
  - (* less than a batch: no write in the loop, then 0 + total/total *)
    unfold verifyChunk.
    rewrite loop_short; [| lia | lia | intros j Hj; apply Hpass; lia].
    cbn [control progressArray events]. rewrite Z.add_0_l.
    destruct (Z.ltb_spec 0 (Z.of_nat (Z.to_nat total))) as [_ | Hc]; [| lia].
    rewrite Hs. cbn [progressArray].
    rewrite list_lookup_insert_eq by exact Hw.
    rewrite Z2Nat.id by lia. rewrite flushValue_first by lia.
    exists 1. repeat split; auto; lia.
  - destruct (all_pass arr Hw Hpass) as (Hc & _ & _).
    pose proof (loop_slot rt start end_ decimalPlaces workerId (Z.to_nat total) start 0 arr 0 Hs)
      as Hslot.
    pose proof (loop_below_full rt start end_ decimalPlaces workerId
                  (Z.to_nat total) start 0 arr ltac:(lia) ltac:(lia) Ht) as Hall.
    set (l := stored workerId (events (loop (Z.to_nat total) start 0 arr))) in *.
    assert (Hl : 0 <= List.last l 0 <= 999999).
    { apply (List_last_Forall (fun v => 0 <= v <= 999999)); [lia | exact Hall]. }
    pose proof (Z.mod_pos_bound (Z.of_nat (Z.to_nat total)) batchSize
                  ltac:(unfold batchSize; lia)) as Hmod.
    unfold verifyChunk. rewrite Hc.
    destruct (Z.ltb_spec 0 (Z.of_nat (Z.to_nat total) mod batchSize)) as [Hpos | Hzero].
    + rewrite Hslot. cbn [progressArray].
      rewrite list_lookup_insert_eq
        by (rewrite (proj1 (proj2 (loop_passing rt start end_ decimalPlaces workerId
                       (Z.to_nat total) start 0 arr Hw ltac:(unfold batchSize; lia)
                       ltac:(intros j Hj; apply Hpass; lia)))); exact Hw).
      rewrite flushValue_same by lia.
      exists (List.last l 0). repeat split; try lia.
    + cbn [progressArray]. rewrite Hslot.
      exists (List.last l 0). repeat split; try lia.
Qed.

Lemma stored_checks (slot : nat) (l : list Z) :
  stored slot (map (fun j => Check j true) l) = [].
Proof. induction l as [| j l IH]; [reflexivity | exact IH]. Qed.

(** The run writes to no slot but its own. *)
Lemma run_frame (arr : list Z) (slot : nat) :
  slot <> workerId -> stored slot (events (run arr)) = [].
Proof.
  intros Hs.
  destruct (loop_frame rt start end_ decimalPlaces workerId (Z.to_nat total) start 0 arr
              slot Hs) as [_ Hl].
  assert (Hne : (workerId =? slot)%nat = false) by (apply Nat.eqb_neq; congruence).
  unfold verifyChunk.
  destruct (control (loop (Z.to_nat total) start 0 arr)) as [bp' | |]; [| exact Hl | exact Hl].
  destruct (0 <? bp').
  - destruct (progressArray (loop (Z.to_nat total) start 0 arr) !! workerId);
      [| exact Hl].
    cbn [events]. rewrite stored_app, Hl. unfold stored. simpl. rewrite Hne. reflexivity.
  - cbn [events]. rewrite stored_app, Hl. reflexivity.
Qed.

(** The [k]-th batch: [k * batchSize - 1] successful turns, then the
    turn that fills the batch and writes. *)
Lemma batch_turn (arr : list Z) (k : Z) :
  (workerId < length arr)%nat -> 1 <= k -> k * batchSize <= total ->
  (forall j, start <= j < start + k * batchSize -> passes rt decimalPlaces j) ->
  exists after,
    events (run arr)
    = events (loop (Z.to_nat (k * batchSize - 1)) start 0 arr)
      ++ [Check (start + k * batchSize - 1) true;
          Store workerId (batchValue (k * batchSize - 1) total);
          Notify workerId]
      ++ after.
Proof.
  intros Hw Hk Hfit Hpass.
  assert (Hbs : batchSize = 10000000) by reflexivity.
  destruct (run_events arr) as [closing ->].
  destruct (loop_passing rt start end_ decimalPlaces workerId
              (Z.to_nat (k * batchSize - 1)) start 0 arr Hw)
    as (Hc & Hl & _ & _).
  { lia. }
  { intros j Hj. apply Hpass. lia. }
  replace (Z.to_nat total)
    with (Z.to_nat (k * batchSize - 1) + S (Z.to_nat (total - k * batchSize)))%nat by lia.
  rewrite loop_app, Hc.
  rewrite Z2Nat.id by lia.
  replace ((0 + (k * batchSize - 1)) mod batchSize) with (batchSize - 1).
  2:{ apply Z.mod_unique with (k - 1); lia. }
  rewrite loop_batch; [| apply Hpass; lia | lia | rewrite Hl; exact Hw].
  replace (start + (k * batchSize - 1) - start) with (k * batchSize - 1) by lia.
  replace (start + (k * batchSize - 1)) with (start + k * batchSize - 1) by lia.
  cbn [emit events]. eexists. rewrite <- !app_assoc. reflexivity.
Qed.

End Script.

(** ** The coordinator's chunks *)

Section Partition.
Import JS Coordinator.

Variables (totalNumbers : Z) (numCPUs decimalPlaces : nat).
Hypothesis Htotal : 0 < totalNumbers < 2 ^ 53.
Hypothesis HnumCPUs : 1 <= Z.of_nat numCPUs <= 2 ^ 53.

Local Abbreviation size := (chunkSize totalNumbers numCPUs).
Local Abbreviation chunks := (workers totalNumbers numCPUs decimalPlaces).

Lemma chunkSize_exact :
  size = (totalNumbers + Z.of_nat numCPUs - 1) / Z.of_nat numCPUs.
Proof. unfold chunkSize. apply fdiv_ceiling; lia. Qed.

Lemma chunkSize_bounds :
  1 <= size /\ totalNumbers <= Z.of_nat numCPUs * size
  /\ Z.of_nat numCPUs * (size - 1) < totalNumbers.
Proof.
  rewrite chunkSize_exact.
  pose proof (Z.div_mod (totalNumbers + Z.of_nat numCPUs - 1) (Z.of_nat numCPUs)
                ltac:(lia)) as Hdm.
  pose proof (Z.mod_pos_bound (totalNumbers + Z.of_nat numCPUs - 1) (Z.of_nat numCPUs)
                ltac:(lia)) as Hmod.
  set (q := (totalNumbers + Z.of_nat numCPUs - 1) / Z.of_nat numCPUs) in *.
  clearbody q. nia.
Qed.

Lemma in_chunks (d : WorkerData) :
  In d chunks <-> exists i, (i < numCPUs)%nat /\ d = chunk totalNumbers numCPUs decimalPlaces i.
Proof.
  unfold workers. rewrite in_map_iff. split.
  - intros (i & <- & Hi). apply in_seq in Hi. exists i. split; [lia | reflexivity].
  - intros (i & Hi & ->). exists i. split; [reflexivity |]. apply in_seq. lia.
Qed.

Lemma chunks_length : length chunks = numCPUs.
Proof. unfold workers. rewrite length_map, length_seq. reflexivity. Qed.

Lemma chunk_of_index (x : Z) :
  0 <= x < totalNumbers ->
  let d := chunk totalNumbers numCPUs decimalPlaces (Z.to_nat (x / size)) in
  In d chunks /\ start d <= x < end_ d.
Proof.
  intros Hx d. destruct chunkSize_bounds as (H1 & H2 & H3).
  pose proof (Z.div_mod x size ltac:(lia)) as Hdm.
  pose proof (Z.mod_pos_bound x size ltac:(lia)) as Hmod.
  assert (Hq : 0 <= x / size < Z.of_nat numCPUs).
  { split; [apply Z.div_pos; lia |]. apply Z.div_lt_upper_bound; lia. }
  split.
  - apply in_chunks. exists (Z.to_nat (x / size)). split; [lia | reflexivity].
  - subst d. cbn [start end_ chunk]. rewrite Z2Nat.id by lia. nia.
Qed.

Lemma chunk_index (i : nat) (x : Z) :
  let d := chunk totalNumbers numCPUs decimalPlaces i in
  start d <= x < end_ d -> 0 <= x < totalNumbers /\ i = Z.to_nat (x / size).
Proof.
  intros d Hx. destruct chunkSize_bounds as (H1 & H2 & H3).
  subst d. cbn [start end_ chunk] in Hx.
  split; [nia |].
  assert (Hq : x / size = Z.of_nat i).
  { symmetry. apply Z.div_unique with (x - Z.of_nat i * size); [left | ]; nia. }
  lia.
Qed.

(** What the coordinator hands to a worker is within the model. *)
Lemma chunks_valid (d : WorkerData) :
  (decimalPlaces <= 22)%nat -> In d chunks ->
  Worker_spec.valid (start d) (end_ d) (Coordinator.decimalPlaces d) (workerId d)
    (progressArray numCPUs).
Proof.
  intros Hp Hd. apply in_chunks in Hd. destruct Hd as (i & Hi & ->).
  destruct chunkSize_bounds as (H1 & _ & _).
  constructor; cbn [start end_ Coordinator.decimalPlaces workerId chunk].
  - nia.
  - lia.
  - exact Hp.
  - unfold progressArray. rewrite length_replicate. exact Hi.
Qed.

End Partition.

(** ** The coordinator's handlers *)

Section Handlers.
Import Coordinator.

Variables (maxInteger : Z) (decimalPlaces numCPUs : nat).

Local Abbreviation handle := (Coordinator.handle maxInteger decimalPlaces numCPUs).
Local Abbreviation settle := (Coordinator.settle maxInteger decimalPlaces numCPUs).

Lemma all_exited_spec (s : gset nat) :
  all_exited numCPUs s = true <-> forall w, (w < numCPUs)%nat -> w ∈ s.
Proof.
  unfold all_exited. rewrite forallb_forall. split.
  - intros H w Hw. specialize (H w). rewrite bool_decide_eq_true in H.
    apply H, in_seq. lia.
  - intros H w Hw. apply in_seq in Hw. apply bool_decide_eq_true, H. lia.
Qed.

(** Once the process has ended nothing changes any more. *)
Lemma ended_is_final (evs : list WorkerEvent) (st : State) (code : Z) :
  process st = Exited code -> fold_left handle evs st = st.
Proof.
  revert st. induction evs as [| ev evs IH]; intros st Hp; [reflexivity |].
  cbn [fold_left].
  assert (E : handle st ev = st) by (unfold Coordinator.handle; rewrite Hp; reflexivity).
  rewrite E. apply IH. exact Hp.
Qed.

Lemma settle_success (st : State) :
  process st = Alive -> all_exited numCPUs (exited st) = true ->
  declared_success (settle st) = true /\ process (settle st) = Exited 0.
Proof.
  intros Hp Ha. unfold Coordinator.settle. rewrite Hp, Ha.
  split; [| reflexivity].
  unfold declared_success. cbn [console]. rewrite existsb_app.
  apply orb_true_iff. right. reflexivity.
Qed.

Lemma settle_waits (st : State) :
  all_exited numCPUs (exited st) = false -> settle st = st.
Proof.
  intros Ha. unfold Coordinator.settle. rewrite Ha. destruct (process st); reflexivity.
Qed.

Lemma handle_completed (st : State) (w : nat) :
  process st = Alive ->
  process (handle st (OnMessage w Worker.Completed)) = Alive
  /\ exited (handle st (OnMessage w Worker.Completed)) = exited st.
Proof. intros Hp. unfold Coordinator.handle. rewrite Hp. split; reflexivity. Qed.

Lemma handle_error (st : State) (w : nat) (err : string) :
  process st = Alive ->
  process (handle st (OnError w err)) = Alive
  /\ exited (handle st (OnError w err)) = exited st.
Proof. intros Hp. unfold Coordinator.handle. rewrite Hp. split; reflexivity. Qed.

Lemma handle_exit (st : State) (w : nat) (code : Z) :
  process st = Alive ->
  exists out,
    handle st (OnExit w code) = settle (mkState out ({[w]} ∪ exited st) (ticking st) Alive).
Proof. intros Hp. unfold Coordinator.handle. rewrite Hp. eexists. reflexivity. Qed.

(** The closing lines depend on the ['exit'] events alone: if no worker
    posts an [Error] and every worker's thread ends, with whatever exit
    code and whether or not it posted [Completed], the run is declared
    successful and the process ends with code 0. *)
Lemma success_needs_only_exits (evs : list WorkerEvent) : forall st,
  process st = Alive ->
  all_exited numCPUs (exited st) = false ->
  (forall w value serialized deserialized,
     ~ In (OnMessage w (Worker.Error value serialized deserialized)) evs) ->
  (forall w, (w < numCPUs)%nat -> w ∈ exited st \/ exists code, In (OnExit w code) evs) ->
  declared_success (fold_left handle evs st) = true
  /\ process (fold_left handle evs st) = Exited 0.
Proof.
  induction evs as [| ev evs IH]; intros st Hp Hwait Hclean Hexit.
  - exfalso. assert (Ha : all_exited numCPUs (exited st) = true).
    { apply all_exited_spec. intros w Hw.
      destruct (Hexit w Hw) as [H | [code []]]. exact H. }
    congruence.
  - cbn [fold_left].
    assert (Hclean' : forall w value serialized deserialized,
               ~ In (OnMessage w (Worker.Error value serialized deserialized)) evs).
    { intros w v s d H. apply (Hclean w v s d). right. exact H. }
    destruct ev as [w [v s d | ] | w err | w code].
    + exfalso. apply (Hclean w v s d). left. reflexivity.
    + destruct (handle_completed st w Hp) as [Hp' He'].
      apply IH; [exact Hp' | rewrite He'; exact Hwait | exact Hclean' |].
      rewrite He'. intros w' Hw'. destruct (Hexit w' Hw') as [H | [code [H | H]]];
        [left; exact H | discriminate | right; exists code; exact H].
    + destruct (handle_error st w err Hp) as [Hp' He'].
      apply IH; [exact Hp' | rewrite He'; exact Hwait | exact Hclean' |].
      rewrite He'. intros w' Hw'. destruct (Hexit w' Hw') as [H | [code [H | H]]];
        [left; exact H | discriminate | right; exists code; exact H].
    + destruct (handle_exit st w code Hp) as [out ->].
      set (st' := mkState out ({[w]} ∪ exited st) (ticking st) Alive).
      destruct (all_exited numCPUs (exited st')) eqn:Ha.
      * destruct (settle_success st' eq_refl Ha) as [Hs Hq].
        rewrite (ended_is_final evs _ 0 Hq). split; assumption.
      * rewrite (settle_waits st' Ha).
        apply IH; [reflexivity | exact Ha | exact Hclean' |].
        intros w' Hw'. destruct (Hexit w' Hw') as [H | [code' [H | H]]].
        -- left. subst st'. cbn [exited]. apply elem_of_union. right. exact H.
        -- left. injection H as -> _. subst st'. cbn [exited].
           apply elem_of_union. left. apply elem_of_singleton. reflexivity.
        -- right. exists code'. exact H.
Qed.

End Handlers.

(** ** The model against the Standard Library's IEEE-754 specification *)

Section Binary64.
Import JS.
Local Open Scope Q_scope.

(** On the operands the worker meets, [round64] computes what
    [SpecFloat]'s binary64 operations compute. *)
Example fdiv_agrees :
  Qred (B64_to_Q (SpecFloat.SFdiv 53 1024 (B64_of_Z 999998) (B64_of_Z 1000000)))
  = fdiv 999998 1000000.
Proof. vm_compute. reflexivity. Qed.

Example fadd_agrees :
  Qred (B64_to_Q (SpecFloat.SFadd 53 1024 (B64_of_Z 999999999)
                    (SpecFloat.SFdiv 53 1024 (B64_of_Z 999998) (B64_of_Z 1000000))))
  = fadd 999999999 (fdiv 999998 1000000).
Proof. vm_compute. reflexivity. Qed.

Example fmul_agrees :
  Qred (B64_to_Q (SpecFloat.SFmul 53 1024
                    (SpecFloat.SFdiv 53 1024 (B64_of_Z 9999999) (B64_of_Z 10000000))
                    (B64_of_Z 1000000)))
  = fmul (fdiv 9999999 10000000) 1000000.
Proof. vm_compute. reflexivity. Qed.

(** On a grid of small operands the two divisions agree everywhere. *)
Example fdiv_agrees_on_grid :
  forallb (fun a =>
    forallb (fun b =>
      Qeq_bool (B64_to_Q (SpecFloat.SFdiv 53 1024 (B64_of_Z a) (B64_of_Z b)))
               (fdiv (inject_Z a) (inject_Z b)))
      (seqZ 1 40)) (seqZ 1 40) = true.
Proof. vm_compute. reflexivity. Qed.

End Binary64.

(** ** The runtime on a small range *)

Section Scenario.
Import JS Worker Coordinator.
Local Open Scope string_scope.

(** [maxInteger = 10], [decimalPlaces = 1], one CPU: 99 indices, all of
    which survive the round trip. *)
Example small_range_verified :
  let r := verifyChunk node 0 (totalNumbers 10 1) 1 (progressArray 1) 0 in
  posted (events r) = [Completed]
  /\ Worker.progressArray r = [1]
  /\ declared_success (run 10 1 1 (reported 0 r)) = true.
Proof. vm_compute. auto. Qed.

(** [maxInteger = 100], [decimalPlaces = 2], four CPUs, and a mismatch
    injected at index 5000, the first of the third chunk: the worker
    stops there and the coordinator reports the value 50. *)
Example injected_mismatch :
  let rt := Stand_in.corrupting (fun x => Qeq_bool x 50) in
  let d := chunk (totalNumbers 100 2) 4 2 2 in
  let r := verifyChunk rt (start d) (end_ d) 2 (progressArray 4) 2 in
  start d = 5000
  /\ events r = [Check 5000 false; Post (Error 50 50 51)]
  /\ console (run 100 2 4 (reported 2 r))
     = [Log "Validating safe parsing of 9999 numbers in range: 0.00 to 99.99";
        LogError "Error detected at 50. Serialized: 50, Deserialized: 51"; TimeEnd]
  /\ process (run 100 2 4 (reported 2 r)) = Exited 1.
Proof. vm_compute. auto. Qed.

Example toFixed_rounds_half_up : toFixed node (fdiv 5 1000) 2 = "0.01".
Proof. vm_compute. reflexivity. Qed.

Example stringify_shortest :
  JSON_stringify node (fadd (fdiv 1 10) (fdiv 2 10)) = "0.30000000000000004".
Proof. vm_compute. reflexivity. Qed.

End Scenario.

(** ** The claims *)

Section Claims.
Import JS Worker Worker_spec Coordinator.
Local Open Scope Z_scope.

(** C1. The comparison at an index passes if and only if the serialized
    value equals its JSON round trip and prints, to [decimalPlaces]
    digits, the same text as the original value; otherwise, and only
    then, the turn of the loop reports the mismatch. *)
Theorem check_passes_iff (rt : Platform) (start end_ : Z) (decimalPlaces workerId : nat)
    (n : nat) (i batchProgress : Z) (arr : list Z) :
  let value := value i (multiplier decimalPlaces) in
  let serialized := serialized rt value decimalPlaces in
  let deserialized := deserialized rt serialized in
  (mismatch rt value decimalPlaces = false
   <-> (serialized == deserialized)%Q
       /\ toFixed rt serialized decimalPlaces = toFixed rt value decimalPlaces)
  /\ (mismatch rt value decimalPlaces = true
      <-> loop rt start end_ decimalPlaces workerId (S n) i batchProgress arr
          = mkRun [Check i false; Post (Error value serialized deserialized)] arr Return).
Proof.
  intros v s d. split.
  - unfold mismatch, strict_eq. fold s. fold d.
    rewrite orb_false_iff, !negb_false_iff, Qeq_bool_iff, String.eqb_eq. reflexivity.
  - split.
    + intros H. apply loop_fail. exact H.
    + intros H. turn_in H; [exact Hfail | exfalso.. ];
        unfold emit in H; cbn [app events] in H; injection H as H; discriminate.
Qed.


Lemma pow10_below (decimalPlaces : nat) :
  10 ^ Z.of_nat decimalPlaces <= 2 ^ 53 -> 1 <= 10 ^ Z.of_nat decimalPlaces < 2 ^ 53.
Proof.
  intros H. split; [pose proof (Z.pow_pos_nonneg 10 (Z.of_nat decimalPlaces)); lia |].
  destruct (Z_lt_le_dec (Z.of_nat decimalPlaces) 16) as [Hs | Hl].
  - apply Z.le_lt_trans with (10 ^ 15); [apply Z.pow_le_mono_r; lia | lia].
  - pose proof (Z.pow_le_mono_r 10 16 (Z.of_nat decimalPlaces) ltac:(lia) Hl). lia.
Qed.

(** The two parts of an index, when the quotient fits 32 bits. *)
Lemma index_parts (bound : Z) (decimalPlaces : nat) (index : Z) :
  1 <= bound <= 2 ^ 31 ->
  bound * 10 ^ Z.of_nat decimalPlaces <= 2 ^ 53 ->
  0 <= index < bound * 10 ^ Z.of_nat decimalPlaces ->
  multiplier decimalPlaces = inject_Z (10 ^ Z.of_nat decimalPlaces)
  /\ intPart index (multiplier decimalPlaces) = index / 10 ^ Z.of_nat decimalPlaces
  /\ fracPart index (multiplier decimalPlaces)
     = inject_Z (index mod 10 ^ Z.of_nat decimalPlaces).
Proof.
  intros Hmax Hsafe Hindex.
  assert (Hm : 1 <= 10 ^ Z.of_nat decimalPlaces < 2 ^ 53) by (apply pow10_below; nia).
  assert (Hmult : multiplier decimalPlaces = inject_Z (10 ^ Z.of_nat decimalPlaces)).
  { unfold multiplier. apply Math_pow_exact. lia. }
  remember (10 ^ Z.of_nat decimalPlaces) as m eqn:Em.
  assert (Hq : 0 <= index / m < bound).
  { split; [apply Z.div_pos; lia |]. apply Z.div_lt_upper_bound; lia. }
  split; [exact Hmult |]. split.
  - unfold intPart. rewrite Hmult.
    rewrite ToInt32_small; rewrite fdiv_trunc by lia; lia.
  - unfold fracPart. rewrite Hmult. apply frem_exact; lia.
Qed.

(** The last index handed to a worker is two short of
    [maxInteger * 10^decimalPlaces]: its fractional part is
    [10^decimalPlaces - 2], digits 9...98. *)
Lemma last_index_parts (maxInteger : Z) (decimalPlaces : nat) :
  1 <= maxInteger <= 2 ^ 31 ->
  maxInteger * 10 ^ Z.of_nat decimalPlaces <= 2 ^ 53 ->
  (1 <= decimalPlaces)%nat ->
  let last := totalNumbers maxInteger decimalPlaces - 1 in
  intPart last (multiplier decimalPlaces) = maxInteger - 1
  /\ fracPart last (multiplier decimalPlaces)
     = inject_Z (10 ^ Z.of_nat decimalPlaces - 2).
Proof.
  intros Hmax Hsafe Hdp last.
  assert (Hm : 10 <= 10 ^ Z.of_nat decimalPlaces).
  { change 10 with (10 ^ 1) at 1. apply Z.pow_le_mono_r; lia. }
  assert (Hlast : last = (maxInteger - 1) * 10 ^ Z.of_nat decimalPlaces
                         + (10 ^ Z.of_nat decimalPlaces - 2)).
  { subst last. unfold totalNumbers. lia. }
  destruct (index_parts maxInteger decimalPlaces last Hmax Hsafe) as (_ & Hi & Hf).
  { rewrite Hlast. nia. }
  rewrite Hi, Hf, Hlast.
  remember (10 ^ Z.of_nat decimalPlaces) as m eqn:Em. clear Em.
  split.
  - symmetry. apply Z.div_unique with (m - 2); lia.
  - f_equal. symmetry. apply Z.mod_unique with (maxInteger - 1); lia.
Qed.



(** C3, as stated, fails: ten indices over eight CPUs give chunks of
    two, and chunks 5 and 6, neither of them the last, are not of that
    size. *)
Lemma trailing_chunks_counterexample :
  map (fun d => (start d, end_ d)) (workers 10 8 0)
  = [(0, 2); (2, 4); (4, 6); (6, 8); (8, 10); (10, 10); (12, 10); (14, 10)]
  /\ ~ (forall i d, (i < 8 - 1)%nat -> nth_error (workers 10 8 0) i = Some d ->
                    end_ d - start d = chunkSize 10 8).
Proof.
  split; [vm_compute; reflexivity |].
  intros H. specialize (H 5%nat (chunk 10 8 0 5) ltac:(lia) eq_refl).
  vm_compute in H. discriminate.
Qed.

(** C3, amended: for [0 < totalNumbers < 2^53] and at least one CPU
    there are exactly [numCPUs] chunks, every index of
    [[0, totalNumbers)] lies in exactly one of them and no chunk holds
    anything else; a chunk is [chunkSize] long if it fits below
    [totalNumbers] and ends at [totalNumbers] otherwise, so at most one
    chunk is short and not empty, and every later one is empty. *)
Theorem partition_covers_exactly_once (totalNumbers : Z) (numCPUs decimalPlaces : nat) :
  0 < totalNumbers < 2 ^ 53 ->
  1 <= Z.of_nat numCPUs <= 2 ^ 53 ->
  let chunks := workers totalNumbers numCPUs decimalPlaces in
  let size := chunkSize totalNumbers numCPUs in
  length chunks = numCPUs
  /\ size = (totalNumbers + Z.of_nat numCPUs - 1) / Z.of_nat numCPUs
  /\ (forall x, 0 <= x < totalNumbers ->
        exists d, In d chunks /\ start d <= x < end_ d)
  /\ (forall d x, In d chunks -> start d <= x < end_ d -> 0 <= x < totalNumbers)
  /\ (forall d d' x, In d chunks -> In d' chunks ->
        start d <= x < end_ d -> start d' <= x < end_ d' -> d = d')
  /\ (forall d, In d chunks ->
        if (Z.of_nat (workerId d) + 1) * size <=? totalNumbers
        then end_ d - start d = size
        else end_ d = totalNumbers /\ end_ d - start d < size)
  /\ (forall d d', In d chunks -> In d' chunks ->
        0 < end_ d - start d < size -> (workerId d < workerId d')%nat ->
        end_ d' - start d' <= 0).
Proof.
  intros Ht Hn chunks size.
  destruct (chunkSize_bounds totalNumbers numCPUs Ht Hn) as (H1 & H2 & H3).
  fold size in H1, H2, H3.
  split; [apply chunks_length |].
  split; [apply chunkSize_exact; assumption |].
  split.
  { intros x Hx. eexists. apply (chunk_of_index totalNumbers numCPUs decimalPlaces Ht Hn x Hx). }
  split.
  { intros d x Hd Hx. apply in_chunks in Hd. destruct Hd as (i & Hi & ->).
    apply (chunk_index totalNumbers numCPUs decimalPlaces Ht Hn i x Hx). }
  split.
  { intros d d' x Hd Hd' Hx Hx'.
    apply in_chunks in Hd, Hd'. destruct Hd as (i & Hi & ->). destruct Hd' as (i' & Hi' & ->).
    destruct (chunk_index totalNumbers numCPUs decimalPlaces Ht Hn i x Hx) as [_ E].
    destruct (chunk_index totalNumbers numCPUs decimalPlaces Ht Hn i' x Hx') as [_ E'].
    congruence. }
  split.
  { intros d Hd. apply in_chunks in Hd. destruct Hd as (i & Hi & ->).
    cbn [workerId start end_ chunk]. fold size.
    destruct (Z.leb_spec ((Z.of_nat i + 1) * size) totalNumbers); lia. }
  intros d d' Hd Hd' Hshort Hlater.
  apply in_chunks in Hd, Hd'. destruct Hd as (i & Hi & ->). destruct Hd' as (i' & Hi' & ->).
  cbn [workerId start end_ chunk] in *. fold size in Hshort |- *.
  nia.
Qed.

Lemma partition_covers_exactly_once_witness :
  let chunks := workers 9999 4 2 in
  let size := chunkSize 9999 4 in
  length chunks = 4%nat
  /\ size = (9999 + Z.of_nat 4 - 1) / Z.of_nat 4
  /\ (forall x, 0 <= x < 9999 -> exists d, In d chunks /\ start d <= x < end_ d)
  /\ (forall d x, In d chunks -> start d <= x < end_ d -> 0 <= x < 9999)
  /\ (forall d d' x, In d chunks -> In d' chunks ->
        start d <= x < end_ d -> start d' <= x < end_ d' -> d = d')
  /\ (forall d, In d chunks ->
        if (Z.of_nat (workerId d) + 1) * size <=? 9999
        then end_ d - start d = size
        else end_ d = 9999 /\ end_ d - start d < size)
  /\ (forall d d', In d chunks -> In d' chunks ->
        0 < end_ d - start d < size -> (workerId d < workerId d')%nat ->
        end_ d' - start d' <= 0).
Proof. apply (partition_covers_exactly_once 9999 4 2); simpl; lia. Defined.

(** C4. Fail-fast: if [k] is the first index of the chunk whose
    comparison fails, the run posts exactly one message, the [Error] of
    index [k], as its last event, returns at once, has entered the loop
    body for the indices from [start] to [k] and for no other, and posts
    no [Completed]. *)
Theorem fail_fast (rt : Platform) (start end_ : Z) (decimalPlaces workerId : nat)
    (arr : list Z) (k : Z) :
  valid start end_ decimalPlaces workerId arr ->
  start <= k < end_ ->
  (forall j, start <= j < k -> passes rt decimalPlaces j) ->
  ~ passes rt decimalPlaces k ->
  let r := verifyChunk rt start end_ decimalPlaces arr workerId in
  posted (events r) = [Error (value k (multiplier decimalPlaces))
                         (serialized rt (value k (multiplier decimalPlaces)) decimalPlaces)
                         (deserialized rt
                            (serialized rt (value k (multiplier decimalPlaces))
                               decimalPlaces))]
  /\ (exists before, events r = before ++ [Check k false; Post (Error (value k (multiplier decimalPlaces))
                         (serialized rt (value k (multiplier decimalPlaces)) decimalPlaces)
                         (deserialized rt
                            (serialized rt (value k (multiplier decimalPlaces))
                               decimalPlaces)))])
  /\ control r = Return
  /\ checked (events r) = seqZ start (k - start + 1)
  /\ ~ In Completed (posted (events r)).
Proof.
  intros Hv Hk Hpass Hfail r.
  assert (Hf : mismatch rt (value k (multiplier decimalPlaces)) decimalPlaces = true).
  { unfold passes in Hfail. destruct (mismatch rt _ decimalPlaces); congruence. }
  destruct (first_failure rt start end_ decimalPlaces workerId arr k
              (valid_slot _ _ _ _ _ Hv) Hk Hpass Hf) as (Hr & Hp & Hc).
  subst r. rewrite Hr. cbn [events control].
  rewrite posted_app, checked_app, Hp, Hc.
  assert (Hposted : forall m, posted [Check k false; Post m] = [m]) by reflexivity.
  rewrite Hposted.
  split; [reflexivity |]. split; [eexists; reflexivity |]. split; [reflexivity |].
  split.
  - change (checked [Check k false; Post _]) with [k].
    rewrite (seqZ_app start (k - start) 1) by lia.
    replace (start + (k - start)) with k by lia. reflexivity.
  - cbn [app]. intros [H | []]. discriminate.
Qed.

Lemma fail_fast_witness :
  let rt := Stand_in.corrupting Stand_in.near_three_tenths in
  let r := verifyChunk rt 0 5 1 [0] 0 in
  posted (events r) = [Error (value 3 (multiplier 1))
                         (serialized rt (value 3 (multiplier 1)) 1)
                         (deserialized rt (serialized rt (value 3 (multiplier 1)) 1))]
  /\ (exists before, events r = before ++ [Check 3 false; Post (Error (value 3 (multiplier 1))
                         (serialized rt (value 3 (multiplier 1)) 1)
                         (deserialized rt (serialized rt (value 3 (multiplier 1)) 1)))])
  /\ control r = Return
  /\ checked (events r) = seqZ 0 (3 - 0 + 1)
  /\ ~ In Completed (posted (events r)).
Proof.
  apply (fail_fast (Stand_in.corrupting Stand_in.near_three_tenths) 0 5 1 0 [0] 3).
  - constructor; simpl; lia.
  - lia.
  - intros j Hj. assert (E : j = 0 \/ j = 1 \/ j = 2) by lia.
    destruct E as [-> | [-> | ->]]; vm_compute; reflexivity.
  - vm_compute. discriminate.
Defined.

(** C5, as stated, fails: with one fractional digit the first failure of
    this run is at index 3, and the message carries 0.3, 0.3 and 1.3:
    none of its fields is the index. *)
Lemma error_message_lacks_index :
  let rt := Stand_in.corrupting Stand_in.near_three_tenths in
  let r := verifyChunk rt 0 5 1 [0] 0 in
  checked (events r) = [0; 1; 2; 3]
  /\ exists value serialized deserialized,
       posted (events r) = [Error value serialized deserialized]
       /\ ES.Number_toString value = "0.3"%string
       /\ ES.Number_toString serialized = "0.3"%string
       /\ ES.Number_toString deserialized = "1.3"%string
       /\ ~ (value == 3)%Q /\ ~ (serialized == 3)%Q /\ ~ (deserialized == 3)%Q.
Proof.
  split; [vm_compute; reflexivity |].
  eexists _, _, _. split; [vm_compute; reflexivity |].
  repeat split; try (vm_compute; reflexivity); vm_compute; discriminate.
Qed.

Lemma settle_started (maxInteger : Z) (decimalPlaces numCPUs : nat) :
  (1 <= numCPUs)%nat ->
  settle maxInteger decimalPlaces numCPUs (started maxInteger decimalPlaces)
  = started maxInteger decimalPlaces.
Proof.
  intros H. destruct numCPUs as [| n]; [lia |]. reflexivity.
Qed.

(** C5, amended: the [Error] message of a mismatch carries the decimal
    value rebuilt from the failing index, not the index, together with
    the serialized and the deserialized value; the coordinator prints
    these three and exits with code 1. *)
Theorem error_report (rt : Platform) (maxInteger : Z) (numCPUs : nat)
    (start end_ : Z) (decimalPlaces workerId : nat) (arr : list Z) (k : Z) :
  valid start end_ decimalPlaces workerId arr ->
  (1 <= numCPUs)%nat ->
  start <= k < end_ ->
  (forall j, start <= j < k -> passes rt decimalPlaces j) ->
  ~ passes rt decimalPlaces k ->
  let r := verifyChunk rt start end_ decimalPlaces arr workerId in
  let value := value k (multiplier decimalPlaces) in
  let serialized := serialized rt value decimalPlaces in
  let deserialized := deserialized rt serialized in
  let st := run maxInteger decimalPlaces numCPUs (reported workerId r) in
  posted (events r) = [Error value serialized deserialized]
  /\ console st
     = [Log (banner maxInteger decimalPlaces);
        LogError ("Error detected at " ++ ES.Number_toString value
                  ++ ". Serialized: " ++ ES.Number_toString serialized
                  ++ ", Deserialized: " ++ ES.Number_toString deserialized)%string;
        TimeEnd]
  /\ process st = Exited 1.
Proof.
  intros Hv Hn Hk Hpass Hfail r v s d st.
  assert (Hf : mismatch rt v decimalPlaces = true).
  { unfold passes in Hfail. fold v in Hfail. destruct (mismatch rt v decimalPlaces); congruence. }
  destruct (first_failure rt start end_ decimalPlaces workerId arr k
              (valid_slot _ _ _ _ _ Hv) Hk Hpass Hf) as (Hr & Hp & _).
  assert (Hposted : posted (events r) = [Error v s d]).
  { subst r. rewrite Hr. cbn [events]. rewrite posted_app, Hp. reflexivity. }
  split; [exact Hposted |].
  subst st. unfold reported, run. rewrite Hposted.
  replace (control r) with Return by (subst r; rewrite Hr; reflexivity).
  rewrite settle_started by exact Hn.
  split; reflexivity.
Qed.

Lemma error_report_witness :
  let rt := Stand_in.corrupting Stand_in.near_three_tenths in
  let r := verifyChunk rt 0 5 1 [0] 0 in
  let value := value 3 (multiplier 1) in
  let serialized := serialized rt value 1 in
  let deserialized := deserialized rt serialized in
  let st := run 10 1 1 (reported 0 r) in
  posted (events r) = [Error value serialized deserialized]
  /\ console st
     = [Log (banner 10 1);
        LogError ("Error detected at " ++ ES.Number_toString value
                  ++ ". Serialized: " ++ ES.Number_toString serialized
                  ++ ", Deserialized: " ++ ES.Number_toString deserialized)%string;
        TimeEnd]
  /\ process st = Exited 1.
Proof.
  apply (error_report (Stand_in.corrupting Stand_in.near_three_tenths) 10 1 0 5 1 0 [0] 3).
  - constructor; simpl; lia.
  - lia.
  - lia.
  - intros j Hj. assert (E : j = 0 \/ j = 1 \/ j = 2) by lia.
    destruct E as [-> | [-> | ->]]; vm_compute; reflexivity.
  - vm_compute. discriminate.
Defined.

(** C6, at the failing input: a single worker that dies with an
    uncaught exception and exit code [code], having posted nothing,
    makes the coordinator log the two errors and then print the closing
    lines of a successful run; the process ends with code 0. *)
Theorem crashed_worker_declared_success (maxInteger : Z) (decimalPlaces : nat)
    (err : string) (code : Z) :
  code <> 0 ->
  let st := run maxInteger decimalPlaces 1 [OnError 0 err; OnExit 0 code] in
  console st
  = [Log (banner maxInteger decimalPlaces);
     LogError err;
     LogError ("Worker stopped with exit code " ++ ES.Number_toString (inject_Z code))%string;
     Stdout (String (ascii_of_nat 10) "");
     TimeEnd;
     Log ("All tests passed: "
          ++ ES.Number_toString (inject_Z (totalNumbers maxInteger decimalPlaces))
          ++ " numbers verified")%string;
     Log "100% of the range verified successfully"%string]
  /\ process st = Exited 0
  /\ declared_success st = true.
Proof.
  intros Hc st. subst st. unfold run. cbn [fold_left].
  rewrite settle_started by lia.
  unfold handle at 2. cbn [process started console exited ticking].
  unfold handle. cbn [process console exited ticking].
  destruct (Z.eqb_spec code 0) as [E | _]; [contradiction |].
  assert (Hall : all_exited 1 ({[0%nat]} ∪ ∅) = true) by (vm_compute; reflexivity).
  unfold settle. cbn [process console exited ticking]. rewrite Hall.
  cbn [console process]. split; [reflexivity |]. split; [reflexivity |].
  unfold declared_success. cbn [console]. reflexivity.
Qed.

Lemma crashed_worker_declared_success_witness :
  let st := run 100 2 1 [OnError 0 "RangeError"%string; OnExit 0 1] in
  console st
  = [Log (banner 100 2);
     LogError "RangeError"%string;
     LogError "Worker stopped with exit code 1"%string;
     Stdout (String (ascii_of_nat 10) "");
     TimeEnd;
     Log "All tests passed: 9999 numbers verified"%string;
     Log "100% of the range verified successfully"%string]
  /\ process st = Exited 0
  /\ declared_success st = true.
Proof. apply (crashed_worker_declared_success 100 2 "RangeError"%string 1). lia. Defined.

(** C7, at the failing input (the constants of the script): index 0
    gives 0, but the last index a worker is handed, [totalNumbers - 1],
    prints as 999999999.999998; the value whose six fractional digits
    are all 9, which the first logged line announces as the end of the
    range, belongs to index [totalNumbers], outside every chunk. *)
Theorem last_verified_value :
  let totalNumbers := totalNumbers 1000000000 6 in
  value 0 (multiplier 6) = 0%Q
  /\ toFixed node (value 0 (multiplier 6)) 6 = "0.000000"%string
  /\ toFixed node (value (totalNumbers - 1) (multiplier 6)) 6 = "999999999.999998"%string
  /\ toFixed node (value totalNumbers (multiplier 6)) 6 = "999999999.999999"%string
  /\ banner 1000000000 6
     = "Validating safe parsing of 999999999999999 numbers in range: 0.000000 to 999999999.999999"%string
  /\ forall numCPUs d,
       1 <= Z.of_nat numCPUs <= 2 ^ 53 ->
       In d (workers totalNumbers numCPUs 6) ->
       forall i, start d <= i < end_ d -> i <= totalNumbers - 1.
Proof.
  intros t.
  split; [vm_compute; reflexivity |]. split; [vm_compute; reflexivity |].
  split; [vm_compute; reflexivity |]. split; [vm_compute; reflexivity |].
  split; [vm_compute; reflexivity |].
  intros numCPUs d Hn Hd i Hi.
  apply in_chunks in Hd. destruct Hd as (j & _ & ->).
  cbn [start end_ chunk] in Hi. lia.
Qed.

(** C8, as stated, fails: on a chunk of exactly one batch the write
    after the 10,000,000 successes stores 999999, computed from the
    9,999,999 indices before the current one, where the count of indices
    processed so far gives 1000000. *)
Lemma batch_write_counts_before :
  stored 0 (events (verifyChunk Stand_in.quiet 0 10000000 0 [0] 0)) = [999999]
  /\ Spec.progressValue 10000000 (10000000 - 0) = 1000000
  /\ Spec.progressValue (10000000 - 1) (10000000 - 0) = 999999.
Proof.
  split; [| split; vm_compute; reflexivity].
  unfold verifyChunk.
  replace (Z.to_nat (10000000 - 0)) with (Z.to_nat 9999999 + 1)%nat by lia.
  rewrite loop_app.
  rewrite loop_short; [| lia | unfold batchSize; lia | intros; reflexivity].
  cbn [control events Worker.progressArray]. rewrite Z2Nat.id by lia.
  rewrite loop_batch; [| reflexivity | reflexivity | simpl; lia].
  cbn [Worker.loop emit control events Worker.progressArray].
  change (0 <? 0) with false. cbn [events].
  rewrite !stored_app, stored_checks.
  vm_compute. reflexivity.
Qed.

(** C8, amended: when the first [k * 10,000,000] comparisons of a chunk
    succeed, the turn of index [start + k * 10,000,000 - 1] is followed
    at once by the write, into the worker's own slot, of
    floor((k * 10,000,000 - 1) / totalInChunk * 1,000,000), the count
    being that of the indices before the current one, and then by the
    notification; nothing was posted before. *)
Theorem batch_write (rt : Platform) (start end_ : Z) (decimalPlaces workerId : nat)
    (arr : list Z) (k : Z) :
  valid start end_ decimalPlaces workerId arr ->
  1 <= k -> k * batchSize <= end_ - start ->
  (forall j, start <= j < start + k * batchSize -> passes rt decimalPlaces j) ->
  let r := verifyChunk rt start end_ decimalPlaces arr workerId in
  exists before after,
    events r
    = before
      ++ [Check (start + k * batchSize - 1) true;
          Store workerId (Spec.progressValue (k * batchSize - 1) (end_ - start));
          Notify workerId]
      ++ after
    /\ checked before = seqZ start (k * batchSize - 1)
    /\ posted before = [].
Proof.
  intros Hv Hk Hfit Hpass r.
  assert (Hbs : batchSize = 10000000) by reflexivity.
  destruct (batch_turn rt start end_ decimalPlaces workerId arr k
              (valid_slot _ _ _ _ _ Hv) Hk Hfit Hpass) as [after Hr].
  destruct (loop_passing rt start end_ decimalPlaces workerId
              (Z.to_nat (k * batchSize - 1)) start 0 arr (valid_slot _ _ _ _ _ Hv))
    as (_ & _ & Hp & Hc).
  { lia. }
  { intros j Hj. apply Hpass. lia. }
  rewrite Z2Nat.id in Hc by lia.
  exists (events (loop rt start end_ decimalPlaces workerId
                    (Z.to_nat (k * batchSize - 1)) start 0 arr)), after.
  split; [| split; assumption].
  subst r. rewrite Hr. unfold Spec.progressValue.
  rewrite <- batchValue_floor by lia. reflexivity.
Qed.

Lemma batch_write_witness :
  let r := verifyChunk Stand_in.quiet 0 10000000 0 [0] 0 in
  exists before after,
    events r
    = before
      ++ [Check (0 + 1 * batchSize - 1) true;
          Store 0 (Spec.progressValue (1 * batchSize - 1) (10000000 - 0));
          Notify 0]
      ++ after
    /\ checked before = seqZ 0 (1 * batchSize - 1)
    /\ posted before = [].
Proof.
  apply (batch_write Stand_in.quiet 0 10000000 0 0 [0] 1).
  - constructor; simpl; lia.
  - lia.
  - unfold batchSize. lia.
  - intros j _. reflexivity.
Defined.

(** C9. The slot of a worker starts at zero in the array the coordinator
    allocates, every value the worker writes to it is at least the value
    it replaces, and the worker writes to no other slot. *)
Theorem slot_writes_nondecreasing (rt : Platform) (numCPUs : nat) (start end_ : Z)
    (decimalPlaces workerId : nat) :
  valid start end_ decimalPlaces workerId (Coordinator.progressArray numCPUs) ->
  let r := verifyChunk rt start end_ decimalPlaces (Coordinator.progressArray numCPUs) workerId in
  Coordinator.progressArray numCPUs !! workerId = Some 0
  /\ nondecreasing 0 (stored workerId (events r))
  /\ forall slot, slot <> workerId -> stored slot (events r) = [].
Proof.
  intros Hv r.
  assert (Hz : Coordinator.progressArray numCPUs !! workerId = Some 0).
  { unfold Coordinator.progressArray. apply lookup_replicate_2.
    pose proof (valid_slot _ _ _ _ _ Hv) as Hw.
    unfold Coordinator.progressArray in Hw. rewrite length_replicate in Hw. exact Hw. }
  split; [exact Hz |]. split.
  - apply run_monotone. exact Hz.
  - intros slot Hs. apply run_frame. exact Hs.
Qed.

Lemma slot_writes_nondecreasing_witness :
  let r := verifyChunk node 0 3 1 (Coordinator.progressArray 1) 0 in
  Coordinator.progressArray 1 !! 0%nat = Some 0
  /\ nondecreasing 0 (stored 0 (events r))
  /\ forall slot, slot <> 0%nat -> stored slot (events r) = [].
Proof.
  apply (slot_writes_nondecreasing node 1 0 3 1 0).
  constructor; simpl; lia.
Defined.

(** C10. A non-empty chunk that ran to [Completed] leaves its slot, which
    started at zero, strictly below 1,000,000; a chunk shorter than a
    batch leaves it at 1. *)
Theorem completed_slot_below_full (rt : Platform) (start end_ : Z)
    (decimalPlaces workerId : nat) (arr : list Z) :
  valid start end_ decimalPlaces workerId arr ->
  arr !! workerId = Some 0 ->
  start < end_ ->
  let r := verifyChunk rt start end_ decimalPlaces arr workerId in
  posted (events r) = [Completed] ->
  exists v, Worker.progressArray r !! workerId = Some v
            /\ 0 <= v < 1000000
            /\ (end_ - start < batchSize -> v = 1).
Proof.
  intros Hv Hz Hlt r Hdone.
  assert (Hin : In Completed (posted (events r))) by (rewrite Hdone; left; reflexivity).
  destruct (run_completed rt start end_ decimalPlaces workerId arr Hin) as [bp' Hc].
  pose proof (loop_falls_through rt start end_ decimalPlaces workerId _ _ _ _ _ Hc) as Hpass.
  destruct Hv as [Hs He Hp Hw].
  apply run_final_slot; try assumption; try lia.
  intros j Hj. apply Hpass. lia.
Qed.

Lemma completed_slot_below_full_witness :
  let r := verifyChunk node 0 3 1 [0] 0 in
  exists v, Worker.progressArray r !! 0%nat = Some v
            /\ 0 <= v < 1000000
            /\ (3 - 0 < batchSize -> v = 1).
Proof.
  apply (completed_slot_below_full node 0 3 1 0 [0]).
  - constructor; simpl; lia.
  - reflexivity.
  - lia.
  - vm_compute. reflexivity.
Defined.

End Claims.

(** ** The outcome of a worker *)

Section Verdict.
Import JS Worker Worker_spec.

Variable rt : Platform.
Variables (start end_ : Z) (decimalPlaces workerId : nat).

Local Abbreviation loop := (Worker.loop rt start end_ decimalPlaces workerId).
Local Abbreviation run arr := (verifyChunk rt start end_ decimalPlaces arr workerId).
Local Abbreviation fails i :=
  (mismatch rt (value i (multiplier decimalPlaces)) decimalPlaces).
Local Abbreviation total := (end_ - start).

(** Either every index of a range passes or there is a first one that
    does not. *)
Lemma first_failing (n : nat) : forall s,
  (forall j, s <= j < s + Z.of_nat n -> passes rt decimalPlaces j)
  \/ exists k, s <= k < s + Z.of_nat n /\ fails k = true
               /\ forall j, s <= j < k -> passes rt decimalPlaces j.
Proof.
  induction n as [| n IH]; intros s.
  - left. intros j Hj. lia.
  - destruct (fails s) eqn:Hs.
    + right. exists s. split; [lia |]. split; [exact Hs |]. intros j Hj. lia.
    + destruct (IH (s + 1)) as [Hall | (k & Hk & Hf & Hbefore)].
      * left. intros j Hj. destruct (Z.eq_dec j s) as [-> | Hne]; [exact Hs |].
        apply Hall. lia.
      * right. exists k. split; [lia |]. split; [exact Hf |].
        intros j Hj. destruct (Z.eq_dec j s) as [-> | Hne]; [exact Hs |].
        apply Hbefore. lia.
Qed.

(** The run when every comparison succeeds: the turns of the loop, the
    closing write if a batch is under way, and the message. *)
Lemma run_passing (arr : list Z) :
  (workerId < length arr)%nat ->
  (forall j, start <= j < end_ -> passes rt decimalPlaces j) ->
  exists closing,
    events (run arr) = events (loop (Z.to_nat total) start 0 arr) ++ closing ++ [Post Completed]
    /\ posted closing = []
    /\ checked closing = []
    /\ Z.of_nat (length (stored workerId closing))
       = (if 0 <? Z.of_nat (Z.to_nat total) mod batchSize then 1 else 0)
    /\ control (run arr) = Return.
Proof.
  intros Hw Hpass.
  destruct (loop_passing rt start end_ decimalPlaces workerId (Z.to_nat total) start 0 arr Hw)
    as (Hc & Hl & _ & _).
  { unfold batchSize. lia. }
  { intros j Hj. apply Hpass. lia. }
  rewrite Z.add_0_l in Hc.
  unfold verifyChunk. rewrite Hc.
  destruct (0 <? Z.of_nat (Z.to_nat total) mod batchSize).
  - destruct (lookup_lt_is_Some_2 (progressArray (loop (Z.to_nat total) start 0 arr)) workerId)
      as [slot Hslot]; [rewrite Hl; exact Hw |].
    rewrite Hslot. cbn [events control].
    eexists [Store workerId _; Notify workerId].
    split; [reflexivity |]. split; [reflexivity |]. split; [reflexivity |].
    split; [| reflexivity].
    unfold stored. simpl. rewrite Nat.eqb_refl. reflexivity.
  - exists []. cbn [events control]. repeat split; reflexivity.
Qed.

(** A passing run checks its chunk, each index once and in order. *)
Lemma run_passing_checked (arr : list Z) :
  (workerId < length arr)%nat ->
  (forall j, start <= j < end_ -> passes rt decimalPlaces j) ->
  checked (events (run arr)) = seqZ start total.
Proof.
  intros Hw Hpass.
  destruct (run_passing arr Hw Hpass) as (closing & He & _ & Hcl & _).
  destruct (all_pass rt start end_ decimalPlaces workerId arr Hw Hpass) as (_ & _ & Hch).
  rewrite He, !checked_app, Hch, Hcl. cbn [app].
  change (checked [Post Completed]) with (@nil Z).
  rewrite app_nil_r. unfold seqZ. rewrite Nat2Z.id. reflexivity.
Qed.

(** Whatever the outcome, every write to the slot is between 0 and
    999,999. *)
Lemma run_stores_bounded (arr : list Z) :
  (workerId < length arr)%nat -> arr !! workerId = Some 0 -> total <= 2 ^ 53 ->
  Forall (fun v => 0 <= v <= 999999) (stored workerId (events (run arr))).
Proof.
  intros Hw Hs Ht.
  destruct (Z_le_gt_dec total 0) as [Hempty | Hpos].
  { unfold verifyChunk. rewrite Z2Nat.nonpos by exact Hempty. cbn. constructor. }
  destruct (first_failing (Z.to_nat total) start) as [Hall | (k & Hk & Hf & Hbefore)].
  - assert (Hpass : forall j, start <= j < end_ -> passes rt decimalPlaces j)
      by (intros j Hj; apply Hall; lia).
    destruct (all_pass rt start end_ decimalPlaces workerId arr Hw Hpass) as (Hc & _ & _).
    pose proof (loop_slot rt start end_ decimalPlaces workerId (Z.to_nat total) start 0 arr 0 Hs)
      as Hslot.
    pose proof (loop_below_full rt start end_ decimalPlaces workerId
                  (Z.to_nat total) start 0 arr ltac:(lia) ltac:(lia) Ht) as Hl.
    assert (Hshort : total < batchSize ->
                     stored workerId (events (loop (Z.to_nat total) start 0 arr)) = []).
    { intros Hlt.
      rewrite loop_short; [| lia | lia | intros j Hj; apply Hpass; lia].
      cbn [events]. apply stored_checks. }
    pose proof (Z.mod_pos_bound (Z.of_nat (Z.to_nat total)) batchSize
                  ltac:(unfold batchSize; lia)) as Hmod.
    unfold verifyChunk. rewrite Hc.
    destruct (Z.ltb_spec 0 (Z.of_nat (Z.to_nat total) mod batchSize)) as [Hbp | Hbp].
    + rewrite Hslot. cbn [events]. rewrite stored_app.
      apply Forall_app. split; [exact Hl |].
      unfold stored at 1. simpl. rewrite Nat.eqb_refl.
      constructor; [| constructor].
      destruct (Z_lt_le_dec total batchSize) as [Hlt | Hge].
      * rewrite (Hshort Hlt). cbn [List.last].
        rewrite Z2Nat.id, Z.mod_small by lia.
        rewrite flushValue_first by lia. lia.
      * rewrite flushValue_same; [| | lia | lia].
        -- apply (List_last_Forall (fun v => 0 <= v <= 999999)); [lia | exact Hl].
        -- apply (List_last_Forall (fun v => 0 <= v <= 999999)); [lia | exact Hl].
    + cbn [events]. rewrite stored_app. apply Forall_app. split; [exact Hl | constructor].
  - destruct (first_failure rt start end_ decimalPlaces workerId arr k Hw ltac:(lia)
                Hbefore Hf) as (Hr & _ & _).
    rewrite Hr. cbn [events]. rewrite stored_app. apply Forall_app. split; [| constructor].
    apply loop_below_full; lia.
Qed.

(** After [k] full batches and a rest shorter than a batch the slot
    holds the write of the [k]-th batch, and the rest is the counter. *)
Lemma loop_last_batch (k rest : Z) (arr : list Z) :
  (workerId < length arr)%nat -> 1 <= k -> 0 <= rest < batchSize ->
  (forall j, start <= j < start + (k * batchSize + rest) -> fails j = false) ->
  let r := loop (Z.to_nat (k * batchSize + rest)) start 0 arr in
  control r = Next rest
  /\ progressArray r !! workerId = Some (batchValue (k * batchSize - 1) total).
Proof.
  intros Hw Hk Hrest Hpass r. subst r.
  assert (HB : batchSize = 10000000) by reflexivity.
  replace (Z.to_nat (k * batchSize + rest))
    with (Z.to_nat (k * batchSize - 1) + (1 + Z.to_nat rest))%nat by lia.
  rewrite loop_app.
  destruct (loop_passing rt start end_ decimalPlaces workerId
              (Z.to_nat (k * batchSize - 1)) start 0 arr Hw)
    as (Hc & Hl & _ & _).
  { lia. }
  { intros j Hj. apply Hpass. lia. }
  rewrite Hc. rewrite Z2Nat.id by lia.
  replace ((0 + (k * batchSize - 1)) mod batchSize) with (batchSize - 1).
  2:{ apply (Z.mod_unique_pos _ _ (k - 1)); lia. }
  set (arr1 := progressArray (loop (Z.to_nat (k * batchSize - 1)) start 0 arr)) in *.
  cbn [Nat.add].
  rewrite loop_batch; [| apply Hpass; lia | lia | rewrite Hl; exact Hw].
  rewrite (loop_short rt start end_ decimalPlaces workerId (Z.to_nat rest));
    [| lia | lia | intros j Hj; apply Hpass; lia].
  unfold emit. cbn [control progressArray events].
  split; [f_equal; lia |].
  replace (start + (k * batchSize - 1) - start) with (k * batchSize - 1) by lia.
  apply list_lookup_insert_eq. rewrite Hl. exact Hw.
Qed.

(** What the coordinator hears of a worker whose slot is in the array:
    the one message, then the end of the thread with exit code 0. *)
Lemma run_reports (arr : list Z) (w : nat) :
  (workerId < length arr)%nat ->
  ((forall j, start <= j < end_ -> passes rt decimalPlaces j)
   /\ Coordinator.reported w (run arr)
      = [Coordinator.OnMessage w Completed; Coordinator.OnExit w 0])
  \/ (exists k, start <= k < end_ /\ fails k = true
                /\ (forall j, start <= j < k -> passes rt decimalPlaces j)
                /\ Coordinator.reported w (run arr)
                   = [Coordinator.OnMessage w
                        (let v := value k (multiplier decimalPlaces) in
                         Error v (serialized rt v decimalPlaces)
                           (deserialized rt (serialized rt v decimalPlaces)));
                      Coordinator.OnExit w 0]).
Proof.
  intros Hw. unfold Coordinator.reported.
  destruct (first_failing (Z.to_nat total) start) as [Hall | (k & Hk & Hf & Hbefore)].
  - left.
    assert (Hpass : forall j, start <= j < end_ -> passes rt decimalPlaces j)
      by (intros j Hj; apply Hall; lia).
    split; [exact Hpass |].
    destruct (run_passing arr Hw Hpass) as (closing & He & Hp & _ & _ & Hc).
    destruct (all_pass rt start end_ decimalPlaces workerId arr Hw Hpass) as (_ & Hpl & _).
    rewrite Hc, He, !posted_app, Hpl, Hp. reflexivity.
  - right. exists k. split; [lia |]. split; [exact Hf |]. split; [exact Hbefore |].
    destruct (first_failure rt start end_ decimalPlaces workerId arr k Hw ltac:(lia)
                Hbefore Hf) as (Hr & Hp & _).
    rewrite Hr. cbn [control events]. rewrite posted_app, Hp. reflexivity.
Qed.


(** One write for each full batch. *)
Lemma loop_store_count (n : nat) : forall i bp arr,
  (workerId < length arr)%nat -> 0 <= bp < batchSize ->
  (forall j, i <= j < i + Z.of_nat n -> fails j = false) ->
  Z.of_nat (length (stored workerId (events (loop n i bp arr))))
  = (bp + Z.of_nat n) / batchSize.
Proof.
  induction n as [| n IH]; intros i bp arr Hw Hbp Hpass.
  - cbn. rewrite Z.add_0_r. symmetry. apply Z.div_small. exact Hbp.
  - assert (Hi : fails i = false) by (apply Hpass; lia).
    turn; try congruence; try lia; cbn [emit events]; rewrite stored_app.
    + rewrite stored_check. cbn [app].
      rewrite IH; [| exact Hw | lia | intros j Hj; apply Hpass; lia].
      f_equal. lia.
    + rewrite stored_batch. cbn [app length].
      rewrite Nat2Z.inj_succ.
      rewrite IH; [| rewrite length_insert; exact Hw | unfold batchSize; lia
                   | intros j Hj; apply Hpass; lia].
      replace (bp + Z.of_nat (S n)) with (1 * batchSize + Z.of_nat n) by lia.
      rewrite Z.div_add_l by (unfold batchSize; lia). rewrite Z.add_0_l. lia.
Qed.

End Verdict.

(** X1: a worker whose slot is in the array ends by [return] after
    posting exactly one message, its last act; the message is
    [{ completed: true }] exactly when every index of the chunk passes. *)
Theorem worker_verdict (rt : Platform) (start end_ : Z) (decimalPlaces workerId : nat)
    (arr : list Z) :
  Worker_spec.valid start end_ decimalPlaces workerId arr ->
  let r := Worker.verifyChunk rt start end_ decimalPlaces arr workerId in
  Worker.control r = Worker.Return
  /\ (exists before m, Worker.events r = before ++ [Worker.Post m]
                       /\ Worker.posted before = [])
  /\ (Worker.posted (Worker.events r) = [Worker.Completed]
      <-> forall j, start <= j < end_ -> Worker_spec.passes rt decimalPlaces j).
Proof.
  intros [_ _ _ Hw] r. subst r.
  destruct (first_failing rt decimalPlaces (Z.to_nat (end_ - start)) start)
    as [Hall | (k & Hk & Hf & Hbefore)].
  - assert (Hpass : forall j, start <= j < end_ -> Worker_spec.passes rt decimalPlaces j)
      by (intros j Hj; apply Hall; lia).
    destruct (run_passing rt start end_ decimalPlaces workerId arr Hw Hpass)
      as (closing & He & Hp & _ & _ & Hc).
    destruct (all_pass rt start end_ decimalPlaces workerId arr Hw Hpass) as (_ & Hpl & _).
    split; [exact Hc |]. split.
    + exists (Worker.events (Worker.loop rt start end_ decimalPlaces workerId
                               (Z.to_nat (end_ - start)) start 0 arr) ++ closing),
             Worker.Completed.
      rewrite He, <- app_assoc, posted_app, Hpl, Hp. split; reflexivity.
    + split; [intros _; exact Hpass | intros _].
      rewrite He, !posted_app, Hpl, Hp. reflexivity.
  - destruct (first_failure rt start end_ decimalPlaces workerId arr k Hw ltac:(lia)
                Hbefore Hf) as (Hr & Hp & _).
    rewrite Hr. cbn [Worker.control Worker.events].
    split; [reflexivity |]. split.
    + eexists (_ ++ [Worker.Check k false]), _.
      rewrite <- app_assoc. split; [reflexivity |].
      rewrite posted_app, Hp. reflexivity.
    + rewrite posted_app, Hp. split.
      * intros H. discriminate.
      * intros Hpass. exfalso.
        specialize (Hpass k ltac:(lia)). unfold Worker_spec.passes in Hpass. congruence.
Qed.

Lemma worker_verdict_witness :
  let r := Worker.verifyChunk node 0 3 1 [0] 0 in
  Worker.control r = Worker.Return
  /\ (exists before m, Worker.events r = before ++ [Worker.Post m]
                       /\ Worker.posted before = [])
  /\ (Worker.posted (Worker.events r) = [Worker.Completed]
      <-> forall j, 0 <= j < 3 -> Worker_spec.passes node 1 j).
Proof.
  apply (worker_verdict node 0 3 1 0 [0]).
  split; [lia | lia | lia | cbn; lia].
Defined.

(** X2: a run that posts [{ completed: true }] has run the comparison
    on each index of its chunk exactly once, in increasing order, and on
    nothing else. *)
Theorem completed_checks_chunk (rt : Platform) (start end_ : Z)
    (decimalPlaces workerId : nat) (arr : list Z) :
  Worker_spec.valid start end_ decimalPlaces workerId arr ->
  let r := Worker.verifyChunk rt start end_ decimalPlaces arr workerId in
  In Worker.Completed (Worker.posted (Worker.events r)) ->
  Worker.checked (Worker.events r) = seqZ start (end_ - start)
  /\ forall j, start <= j < end_ -> In (Worker.Check j true) (Worker.events r).
Proof.
  intros [_ _ _ Hw] r Hc. subst r.
  destruct (run_completed rt start end_ decimalPlaces workerId arr Hc) as [bp' Hn].
  assert (Hpass : forall j, start <= j < end_ -> Worker_spec.passes rt decimalPlaces j).
  { intros j Hj.
    apply (loop_falls_through rt start end_ decimalPlaces workerId _ _ _ _ _ Hn). lia. }
  destruct (run_passing rt start end_ decimalPlaces workerId arr Hw Hpass)
    as (closing & He & _).
  pose proof (run_passing_checked rt start end_ decimalPlaces workerId arr Hw Hpass) as E.
  split; [exact E |].
  intros j Hj. rewrite He. apply in_or_app. left.
  clear - Hn Hj.
  assert (G : forall n i bp a bp1,
            Worker.control (Worker.loop rt start end_ decimalPlaces workerId n i bp a)
            = Worker.Next bp1 ->
            forall j, i <= j < i + Z.of_nat n ->
            In (Worker.Check j true)
               (Worker.events (Worker.loop rt start end_ decimalPlaces workerId n i bp a))).
  { induction n as [| n IH]; intros i bp a bp1 Hc j0 Hj0; [lia |].
    revert Hc. turn; cbn [Worker.emit Worker.control Worker.events]; intros Hc;
      try discriminate.
    - destruct (Z.eq_dec j0 i) as [-> | Hne]; [left; reflexivity | right].
      eapply IH; [exact Hc | lia].
    - destruct (Z.eq_dec j0 i) as [-> | Hne]; [left; reflexivity |].
      right. right. right. eapply IH; [exact Hc | lia]. }
  eapply G; [exact Hn | lia].
Qed.

Lemma completed_checks_chunk_witness :
  let r := Worker.verifyChunk node 0 3 1 [0] 0 in
  Worker.checked (Worker.events r) = seqZ 0 (3 - 0)
  /\ forall j, 0 <= j < 3 -> In (Worker.Check j true) (Worker.events r).
Proof.
  apply (completed_checks_chunk node 0 3 1 0 [0]).
  - split; [lia | lia | lia | cbn; lia].
  - vm_compute. left. reflexivity.
Defined.



(** X4: progress is written once for every batch of 10,000,000 indices
    and once more for a last, partial batch: a chunk of [n] passing
    indices makes ceil(n / 10,000,000) writes to the worker's slot. *)
Theorem writes_per_chunk (rt : Platform) (start end_ : Z)
    (decimalPlaces workerId : nat) (arr : list Z) :
  Worker_spec.valid start end_ decimalPlaces workerId arr ->
  start <= end_ ->
  (forall j, start <= j < end_ -> Worker_spec.passes rt decimalPlaces j) ->
  let r := Worker.verifyChunk rt start end_ decimalPlaces arr workerId in
  Z.of_nat (length (Worker.stored workerId (Worker.events r)))
  = (end_ - start + Worker.batchSize - 1) / Worker.batchSize.
Proof.
  intros [_ _ _ Hw] Hle Hpass r. subst r.
  destruct (run_passing rt start end_ decimalPlaces workerId arr Hw Hpass)
    as (closing & He & _ & _ & Hs & _).
  rewrite He, !stored_app, !length_app, !Nat2Z.inj_add, Hs.
  rewrite loop_store_count;
    [| exact Hw | unfold Worker.batchSize; lia | intros j Hj; apply Hpass; lia].
  rewrite Z2Nat.id by lia.
  unfold Worker.stored at 1. simpl.
  unfold Worker.batchSize.
  destruct (Z.ltb_spec 0 ((end_ - start) mod 10000000));
    Z.to_euclidean_division_equations; lia.
Qed.

Lemma writes_per_chunk_witness :
  let r := Worker.verifyChunk Stand_in.quiet 0 3 1 [0] 0 in
  Z.of_nat (length (Worker.stored 0 (Worker.events r)))
  = (3 - 0 + Worker.batchSize - 1) / Worker.batchSize.
Proof.
  apply (writes_per_chunk Stand_in.quiet 0 3 1 0 [0]).
  - split; [lia | lia | lia | cbn; lia].
  - lia.
  - intros j _. reflexivity.
Defined.

(** X5: the closing [+=] does not move the slot of a worker whose
    chunk holds a full batch: when the worker completes, its slot holds
    what the last full batch wrote, the progress up to the index before
    the end of that batch. *)
Theorem completed_slot_is_last_batch (rt : Platform) (start end_ : Z)
    (decimalPlaces workerId : nat) (arr : list Z) :
  Worker_spec.valid start end_ decimalPlaces workerId arr ->
  Worker.batchSize <= end_ - start ->
  (forall j, start <= j < end_ -> Worker_spec.passes rt decimalPlaces j) ->
  let r := Worker.verifyChunk rt start end_ decimalPlaces arr workerId in
  let batches := (end_ - start) / Worker.batchSize in
  Worker.progressArray r !! workerId
  = Some (Worker.batchValue (batches * Worker.batchSize - 1) (end_ - start)).
Proof.
  intros [Hstart Hend _ Hw] Hlong Hpass r batches. subst r.
  assert (HB : Worker.batchSize = 10000000) by reflexivity.
  set (n := end_ - start) in *.
  set (rest := n mod Worker.batchSize).
  assert (Hn : n = batches * Worker.batchSize + rest).
  { unfold batches, rest. rewrite HB. Z.to_euclidean_division_equations. lia. }
  assert (Hrest : 0 <= rest < Worker.batchSize)
    by (unfold rest; apply Z.mod_pos_bound; lia).
  assert (Hk : 1 <= batches).
  { unfold batches. rewrite HB in *. Z.to_euclidean_division_equations. lia. }
  destruct (loop_last_batch rt start end_ decimalPlaces workerId batches rest arr Hw Hk Hrest)
    as [Hc Hslot].
  { intros j Hj. apply Hpass. lia. }
  fold n in Hslot. rewrite <- Hn in Hc, Hslot.
  unfold Worker.verifyChunk. fold n. rewrite Hc.
  destruct (Z.ltb_spec 0 rest) as [Hpos | Hzero].
  - rewrite Hslot. cbn [Worker.progressArray].
    rewrite flushValue_same; [| | lia | lia].
    + apply list_lookup_insert_eq. eapply lookup_lt_Some. exact Hslot.
    + pose proof (batchValue_bounds (batches * Worker.batchSize - 1) n ltac:(lia) ltac:(lia)).
      pose proof (batchValue_below_full (batches * Worker.batchSize - 1) n ltac:(lia)
                    ltac:(lia)).
      lia.
  - cbn [Worker.progressArray]. exact Hslot.
Qed.

Lemma completed_slot_is_last_batch_witness :
  let r := Worker.verifyChunk Stand_in.quiet 0 10000001 0 [0] 0 in
  let batches := (10000001 - 0) / Worker.batchSize in
  Worker.progressArray r !! 0%nat
  = Some (Worker.batchValue (batches * Worker.batchSize - 1) (10000001 - 0)).
Proof.
  apply (completed_slot_is_last_batch Stand_in.quiet 0 10000001 0 0 [0]).
  - split; [lia | lia | lia | cbn; lia].
  - unfold Worker.batchSize. lia.
  - intros j _. reflexivity.
Defined.

(** ** The whole run: the coordinator and its workers *)

Section Schedules.
Import JS Worker Worker_spec Coordinator Threads.

Variable rt : Platform.
Variables (maxInteger : Z) (decimalPlaces numCPUs : nat).

Local Abbreviation total := (totalNumbers maxInteger decimalPlaces).
Local Abbreviation handle := (Coordinator.handle maxInteger decimalPlaces numCPUs).
Local Abbreviation spawned w :=
  (thread rt (chunk total numCPUs decimalPlaces w) (progressArray numCPUs)).
Local Abbreviation fails i :=
  (mismatch rt (value i (multiplier decimalPlaces)) decimalPlaces).
Local Abbreviation error_at i :=
  (let v := value i (multiplier decimalPlaces) in
   Error v (serialized rt v decimalPlaces)
         (deserialized rt (serialized rt v decimalPlaces))).
Local Abbreviation error_line m :=
  (match m with
   | Error value serialized deserialized =>
       LogError ("Error detected at " ++ ES.Number_toString value
                 ++ ". Serialized: " ++ ES.Number_toString serialized
                 ++ ", Deserialized: " ++ ES.Number_toString deserialized)%string
   | Completed => TimeEnd
   end).


Lemma schedule_in (evs : list WorkerEvent) (ev : WorkerEvent) :
  schedule rt maxInteger decimalPlaces numCPUs evs -> In ev evs ->
  (sender ev < numCPUs)%nat /\ In ev (reported (sender ev) (spawned (sender ev))).
Proof.
  intros Hs Hin.
  assert (H : In ev (List.filter (fun e => (sender e =? sender ev)%nat) evs))
    by (apply filter_In; split; [exact Hin | apply Nat.eqb_refl]).
  rewrite (Hs (sender ev)) in H.
  destruct (Nat.ltb_spec (sender ev) numCPUs) as [Hlt | Hge]; [| destruct H].
  split; assumption.
Qed.

Lemma schedule_has (evs : list WorkerEvent) (w : nat) (ev : WorkerEvent) :
  schedule rt maxInteger decimalPlaces numCPUs evs -> (w < numCPUs)%nat ->
  In ev (reported w (spawned w)) -> In ev evs.
Proof.
  intros Hs Hw Hin. specialize (Hs w).
  destruct (Nat.ltb_spec w numCPUs) as [_ | Hge]; [| lia].
  rewrite <- Hs in Hin. apply filter_In in Hin. tauto.
Qed.


Lemma success_app (c : list Output) (l : list Output) (x : gset nat) (t : bool) (p : Process) :
  declared_success (mkState (c ++ l) x t p)
  = declared_success (mkState c x t p) || declared_success (mkState l x t p).
Proof. unfold declared_success. cbn [console]. apply existsb_app. Qed.

(** While a worker that will post an [Error] has not exited, the
    closing lines cannot be printed; its message ends the process. *)
Lemma error_wins (w0 : nat) (m0 : Message) (c0 : Z) (evs : list WorkerEvent) :
  (w0 < numCPUs)%nat -> m0 <> Completed ->
  forall st, process st = Alive -> w0 ∉ exited st -> declared_success st = false ->
  List.filter (fun ev => (sender ev =? w0)%nat) evs = [OnMessage w0 m0; OnExit w0 c0] ->
  process (fold_left handle evs st) = Exited 1
  /\ declared_success (fold_left handle evs st) = false
  /\ exists before w v s d,
       In (OnMessage w (Error v s d)) evs
       /\ console (fold_left handle evs st) = before ++ [error_line (Error v s d); TimeEnd].
Proof.
  intros Hw0 Hm0.
  induction evs as [| ev evs IH]; intros st Hp Hex Hds Hf; [discriminate |].
  cbn [fold_left].
  assert (Herr : forall w v s d, ev = OnMessage w (Error v s d) ->
            process (fold_left handle evs (handle st ev)) = Exited 1
            /\ declared_success (fold_left handle evs (handle st ev)) = false
            /\ exists before w v s d,
                 In (OnMessage w (Error v s d)) (ev :: evs)
                 /\ console (fold_left handle evs (handle st ev))
                    = before ++ [error_line (Error v s d); TimeEnd]).
  { intros w v s d ->.
    assert (E : handle st (OnMessage w (Error v s d))
                = mkState (console st ++ [error_line (Error v s d); TimeEnd])
                          (exited st) (ticking st) (Exited 1))
      by (unfold Coordinator.handle; rewrite Hp; reflexivity).
    rewrite E. rewrite (ended_is_final maxInteger decimalPlaces numCPUs evs _ 1) by reflexivity.
    split; [reflexivity |]. split.
    - rewrite success_app. apply orb_false_iff. split; [| reflexivity].
      destruct st. exact Hds.
    - exists (console st), w, v, s, d. split; [left; reflexivity | reflexivity]. }
  assert (Hlater : forall st', process st' = Alive -> exited st' = exited st ->
            declared_success st' = false -> handle st ev = st' ->
            List.filter (fun ev => (sender ev =? w0)%nat) evs = [OnMessage w0 m0; OnExit w0 c0] ->
            process (fold_left handle evs (handle st ev)) = Exited 1
            /\ declared_success (fold_left handle evs (handle st ev)) = false
            /\ exists before w v s d,
                 In (OnMessage w (Error v s d)) (ev :: evs)
                 /\ console (fold_left handle evs (handle st ev))
                    = before ++ [error_line (Error v s d); TimeEnd]).
  { intros st' Hp' He' Hd' -> Hf'.
    destruct (IH _ Hp' ltac:(rewrite He'; exact Hex) Hd' Hf')
      as (H1 & H2 & before & w & v & s & d & Hin & Hc).
    split; [exact H1 |]. split; [exact H2 |].
    exists before, w, v, s, d. split; [right; exact Hin | exact Hc]. }
  cbn [List.filter] in Hf.
  destruct (Nat.eqb_spec (sender ev) w0) as [Hs | Hs].
  - (* the worker's own first event: its message *)
    injection Hf as -> Hf.
    destruct m0 as [v s d |]; [| congruence].
    apply (Herr w0 v s d). reflexivity.
  - destruct ev as [w [v s d |] | w err | w code]; cbn [sender] in Hs.
    + apply (Herr w v s d). reflexivity.
    + apply (Hlater (handle st (OnMessage w Completed))); try exact Hf; try reflexivity.
      * apply handle_completed. exact Hp.
      * apply handle_completed. exact Hp.
      * unfold Coordinator.handle. rewrite Hp. rewrite success_app.
        apply orb_false_iff. split; [destruct st; exact Hds | reflexivity].
    + apply (Hlater (handle st (OnError w err))); try exact Hf; try reflexivity.
      * apply handle_error. exact Hp.
      * apply handle_error. exact Hp.
      * unfold Coordinator.handle. rewrite Hp. rewrite success_app.
        apply orb_false_iff. split; [destruct st; exact Hds | reflexivity].
    + destruct (handle_exit maxInteger decimalPlaces numCPUs st w code Hp) as [out Hout].
      assert (Hwait : all_exited numCPUs ({[w]} ∪ exited st) = false).
      { destruct (all_exited numCPUs ({[w]} ∪ exited st)) eqn:E; [| reflexivity].
        exfalso. apply (proj1 (all_exited_spec numCPUs _)) with (w := w0) in E; [| exact Hw0].
        apply elem_of_union in E. destruct E as [E | E]; [| exact (Hex E)].
        apply elem_of_singleton in E. congruence. }
      assert (E : handle st (OnExit w code)
                  = mkState (if code =? 0 then console st
                             else console st ++
                                  [LogError ("Worker stopped with exit code "
                                             ++ ES.Number_toString (inject_Z code))%string])
                            ({[w]} ∪ exited st) (ticking st) Alive).
      { unfold Coordinator.handle. rewrite Hp.
        apply settle_waits. exact Hwait. }
      rewrite E.
      destruct (IH (mkState (if code =? 0 then console st
                             else console st ++
                                  [LogError ("Worker stopped with exit code "
                                             ++ ES.Number_toString (inject_Z code))%string])
                            ({[w]} ∪ exited st) (ticking st) Alive))
        as (H1 & H2 & before & w' & v & s & d & Hin & Hc).
      * reflexivity.
      * cbn [exited]. intros H. apply elem_of_union in H. destruct H as [H | H]; [| exact (Hex H)].
        apply elem_of_singleton in H. congruence.
      * destruct (code =? 0); [destruct st; exact Hds |].
        rewrite success_app. apply orb_false_iff.
        split; [destruct st; exact Hds | reflexivity].
      * exact Hf.
      * split; [exact H1 |]. split; [exact H2 |].
        exists before, w', v, s, d. split; [right; exact Hin | exact Hc].
Qed.

(** The checks of the first [n] workers, one after the other. *)
Lemma chunks_concat (size T : Z) (n : nat) :
  1 <= size -> 0 <= T ->
  concat (map (fun i : nat =>
                 seqZ (Z.of_nat i * size)
                      (Z.min ((Z.of_nat i + 1) * size) T - Z.of_nat i * size))
              (seq 0 n))
  = seqZ 0 (Z.min (Z.of_nat n * size) T).
Proof.
  intros Hsize HT. induction n as [| n IH].
  - cbn. rewrite Z.min_l by lia. reflexivity.
  - rewrite seq_S, map_app, concat_app, IH. cbn [map concat Nat.add].
    rewrite app_nil_r.
    destruct (Z_le_gt_dec (Z.of_nat n * size) T) as [Hle | Hgt].
    + rewrite (Z.min_l (Z.of_nat n * size)) by lia.
      rewrite <- (Z.add_0_l (Z.of_nat n * size)) at 2.
      rewrite <- seqZ_app by lia.
      f_equal. lia.
    + rewrite (Z.min_r (Z.of_nat n * size)) by lia.
      rewrite (Z.min_r (Z.of_nat (S n) * size)) by lia.
      unfold seqZ at 2. rewrite Z2Nat.nonpos by lia. cbn. apply app_nil_r.
Qed.

End Schedules.

Section Whole_run.
Import JS Worker Worker_spec Coordinator Threads.

Variable rt : Platform.
Variables (maxInteger : Z) (decimalPlaces numCPUs : nat).
Hypothesis Htotal : 0 < totalNumbers maxInteger decimalPlaces < 2 ^ 53.
Hypothesis HnumCPUs : 1 <= Z.of_nat numCPUs <= 2 ^ 53.

Local Abbreviation total := (totalNumbers maxInteger decimalPlaces).
Local Abbreviation spawned w :=
  (thread rt (chunk total numCPUs decimalPlaces w) (progressArray numCPUs)).
Local Abbreviation fails i :=
  (mismatch rt (value i (multiplier decimalPlaces)) decimalPlaces).
Local Abbreviation error_at i :=
  (let v := value i (multiplier decimalPlaces) in
   Error v (serialized rt v decimalPlaces)
         (deserialized rt (serialized rt v decimalPlaces))).

(** What worker [w] reports: [Completed] if its chunk passes, and else
    the first failure of its chunk. *)
Lemma thread_reports (w : nat) :
  (w < numCPUs)%nat ->
  ((forall j, start (chunk total numCPUs decimalPlaces w) <= j
              < end_ (chunk total numCPUs decimalPlaces w) -> passes rt decimalPlaces j)
   /\ reported w (spawned w) = [OnMessage w Completed; OnExit w 0])
  \/ (exists k, 0 <= k < total /\ fails k = true
                /\ reported w (spawned w) = [OnMessage w (error_at k); OnExit w 0]).
Proof using Htotal HnumCPUs.
  intros Hw. unfold thread. cbn [start end_ Coordinator.decimalPlaces workerId chunk].
  destruct (run_reports rt (Z.of_nat w * chunkSize total numCPUs)
              (Z.min ((Z.of_nat w + 1) * chunkSize total numCPUs) total)
              decimalPlaces w (progressArray numCPUs) w)
    as [[Hpass Hr] | (k & Hk & Hf & _ & Hr)].
  - unfold progressArray. rewrite length_replicate. exact Hw.
  - left. split; assumption.
  - right. exists k. split; [| split; assumption].
    apply (chunk_index total numCPUs decimalPlaces Htotal HnumCPUs w k). exact Hk.
Qed.

Lemma nobody_exited : all_exited numCPUs ∅ = false.
Proof.
  destruct (all_exited numCPUs ∅) eqn:E; [| reflexivity].
  exfalso. apply (proj1 (all_exited_spec numCPUs ∅)) with (w := 0%nat) in E; [| lia].
  apply elem_of_empty in E. exact E.
Qed.

(** When every index passes, each worker reports [Completed] and a
    normal exit. *)
Lemma passing_reports (w : nat) :
  (forall j, 0 <= j < total -> passes rt decimalPlaces j) ->
  (w < numCPUs)%nat ->
  reported w (spawned w) = [OnMessage w Completed; OnExit w 0].
Proof using Htotal HnumCPUs.
  intros Hpass Hw.
  destruct (thread_reports w Hw) as [[_ Hr] | (k & Hk & Hf & _)]; [exact Hr |].
  specialize (Hpass k Hk). unfold passes in Hpass. congruence.
Qed.

(** Reports of that kind, in any order, end the run in success. *)
Lemma clean_schedule (evs : list WorkerEvent) :
  (forall w, (w < numCPUs)%nat ->
             reported w (spawned w) = [OnMessage w Completed; OnExit w 0]) ->
  schedule rt maxInteger decimalPlaces numCPUs evs ->
  process (run maxInteger decimalPlaces numCPUs evs) = Exited 0
  /\ declared_success (run maxInteger decimalPlaces numCPUs evs) = true.
Proof using Htotal HnumCPUs.
  intros Hrep Hs. unfold run. rewrite settle_started by lia.
  destruct (success_needs_only_exits maxInteger decimalPlaces numCPUs evs
              (started maxInteger decimalPlaces)) as [Hd Hp].
  - reflexivity.
  - apply nobody_exited.
  - intros w v s d Hin.
    destruct (schedule_in rt maxInteger decimalPlaces numCPUs evs _ Hs Hin) as [Hw Hin'].
    rewrite (Hrep _ Hw) in Hin'. destruct Hin' as [H | [H | []]]; discriminate.
  - intros w Hw. right. exists 0%Z.
    apply (schedule_has rt maxInteger decimalPlaces numCPUs evs w _ Hs Hw).
    rewrite (Hrep w Hw). right. left. reflexivity.
  - split; assumption.
Qed.

End Whole_run.

(** X6: if every index of the range passes, then in whatever order the
    workers' messages and exits reach the coordinator, it prints the
    closing lines and the process ends with code 0. *)
Theorem passing_range_succeeds (rt : Platform) (maxInteger : Z) (decimalPlaces numCPUs : nat)
    (evs : list Coordinator.WorkerEvent) :
  0 < Coordinator.totalNumbers maxInteger decimalPlaces < 2 ^ 53 ->
  1 <= Z.of_nat numCPUs <= 2 ^ 53 ->
  (decimalPlaces <= 22)%nat ->
  (forall j, 0 <= j < Coordinator.totalNumbers maxInteger decimalPlaces ->
             Worker_spec.passes rt decimalPlaces j) ->
  Threads.schedule rt maxInteger decimalPlaces numCPUs evs ->
  let st := Coordinator.run maxInteger decimalPlaces numCPUs evs in
  Coordinator.process st = Coordinator.Exited 0
  /\ Coordinator.declared_success st = true.
Proof.
  intros Htotal Hcpus _ Hpass Hs st. subst st.
  apply (clean_schedule rt maxInteger decimalPlaces numCPUs Htotal Hcpus evs); [| exact Hs].
  intros w Hw.
  apply (passing_reports rt maxInteger decimalPlaces numCPUs Htotal Hcpus w Hpass Hw).
Qed.

Lemma passing_range_succeeds_witness :
  let st := Coordinator.run 1 1 2
              [Coordinator.OnMessage 1 Worker.Completed;
               Coordinator.OnMessage 0 Worker.Completed;
               Coordinator.OnExit 0 0; Coordinator.OnExit 1 0] in
  Coordinator.process st = Coordinator.Exited 0
  /\ Coordinator.declared_success st = true.
Proof.
  apply (passing_range_succeeds node 1 1 2).
  - vm_compute. split; reflexivity.
  - lia.
  - lia.
  - intros j Hj.
    assert (H : forallb (fun j => negb (Worker.mismatch node
                                          (Worker.value j (Worker.multiplier 1)) 1))
                        (seqZ 0 9) = true) by (vm_compute; reflexivity).
    rewrite forallb_forall in H. specialize (H j).
    unfold Worker_spec.passes. apply negb_true_iff, H.
    apply list_elem_of_In, elem_of_seqZ.
    change (Coordinator.totalNumbers 1 1) with 9 in Hj. lia.
  - intros [| [| w]]; vm_compute; reflexivity.
Defined.

(** X7: if some index of the range does not pass, then in whatever
    order the workers' messages and exits reach the coordinator, the
    closing lines are never printed: the process ends with code 1, the
    last thing printed being the report of a failing index. *)
Theorem failing_index_fails_run (rt : Platform) (maxInteger : Z)
    (decimalPlaces numCPUs : nat) (evs : list Coordinator.WorkerEvent) (j : Z) :
  0 < Coordinator.totalNumbers maxInteger decimalPlaces < 2 ^ 53 ->
  1 <= Z.of_nat numCPUs <= 2 ^ 53 ->
  (decimalPlaces <= 22)%nat ->
  0 <= j < Coordinator.totalNumbers maxInteger decimalPlaces ->
  ~ Worker_spec.passes rt decimalPlaces j ->
  Threads.schedule rt maxInteger decimalPlaces numCPUs evs ->
  let st := Coordinator.run maxInteger decimalPlaces numCPUs evs in
  Coordinator.process st = Coordinator.Exited 1
  /\ Coordinator.declared_success st = false
  /\ exists before k,
       0 <= k < Coordinator.totalNumbers maxInteger decimalPlaces
       /\ ~ Worker_spec.passes rt decimalPlaces k
       /\ let value := Worker.value k (Worker.multiplier decimalPlaces) in
          let serialized := Worker.serialized rt value decimalPlaces in
          let deserialized := Worker.deserialized rt serialized in
          Coordinator.console st
          = before
            ++ [Coordinator.LogError
                  ("Error detected at " ++ ES.Number_toString value
                   ++ ". Serialized: " ++ ES.Number_toString serialized
                   ++ ", Deserialized: " ++ ES.Number_toString deserialized)%string;
                Coordinator.TimeEnd].
Proof.
  intros Htotal Hcpus _ Hj Hfail Hs st. subst st. unfold Coordinator.run.
  rewrite settle_started by lia.
  set (total := Coordinator.totalNumbers maxInteger decimalPlaces) in *.
  (* the worker whose chunk holds [j] *)
  destruct (chunk_of_index total numCPUs decimalPlaces Htotal Hcpus j Hj) as [Hin Hrange].
  apply in_chunks in Hin.
  destruct Hin as (w0 & Hw0 & Hd).
  rewrite Hd in Hrange.
  destruct (thread_reports rt maxInteger decimalPlaces numCPUs Htotal Hcpus w0 Hw0)
    as [[Hpass _] | (k0 & Hk0 & Hf0 & Hr0)].
  { exfalso. apply Hfail, Hpass. exact Hrange. }
  destruct (error_wins maxInteger decimalPlaces numCPUs w0
              (Worker.Error
                 (Worker.value k0 (Worker.multiplier decimalPlaces))
                 (Worker.serialized rt (Worker.value k0 (Worker.multiplier decimalPlaces))
                    decimalPlaces)
                 (Worker.deserialized rt
                    (Worker.serialized rt
                       (Worker.value k0 (Worker.multiplier decimalPlaces)) decimalPlaces)))
              0 evs Hw0
              ltac:(discriminate) (Coordinator.started maxInteger decimalPlaces))
    as (Hp & Hd' & before & w & v & s & d & Hin & Hc).
  - reflexivity.
  - apply not_elem_of_empty.
  - reflexivity.
  - rewrite (Hs w0). destruct (Nat.ltb_spec w0 numCPUs) as [_ | H]; [| lia].
    exact Hr0.
  - split; [exact Hp |]. split; [exact Hd' |].
    destruct (schedule_in rt maxInteger decimalPlaces numCPUs evs _ Hs Hin) as [Hw Hin'].
    cbn [Threads.sender] in Hw, Hin'.
    destruct (thread_reports rt maxInteger decimalPlaces numCPUs Htotal Hcpus w Hw)
      as [[_ Hr] | (k & Hk & Hf & Hr)]; rewrite Hr in Hin'.
    + destruct Hin' as [H | [H | []]]; discriminate.
    + destruct Hin' as [H | [H | []]]; [| discriminate].
      injection H as <- <- <-.
      exists before, k. split; [exact Hk |]. split.
      * unfold Worker_spec.passes. rewrite Hf. discriminate.
      * exact Hc.
Qed.

Lemma failing_index_fails_run_witness :
  let rt := Stand_in.corrupting Stand_in.near_three_tenths in
  let evs :=
    Coordinator.reported 1
      (Threads.thread rt (Coordinator.chunk 9 2 1 1) (Coordinator.progressArray 2))
    ++ Coordinator.reported 0
         (Threads.thread rt (Coordinator.chunk 9 2 1 0) (Coordinator.progressArray 2)) in
  let st := Coordinator.run 1 1 2 evs in
  Coordinator.process st = Coordinator.Exited 1
  /\ Coordinator.declared_success st = false
  /\ exists before k,
       0 <= k < Coordinator.totalNumbers 1 1
       /\ ~ Worker_spec.passes rt 1 k
       /\ let value := Worker.value k (Worker.multiplier 1) in
          let serialized := Worker.serialized rt value 1 in
          let deserialized := Worker.deserialized rt serialized in
          Coordinator.console st
          = before
            ++ [Coordinator.LogError
                  ("Error detected at " ++ ES.Number_toString value
                   ++ ". Serialized: " ++ ES.Number_toString serialized
                   ++ ", Deserialized: " ++ ES.Number_toString deserialized)%string;
                Coordinator.TimeEnd].
Proof.
  apply (failing_index_fails_run (Stand_in.corrupting Stand_in.near_three_tenths)
           1 1 2 _ 3).
  - vm_compute. split; reflexivity.
  - lia.
  - lia.
  - vm_compute. split; [discriminate | reflexivity].
  - vm_compute. discriminate.
  - intros [| [| w]]; vm_compute; reflexivity.
Defined.

(** X8: when the runtime reports no CPU there is no worker to wait
    for, and the coordinator prints the closing lines at once: the run is
    declared successful although no index was checked. *)
Theorem no_cpu_no_check (maxInteger : Z) (decimalPlaces : nat)
    (evs : list Coordinator.WorkerEvent) :
  let st := Coordinator.run maxInteger decimalPlaces 0 evs in
  Coordinator.workers (Coordinator.totalNumbers maxInteger decimalPlaces) 0 decimalPlaces = []
  /\ Coordinator.console st
     = [Coordinator.Log (Coordinator.banner maxInteger decimalPlaces);
        Coordinator.Stdout (String (ascii_of_nat 10) "");
        Coordinator.TimeEnd;
        Coordinator.Log ("All tests passed: "
             ++ ES.Number_toString
                  (inject_Z (Coordinator.totalNumbers maxInteger decimalPlaces))
             ++ " numbers verified")%string;
        Coordinator.Log "100% of the range verified successfully"%string]
  /\ Coordinator.process st = Coordinator.Exited 0
  /\ Coordinator.declared_success st = true.
Proof.
  intros st. subst st. unfold Coordinator.run.
  rewrite (ended_is_final maxInteger decimalPlaces 0 evs _ 0) by reflexivity.
  repeat split.
Qed.

(** X9: when every index passes, the workers together run the
    comparison on each index from 0 to [totalNumbers - 1] exactly once:
    their checks, taken worker after worker, are 0, 1, ..., totalNumbers - 1. *)
Theorem workers_check_whole_range (rt : Platform) (maxInteger : Z)
    (decimalPlaces numCPUs : nat) :
  0 < Coordinator.totalNumbers maxInteger decimalPlaces < 2 ^ 53 ->
  1 <= Z.of_nat numCPUs <= 2 ^ 53 ->
  (decimalPlaces <= 22)%nat ->
  (forall j, 0 <= j < Coordinator.totalNumbers maxInteger decimalPlaces ->
             Worker_spec.passes rt decimalPlaces j) ->
  concat (map (fun d => Worker.checked
                          (Worker.events
                             (Threads.thread rt d (Coordinator.progressArray numCPUs))))
              (Coordinator.workers (Coordinator.totalNumbers maxInteger decimalPlaces)
                 numCPUs decimalPlaces))
  = seqZ 0 (Coordinator.totalNumbers maxInteger decimalPlaces).
Proof.
  intros Htotal Hcpus _ Hpass.
  set (total := Coordinator.totalNumbers maxInteger decimalPlaces) in *.
  destruct (chunkSize_bounds total numCPUs Htotal Hcpus) as (Hsize & Hcover & _).
  unfold Coordinator.workers. rewrite map_map.
  rewrite (map_ext_in _
             (fun i : nat =>
                seqZ (Z.of_nat i * Coordinator.chunkSize total numCPUs)
                     (Z.min ((Z.of_nat i + 1) * Coordinator.chunkSize total numCPUs) total
                      - Z.of_nat i * Coordinator.chunkSize total numCPUs))).
  - rewrite chunks_concat by lia. f_equal. lia.
  - intros i Hi. apply in_seq in Hi.
    unfold Threads.thread.
    cbn [Coordinator.start Coordinator.end_ Coordinator.decimalPlaces Coordinator.workerId
         Coordinator.chunk].
    apply run_passing_checked.
    + unfold Coordinator.progressArray. rewrite length_replicate. lia.
    + intros j Hj. apply Hpass.
      apply (chunk_index total numCPUs decimalPlaces Htotal Hcpus i j). exact Hj.
Qed.

Lemma workers_check_whole_range_witness :
  concat (map (fun d => Worker.checked
                          (Worker.events
                             (Threads.thread Stand_in.quiet d (Coordinator.progressArray 4))))
              (Coordinator.workers (Coordinator.totalNumbers 1 1) 4 1))
  = seqZ 0 (Coordinator.totalNumbers 1 1).
Proof.
  apply (workers_check_whole_range Stand_in.quiet 1 1 4).
  - vm_compute. split; reflexivity.
  - lia.
  - lia.
  - intros j _. reflexivity.
Defined.

(** ** The decimal of an index *)

Section Decimal.
Local Open Scope Q_scope.
Import JS Worker.

(** The unit in the last place of a number below 1 is at most 2^-53,
    and that of a number up to [b] at most [b * 2^-52]. *)
Lemma ulp_below_one (x : Q) : 0 < x -> x < 1 -> 2 ^ exponent x <= 2 ^ (-53).
Proof.
  intros Hx H1. rewrite (exponent_pos x Hx). apply pow2_le.
  destruct (ilog2_spec x Hx) as [Hlo _].
  assert (Hl : (ilog2 x < 0)%Z).
  { apply pow2_lt_inv. change (2 ^ 0) with 1. lra. }
  lia.
Qed.

Lemma ulp_relative (x b : Q) : 0 < x -> x <= b -> 1 <= b -> 2 ^ exponent x <= b * 2 ^ (-52).
Proof.
  intros Hx Hb H1. rewrite (exponent_pos x Hx).
  destruct (ilog2_spec x Hx) as [Hlo _].
  pose proof (pow2_pos (-52)) as Hp.
  destruct (Z.max_spec (ilog2 x - 52) (-1074)) as [[_ ->] | [_ ->]].
  - apply Qle_trans with (2 ^ (-52)); [apply pow2_le; lia |]. nra.
  - replace (ilog2 x - 52)%Z with (ilog2 x + -52)%Z by lia.
    rewrite pow2_add. nra.
Qed.

Lemma toFixed_decimal (x : Q) (f : nat) :
  0 <= x -> x * 10 ^ Z.of_nat f + (1 # 2) < 10 ^ 21 ->
  ES.toFixed x f
  = ES.toFixed (inject_Z (Qfloor (x * 10 ^ Z.of_nat f + (1 # 2))) / 10 ^ Z.of_nat f) f.
Proof.
  intros Hx Hb.
  assert (Hp1 : 1 <= 10 ^ Z.of_nat f).
  { change 1 with (10 ^ 0). apply Qpower_le_compat_l; [lia | discriminate]. }
  set (n := Qfloor (x * 10 ^ Z.of_nat f + (1 # 2))).
  destruct (Qfloor_bounds (x * 10 ^ Z.of_nat f + (1 # 2))) as [Hn1 Hn2]. fold n in Hn1, Hn2.
  assert (Hn0 : 0 <= inject_Z n).
  { apply inject_Z_nonneg. unfold n. change 0%Z with (Qfloor 0).
    apply Qfloor_resp_le. nra. }
  set (y := inject_Z n / 10 ^ Z.of_nat f).
  assert (Hy : y * 10 ^ Z.of_nat f == inject_Z n).
  { unfold y. field. lra. }
  assert (Hy0 : 0 <= y) by (unfold y; apply Qle_shift_div_l; lra).
  assert (Hyn : Qfloor (Qabs y * 10 ^ Z.of_nat f + (1 # 2)) = n).
  { rewrite (Qabs_pos y Hy0). apply Qfloor_unique; rewrite Hy; lra. }
  assert (Hxn : Qfloor (Qabs x * 10 ^ Z.of_nat f + (1 # 2)) = n).
  { rewrite (Qabs_pos x Hx). reflexivity. }
  assert (Hx21 : Qle_bool (10 ^ 21) (Qabs x) = false).
  { destruct (Qle_bool (10 ^ 21) (Qabs x)) eqn:E; [| reflexivity]. apply Qle_bool_iff in E.
    rewrite (Qabs_pos x Hx) in E. exfalso. nra. }
  assert (Hy21 : Qle_bool (10 ^ 21) (Qabs y) = false).
  { destruct (Qle_bool (10 ^ 21) (Qabs y)) eqn:E; [| reflexivity]. apply Qle_bool_iff in E.
    rewrite (Qabs_pos y Hy0) in E. exfalso. nra. }
  assert (Hxs : Qle_bool 0 x = true) by (apply Qle_bool_iff; exact Hx).
  assert (Hys : Qle_bool 0 y = true) by (apply Qle_bool_iff; exact Hy0).
  unfold ES.toFixed. rewrite Hx21, Hy21, Hxs, Hys, Hxn, Hyn. reflexivity.
Qed.

End Decimal.

Section Index_value.
Local Open Scope Q_scope.
Import JS Worker.

Variables (maxInteger : Z) (decimalPlaces : nat) (index : Z).
Hypothesis Hmax : (1 <= maxInteger <= 2 ^ 31)%Z.
Hypothesis Hsafe : (maxInteger * 10 ^ Z.of_nat decimalPlaces <= 2 ^ 51)%Z.
Hypothesis Hindex : (0 <= index < maxInteger * 10 ^ Z.of_nat decimalPlaces)%Z.

Local Abbreviation m := (10 ^ Z.of_nat decimalPlaces)%Z.
Local Abbreviation v := (value index (multiplier decimalPlaces)).

(** The quotient of the fractional part is within 2^-54 of the true one. *)
Lemma fraction_error (r : Z) :
  (0 <= r < m)%Z ->
  - (1 # 18014398509481984) <= fdiv (inject_Z r) (inject_Z m) - inject_Z r / inject_Z m
  /\ fdiv (inject_Z r) (inject_Z m) - inject_Z r / inject_Z m <= 1 # 18014398509481984.
Proof using Type.
  clear Hmax Hsafe Hindex. intros Hr.
  assert (Hm : 0 < inject_Z m) by (apply inject_Z_pos; lia).
  destruct (Z.eq_dec r 0%Z) as [-> | Hne].
  - unfold fdiv. rewrite round64_zero by (field; lra).
    assert (E : inject_Z 0 / inject_Z m == 0) by (field; lra).
    rewrite E. split; lra.
  - assert (Hr1 : 1 <= inject_Z r) by (change 1 with (inject_Z 1); rewrite <- Zle_Qle; lia).
    assert (Hrm : inject_Z r < inject_Z m) by (rewrite <- Zlt_Qlt; lia).
    assert (Hx0 : 0 < inject_Z r / inject_Z m) by (apply Qlt_shift_div_l; lra).
    assert (Hx1 : inject_Z r / inject_Z m < 1) by (apply Qlt_shift_div_r; lra).
    pose proof (round64_nearest _ Hx0) as Hn.
    pose proof (ulp_below_one _ Hx0 Hx1) as Hu.
    change (2 ^ (-53)) with (1 # 9007199254740992) in Hu.
    apply Qabs_Qle_condition in Hn. unfold fdiv.
    remember (2 ^ exponent (inject_Z r / inject_Z m)) as u eqn:Eu. clear Eu.
    split; lra.
Qed.

(** Scaled back by 10^decimalPlaces, the rebuilt value is within 3/8 of
    its index. *)
Lemma value_error :
  - (3 # 8) <= v * inject_Z m - inject_Z index /\ v * inject_Z m - inject_Z index <= 3 # 8.
Proof using Hmax Hsafe Hindex.
  destruct (index_parts maxInteger decimalPlaces index Hmax ltac:(lia) Hindex)
    as (Hm & Hq & Hr).
  unfold value. rewrite Hq, Hr, Hm.
  assert (Hmpos : (0 < m)%Z) by (apply Z.pow_pos_nonneg; lia).
  pose proof (Z.mod_pos_bound index m Hmpos) as Hrb.
  pose proof (Z.div_mod index m ltac:(lia)) as Hdm.
  assert (Hq0 : (0 <= index / m)%Z) by (apply Z.div_pos; lia).
  assert (Hq1 : (index / m < maxInteger)%Z) by (apply Z.div_lt_upper_bound; lia).
  assert (Hm51 : (m <= 2 ^ 51)%Z) by nia.
  remember (index / m)%Z as q eqn:Eq. remember (index mod m)%Z as r eqn:Er.
  clear Eq Er Hq Hr Hm.
  destruct (fraction_error r Hrb) as [He1 He2].
  destruct (fdiv_unit r m ltac:(lia) Hmpos) as [Hf0 Hf1].
  remember (fdiv (inject_Z r) (inject_Z m)) as f eqn:Ef. clear Ef.
  assert (HM : 0 < inject_Z m) by (apply inject_Z_pos; lia).
  assert (HM51 : inject_Z m <= 2251799813685248).
  { change 2251799813685248 with (inject_Z (2 ^ 51)). rewrite <- Zle_Qle. exact Hm51. }
  assert (HMM : inject_Z maxInteger * inject_Z m <= 2251799813685248).
  { change 2251799813685248 with (inject_Z (2 ^ 51)).
    rewrite <- inject_Z_mult, <- Zle_Qle. exact Hsafe. }
  assert (Hmax1 : 1 <= inject_Z maxInteger)
    by (change 1 with (inject_Z 1); rewrite <- Zle_Qle; lia).
  assert (Hqq : 0 <= inject_Z q) by (apply inject_Z_nonneg; exact Hq0).
  assert (Hqm : inject_Z q + 1 <= inject_Z maxInteger).
  { rewrite <- inject_Z_succ, <- Zle_Qle. lia. }
  assert (Hidx : inject_Z index == inject_Z m * inject_Z q + inject_Z r).
  { rewrite Hdm, inject_Z_plus, inject_Z_mult. reflexivity. }
  assert (Hrm : inject_Z r == inject_Z r / inject_Z m * inject_Z m) by (field; lra).
  remember (inject_Z r / inject_Z m) as x eqn:Ex. clear Ex.
  unfold fadd.
  (* the error of the addition *)
  assert (He : - (inject_Z maxInteger * (1 # 9007199254740992))
               <= round64 (inject_Z q + f) - (inject_Z q + f)
               /\ round64 (inject_Z q + f) - (inject_Z q + f)
                  <= inject_Z maxInteger * (1 # 9007199254740992)).
  { destruct (Qlt_le_dec 0 (inject_Z q + f)) as [Hs | Hs].
    - pose proof (round64_nearest _ Hs) as Hn.
      pose proof (ulp_relative _ (inject_Z maxInteger) Hs ltac:(lra) Hmax1) as Hu.
      change (2 ^ (-52)) with (1 # 4503599627370496) in Hu.
      apply Qabs_Qle_condition in Hn.
      remember (2 ^ exponent (inject_Z q + f)) as u eqn:Eu. clear Eu.
      split; lra.
    - assert (E : inject_Z q + f == 0) by lra.
      rewrite (round64_zero _ E). split; lra. }
  remember (round64 (inject_Z q + f)) as w eqn:Ew. clear Ew.
  rewrite Hidx.
  remember (inject_Z m) as Mm eqn:EMm. remember (inject_Z maxInteger) as Mx eqn:EMx.
  remember (inject_Z q) as Q eqn:EQ. remember (inject_Z r) as R eqn:ER.
  clear EMm EMx EQ ER.
  destruct He as [He3 He4].
  split; nra.
Qed.

Lemma value_nonneg : 0 <= v.
Proof using Hmax Hsafe Hindex.
  destruct (index_parts maxInteger decimalPlaces index Hmax ltac:(lia) Hindex)
    as (Hm & Hq & Hr).
  unfold value. rewrite Hq, Hr, Hm.
  assert (Hmpos : (0 < m)%Z) by (apply Z.pow_pos_nonneg; lia).
  pose proof (Z.mod_pos_bound index m Hmpos) as Hrb.
  destruct (fdiv_unit (index mod m) m ltac:(lia) Hmpos) as [Hf0 _].
  assert (Hq0 : 0 <= inject_Z (index / m)) by (apply inject_Z_nonneg, Z.div_pos; lia).
  unfold fadd. apply round64_nonneg. lra.
Qed.

(** Scaled back and rounded half up, the rebuilt value is the index. *)
Lemma value_floor : Qfloor (v * 10 ^ Z.of_nat decimalPlaces + (1 # 2)) = index.
Proof using Hmax Hsafe Hindex.
  destruct value_error as [H1 H2].
  assert (Hp : 10 ^ Z.of_nat decimalPlaces == inject_Z m).
  { rewrite Zpower_Qpower by lia. reflexivity. }
  apply Qfloor_unique; rewrite Hp; lra.
Qed.

Lemma value_below : v * 10 ^ Z.of_nat decimalPlaces + (1 # 2) < 10 ^ 21.
Proof using Hmax Hsafe Hindex.
  destruct value_error as [H1 H2].
  assert (Hp : 10 ^ Z.of_nat decimalPlaces == inject_Z m).
  { rewrite Zpower_Qpower by lia. reflexivity. }
  rewrite Hp.
  assert (Hi : inject_Z index <= 2251799813685248).
  { change 2251799813685248 with (inject_Z (2 ^ 51)). rewrite <- Zle_Qle. lia. }
  apply Qle_lt_trans with 2251799813685249; [lra | reflexivity].
Qed.

(** The double nearest to index / 10^decimalPlaces does the same. *)
Lemma decimal_error :
  let s := round64 (inject_Z index / 10 ^ Z.of_nat decimalPlaces) in
  0 <= s /\ s <= inject_Z maxInteger
  /\ - (1 # 4) <= s * inject_Z m - inject_Z index /\ s * inject_Z m - inject_Z index <= 1 # 4.
Proof using Hmax Hsafe Hindex.
  intros s.
  assert (Hp : 10 ^ Z.of_nat decimalPlaces == inject_Z m).
  { rewrite Zpower_Qpower by lia. reflexivity. }
  assert (Hmpos : (0 < m)%Z) by (apply Z.pow_pos_nonneg; lia).
  assert (HM : 0 < inject_Z m) by (apply inject_Z_pos; lia).
  assert (Hi0 : 0 <= inject_Z index) by (apply inject_Z_nonneg; lia).
  assert (Hmax1 : 1 <= inject_Z maxInteger)
    by (change 1 with (inject_Z 1); rewrite <- Zle_Qle; lia).
  assert (HMM : inject_Z maxInteger * inject_Z m <= 2251799813685248).
  { change 2251799813685248 with (inject_Z (2 ^ 51)).
    rewrite <- inject_Z_mult, <- Zle_Qle. exact Hsafe. }
  assert (Hlt : inject_Z index < inject_Z maxInteger * inject_Z m).
  { rewrite <- inject_Z_mult, <- Zlt_Qlt. lia. }
  assert (Eq : inject_Z index / 10 ^ Z.of_nat decimalPlaces == inject_Z index / inject_Z m).
  { rewrite Hp. reflexivity. }
  assert (Hq0 : 0 <= inject_Z index / inject_Z m) by (apply Qle_shift_div_l; lra).
  assert (Hq1 : inject_Z index / inject_Z m <= inject_Z maxInteger).
  { apply Qle_shift_div_r; [exact HM | lra]. }
  assert (Hqm : inject_Z index / inject_Z m * inject_Z m == inject_Z index) by (field; lra).
  assert (Hs : s = round64 (inject_Z index / inject_Z m))
    by (unfold s; apply round64_Proper; exact Eq).
  assert (Hint : round64 (inject_Z maxInteger) = inject_Z maxInteger)
    by (apply round64_int; lia).
  assert (Hs0 : 0 <= s) by (rewrite Hs; apply round64_nonneg; exact Hq0).
  assert (Hs1 : s <= inject_Z maxInteger).
  { rewrite Hs, <- Hint. apply round64_mono; assumption. }
  split; [exact Hs0 |]. split; [exact Hs1 |].
  destruct (Qlt_le_dec 0 (inject_Z index / inject_Z m)) as [Hpos | Hzero].
  - pose proof (round64_nearest _ Hpos) as Hn.
    pose proof (ulp_relative _ (inject_Z maxInteger) Hpos Hq1 Hmax1) as Hu.
    change (2 ^ (-52)) with (1 # 4503599627370496) in Hu.
    apply Qabs_Qle_condition in Hn. rewrite <- Hs in Hn.
    remember (2 ^ exponent (inject_Z index / inject_Z m)) as u eqn:Eu. clear Eu.
    remember (inject_Z index / inject_Z m) as q eqn:Eqq. clear Eqq.
    rewrite <- Hqm.
    remember (inject_Z m) as Mm eqn:EMm. remember (inject_Z maxInteger) as Mx eqn:EMx.
    clear EMm EMx Hs. clearbody s.
    destruct Hn as [Hn1 Hn2].
    split; nra.
  - assert (E0 : inject_Z index / inject_Z m == 0) by lra.
    rewrite (round64_zero _ E0) in Hs.
    assert (Ei : inject_Z index == 0) by (rewrite <- Hqm, E0; ring).
    rewrite Hs, Ei. split; lra.
Qed.

End Index_value.

(** X10: the double rebuilt for an index prints, with
    [toFixed(decimalPlaces)], as the exact decimal
    index / 10^decimalPlaces: scaled back by 10^decimalPlaces it rounds to
    the index itself. *)
Theorem value_prints_index (maxInteger : Z) (decimalPlaces : nat) (index : Z) :
  1 <= maxInteger <= 2 ^ 31 ->
  maxInteger * 10 ^ Z.of_nat decimalPlaces <= 2 ^ 51 ->
  0 <= index < maxInteger * 10 ^ Z.of_nat decimalPlaces ->
  let value := Worker.value index (Worker.multiplier decimalPlaces) in
  Qfloor (value * 10 ^ Z.of_nat decimalPlaces + (1 # 2)) = index
  /\ ES.toFixed value decimalPlaces
     = ES.toFixed (inject_Z index / 10 ^ Z.of_nat decimalPlaces) decimalPlaces.
Proof.
  intros Hmax Hsafe Hindex value.
  destruct (value_error maxInteger decimalPlaces index Hmax Hsafe Hindex) as [H1 H2].
  pose proof (value_nonneg maxInteger decimalPlaces index Hmax Hsafe Hindex) as H0.
  fold value in H1, H2, H0.
  assert (Hp : (10 ^ Z.of_nat decimalPlaces == inject_Z (10 ^ Z.of_nat decimalPlaces))%Q).
  { rewrite Zpower_Qpower by lia. reflexivity. }
  assert (Hfloor : Qfloor (value * 10 ^ Z.of_nat decimalPlaces + (1 # 2)) = index).
  { apply Qfloor_unique; rewrite Hp; lra. }
  split; [exact Hfloor |].
  rewrite toFixed_decimal; [rewrite Hfloor; reflexivity | exact H0 |].
  rewrite Hp.
  assert (Hi : (inject_Z index <= 2251799813685248)%Q).
  { change 2251799813685248%Q with (inject_Z (2 ^ 51)). rewrite <- Zle_Qle. lia. }
  apply Qle_lt_trans with (2251799813685249)%Q; [lra | reflexivity].
Qed.

Lemma value_prints_index_witness :
  let value := Worker.value 999999999999998 (Worker.multiplier 6) in
  Qfloor (value * 10 ^ Z.of_nat 6 + (1 # 2)) = 999999999999998
  /\ ES.toFixed value 6 = ES.toFixed (inject_Z 999999999999998 / 10 ^ Z.of_nat 6) 6.
Proof. apply (value_prints_index 1000000000 6 999999999999998); lia. Defined.

(** X11: the rebuilt doubles follow their indices: a larger index
    gives a strictly larger number, so no two indices of the range test
    the same double. *)
Theorem value_increasing (maxInteger : Z) (decimalPlaces : nat) (i j : Z) :
  1 <= maxInteger <= 2 ^ 31 ->
  maxInteger * 10 ^ Z.of_nat decimalPlaces <= 2 ^ 51 ->
  0 <= i < j -> j < maxInteger * 10 ^ Z.of_nat decimalPlaces ->
  (Worker.value i (Worker.multiplier decimalPlaces)
   < Worker.value j (Worker.multiplier decimalPlaces))%Q.
Proof.
  intros Hmax Hsafe Hi Hj.
  destruct (value_error maxInteger decimalPlaces i Hmax Hsafe ltac:(lia)) as [_ H1].
  destruct (value_error maxInteger decimalPlaces j Hmax Hsafe ltac:(lia)) as [H2 _].
  assert (Hm : (0 < inject_Z (10 ^ Z.of_nat decimalPlaces))%Q)
    by (apply inject_Z_pos, Z.pow_pos_nonneg; lia).
  assert (Hij : (inject_Z i + 1 <= inject_Z j)%Q)
    by (rewrite <- inject_Z_succ, <- Zle_Qle; lia).
  remember (inject_Z (10 ^ Z.of_nat decimalPlaces)) as m eqn:Em. clear Em.
  remember (Worker.value i (Worker.multiplier decimalPlaces)) as a eqn:Ea. clear Ea.
  remember (Worker.value j (Worker.multiplier decimalPlaces)) as b eqn:Eb. clear Eb.
  destruct (Qlt_le_dec a b) as [H | H]; [exact H | exfalso].
  assert (b * m <= a * m)%Q by (apply Qmult_le_compat_r; lra).
  lra.
Qed.

Lemma value_increasing_witness :
  (Worker.value 999999 (Worker.multiplier 6) < Worker.value 1000000 (Worker.multiplier 6))%Q.
Proof. apply (value_increasing 1000000000 6 999999 1000000); lia. Defined.

(** ** The progress line *)

Section Progress_line.
Local Open Scope Q_scope.
Import JS Ticker.

(** The sum of the slots, as [reduce] computes it: exact, the slots
    being integers far below 2^53. *)
Lemma reduce_exact (arr : list Z) : forall acc : Z,
  (0 <= acc)%Z -> Forall (fun v => (0 <= v)%Z) arr ->
  (acc + fold_right Z.add 0%Z arr < 2 ^ 53)%Z ->
  fold_left (fun sum progress => fadd sum (inject_Z progress)) arr (inject_Z acc)
  = inject_Z (acc + fold_right Z.add 0%Z arr).
Proof.
  induction arr as [| v arr IH]; intros acc Hacc Hall Hsum.
  - cbn. rewrite Z.add_0_r. reflexivity.
  - apply Forall_cons in Hall. destruct Hall as [Hv Hall].
    assert (Hrest : (0 <= fold_right Z.add 0 arr)%Z).
    { clear - Hall. induction Hall as [| x l Hx _ IHl]; cbn; lia. }
    cbn [fold_left fold_right] in *.
    unfold fadd at 2.
    rewrite (round64_Proper _ (inject_Z (acc + v))) by (rewrite inject_Z_plus; reflexivity).
    rewrite round64_int by lia.
    rewrite IH; [f_equal; lia | lia | exact Hall | lia].
Qed.

Lemma sum_bounds (arr : list Z) (b : Z) :
  Forall (fun v => (0 <= v <= b)%Z) arr ->
  (0 <= fold_right Z.add 0 arr <= b * Z.of_nat (length arr))%Z.
Proof.
  induction 1 as [| v l Hv _ IH]; cbn [fold_right length]; [lia |].
  rewrite Nat2Z.inj_succ. lia.
Qed.

Lemma sum_mono (arr arr' : list Z) :
  Forall2 Z.le arr arr' -> (fold_right Z.add 0 arr <= fold_right Z.add 0 arr')%Z.
Proof. induction 1 as [| v v' l l' Hv _ IH]; cbn [fold_right]; lia. Qed.

(** With slots between 0 and 1,000,000 the fraction is the rounded
    quotient of two integers. *)
Lemma overallProgress_quotient (arr : list Z) (numCPUs : nat) :
  (1 <= Z.of_nat numCPUs <= 2 ^ 32)%Z -> length arr = numCPUs ->
  Forall (fun v => (0 <= v <= 1000000)%Z) arr ->
  overallProgress arr numCPUs
  = fdiv (inject_Z (fold_right Z.add 0%Z arr)) (inject_Z (Z.of_nat numCPUs * 1000000)).
Proof.
  intros Hn Hlen Hall. unfold overallProgress.
  pose proof (sum_bounds arr 1000000 Hall) as Hs. rewrite Hlen in Hs.
  change 0 with (inject_Z 0).
  rewrite reduce_exact; [| lia | eapply Forall_impl; [exact Hall | cbn; intros; lia] | lia].
  rewrite Z.add_0_l. f_equal.
  unfold fmul.
  rewrite (round64_Proper _ (inject_Z (Z.of_nat numCPUs * 1000000)))
    by (rewrite inject_Z_mult; reflexivity).
  apply round64_int. lia.
Qed.

Lemma quotient_mono (a b n : Z) :
  (0 <= a <= b)%Z -> (0 < n)%Z ->
  0 <= fdiv (inject_Z a) (inject_Z n)
  /\ fdiv (inject_Z a) (inject_Z n) <= fdiv (inject_Z b) (inject_Z n).
Proof.
  intros Hab Hn. unfold fdiv.
  pose proof (inject_Z_pos n Hn) as Hnq.
  pose proof (inject_Z_nonneg a ltac:(lia)) as Haq.
  assert (Habq : inject_Z a <= inject_Z b) by (rewrite <- Zle_Qle; lia).
  assert (H0 : 0 <= inject_Z a / inject_Z n) by (apply Qle_shift_div_l; lra).
  split; [apply round64_nonneg; exact H0 |].
  apply round64_mono; [exact H0 |].
  unfold Qdiv. apply Qmult_le_compat_r; [exact Habq |].
  apply Qlt_le_weak, Qinv_lt_0_compat. exact Hnq.
Qed.

(** The figure behind the line never decreases when no slot does. *)
Lemma percent_mono (arr arr' : list Z) (numCPUs : nat) :
  (1 <= Z.of_nat numCPUs <= 2 ^ 32)%Z ->
  length arr = numCPUs -> length arr' = numCPUs ->
  Forall (fun v => (0 <= v <= 1000000)%Z) arr ->
  Forall (fun v => (0 <= v <= 1000000)%Z) arr' ->
  Forall2 Z.le arr arr' ->
  0 <= fmul (overallProgress arr numCPUs) 100
  /\ fmul (overallProgress arr numCPUs) 100 <= fmul (overallProgress arr' numCPUs) 100.
Proof.
  intros Hn Hlen Hlen' Hall Hall' Hle.
  rewrite !overallProgress_quotient by assumption.
  pose proof (sum_bounds arr 1000000 Hall) as Hs.
  pose proof (sum_mono arr arr' Hle) as Hm.
  destruct (quotient_mono _ _ (Z.of_nat numCPUs * 1000000) (conj (proj1 Hs) Hm) ltac:(lia))
    as [H0 H1].
  unfold fmul. split.
  - apply round64_nonneg. lra.
  - apply round64_mono; lra.
Qed.

(** Slots up to 999,999 keep the figure below 99.99995, which
    [toFixed(4)] prints as 99.9999 at most. *)
Lemma percent_below_full (arr : list Z) (numCPUs : nat) :
  (1 <= Z.of_nat numCPUs <= 2 ^ 32)%Z -> length arr = numCPUs ->
  Forall (fun v => (0 <= v <= 999999)%Z) arr ->
  0 <= fmul (overallProgress arr numCPUs) 100
  /\ fmul (overallProgress arr numCPUs) 100 < 9999995 # 100000.
Proof.
  intros Hn Hlen Hall.
  assert (Hall' : Forall (fun v => (0 <= v <= 1000000)%Z) arr)
    by (eapply Forall_impl; [exact Hall | cbn; intros; lia]).
  rewrite overallProgress_quotient by assumption.
  pose proof (sum_bounds arr 999999 Hall) as Hs. rewrite Hlen in Hs.
  destruct (quotient_mono _ _ (Z.of_nat numCPUs * 1000000) Hs ltac:(lia)) as [H0 H1].
  assert (E : fdiv (inject_Z (999999 * Z.of_nat numCPUs)) (inject_Z (Z.of_nat numCPUs * 1000000))
              = fdiv 999999 1000000).
  { unfold fdiv. apply round64_Proper.
    rewrite !inject_Z_mult.
    assert (0 < inject_Z (Z.of_nat numCPUs)) by (apply inject_Z_pos; lia).
    change (inject_Z 999999) with 999999. change (inject_Z 1000000) with 1000000.
    field. lra. }
  rewrite E in H1.
  unfold fmul. split; [apply round64_nonneg; lra |].
  apply Qle_lt_trans with (round64 (fdiv 999999 1000000 * 100)).
  - apply round64_mono; lra.
  - vm_compute. reflexivity.
Qed.

End Progress_line.

(** X12: while the workers run, the progress line stays below 100%:
    whatever each slot holds, zero or any value its worker has written,
    the figure is under 99.99995 and is printed as some n/10000 with
    n at most 999999. *)
Theorem progress_line_below_100 (rt : Platform) (maxInteger : Z)
    (decimalPlaces numCPUs : nat) (arr : list Z) :
  0 < Coordinator.totalNumbers maxInteger decimalPlaces < 2 ^ 53 ->
  1 <= Z.of_nat numCPUs <= 2 ^ 32 ->
  (decimalPlaces <= 22)%nat ->
  length arr = numCPUs ->
  (forall w v, arr !! w = Some v ->
     v = 0 \/ In v (Worker.stored w
                      (Worker.events
                         (Threads.thread rt
                            (Coordinator.chunk
                               (Coordinator.totalNumbers maxInteger decimalPlaces)
                               numCPUs decimalPlaces w)
                            (Coordinator.progressArray numCPUs))))) ->
  let percent := JS.fmul (Ticker.overallProgress arr numCPUs) 100 in
  (0 <= percent < 9999995 # 100000)%Q
  /\ exists n, 0 <= n <= 999999
               /\ Ticker.progressString arr numCPUs
                  = ("Validating: " ++ ES.toFixed (inject_Z n / 10000) 4
                     ++ "% complete...")%string.
Proof.
  intros Htotal Hcpus _ Hlen Harr percent.
  set (total := Coordinator.totalNumbers maxInteger decimalPlaces) in *.
  assert (Hall : Forall (fun v => 0 <= v <= 999999) arr).
  { apply Forall_forall. intros v Hv.
    apply list_elem_of_lookup in Hv. destruct Hv as [w Hw].
    pose proof (lookup_lt_Some _ _ _ Hw) as Hlt. rewrite Hlen in Hlt.
    destruct (Harr w v Hw) as [-> | Hin]; [lia |].
    destruct (chunkSize_bounds total numCPUs Htotal ltac:(lia)) as (Hsize & _ & _).
    revert Hin. unfold Threads.thread.
    cbn [Coordinator.start Coordinator.end_ Coordinator.decimalPlaces Coordinator.workerId
         Coordinator.chunk].
    intros Hin.
    assert (Hb : Forall (fun v => 0 <= v <= 999999)
                   (Worker.stored w
                      (Worker.events
                         (Worker.verifyChunk rt
                            (Z.of_nat w * Coordinator.chunkSize total numCPUs)
                            (Z.min ((Z.of_nat w + 1) * Coordinator.chunkSize total numCPUs)
                               total)
                            decimalPlaces (Coordinator.progressArray numCPUs) w)))).
    { apply run_stores_bounded.
      - unfold Coordinator.progressArray. rewrite length_replicate. exact Hlt.
      - unfold Coordinator.progressArray. apply lookup_replicate_2. exact Hlt.
      - nia. }
    rewrite Forall_forall in Hb. apply Hb, list_elem_of_In. exact Hin. }
  destruct (percent_below_full arr numCPUs Hcpus Hlen Hall) as [H0 H1].
  fold percent in H0, H1.
  split; [split; assumption |].
  exists (Qfloor (percent * 10 ^ Z.of_nat 4 + (1 # 2))%Q).
  split.
  - split.
    + change 0 with (Qfloor 0). apply Qfloor_resp_le.
      change (10 ^ Z.of_nat 4)%Q with 10000%Q. lra.
    + assert (H : Qfloor (percent * 10 ^ Z.of_nat 4 + (1 # 2))%Q < 1000000); [| lia].
      rewrite Zlt_Qlt. eapply Qle_lt_trans; [apply Qfloor_le |].
      change (10 ^ Z.of_nat 4)%Q with 10000%Q.
      change (inject_Z 1000000) with 1000000%Q. lra.
  - unfold Ticker.progressString. fold percent.
    rewrite (toFixed_decimal percent 4 H0).
    + reflexivity.
    + change (10 ^ Z.of_nat 4)%Q with 10000%Q.
      apply Qlt_trans with 1000000%Q; [lra | reflexivity].
Qed.

Lemma progress_line_below_100_witness :
  let percent := JS.fmul (Ticker.overallProgress [1; 0] 2) 100 in
  (0 <= percent < 9999995 # 100000)%Q
  /\ exists n, 0 <= n <= 999999
               /\ Ticker.progressString [1; 0] 2
                  = ("Validating: " ++ ES.toFixed (inject_Z n / 10000) 4
                     ++ "% complete...")%string.
Proof.
  apply (progress_line_below_100 Stand_in.quiet 1 1 2 [1; 0]).
  - vm_compute. split; reflexivity.
  - lia.
  - lia.
  - reflexivity.
  - intros [| [| w]] v H; cbn in H; try discriminate; injection H as <-.
    + right. vm_compute. left. reflexivity.
    + left. reflexivity.
Defined.

(** X13: the progress line never goes backwards: if no slot
    decreases, neither does the figure, nor the number of ten-thousandths
    of a percent that [toFixed(4)] prints. *)
Theorem progress_line_monotone (numCPUs : nat) (arr arr' : list Z) :
  1 <= Z.of_nat numCPUs <= 2 ^ 32 ->
  length arr = numCPUs -> length arr' = numCPUs ->
  Forall (fun v => 0 <= v <= 1000000) arr ->
  Forall (fun v => 0 <= v <= 1000000) arr' ->
  Forall2 Z.le arr arr' ->
  let percent := JS.fmul (Ticker.overallProgress arr numCPUs) 100 in
  let percent' := JS.fmul (Ticker.overallProgress arr' numCPUs) 100 in
  (0 <= percent <= percent')%Q
  /\ Qfloor (percent * 10 ^ 4 + (1 # 2)) <= Qfloor (percent' * 10 ^ 4 + (1 # 2)).
Proof.
  intros Hcpus Hlen Hlen' Hall Hall' Hle percent percent'.
  destruct (percent_mono arr arr' numCPUs Hcpus Hlen Hlen' Hall Hall' Hle) as [H0 H1].
  fold percent in H0, H1. fold percent' in H1.
  split; [split; assumption |].
  apply Qfloor_resp_le. change (10 ^ 4)%Q with 10000%Q. lra.
Qed.

Lemma progress_line_monotone_witness :
  let percent := JS.fmul (Ticker.overallProgress [333333; 0] 2) 100 in
  let percent' := JS.fmul (Ticker.overallProgress [333333; 999999] 2) 100 in
  (0 <= percent <= percent')%Q
  /\ Qfloor (percent * 10 ^ 4 + (1 # 2)) <= Qfloor (percent' * 10 ^ 4 + (1 # 2)).
Proof.
  apply (progress_line_monotone 2 [333333; 0] [333333; 999999]).
  - lia.
  - reflexivity.
  - reflexivity.
  - repeat constructor; lia.
  - repeat constructor; lia.
  - repeat constructor; lia.
Defined.

(** ** The chart's safe decimals *)

Section Safe_decimals.
Import JS Visualizer.

Lemma maxSafeInteger_exact : maxSafeInteger = inject_Z (2 ^ 53 - 1).
Proof. vm_compute. reflexivity. Qed.

(** The powers of ten up to 10^22 are doubles. *)
Lemma Math_pow10_exact (n : nat) :
  (n <= 22)%nat -> Math_pow 10 n = inject_Z (10 ^ Z.of_nat n).
Proof.
  intros Hn.
  do 23 (destruct n as [| n]; [vm_compute; reflexivity |]).
  lia.
Qed.

(** On an integer, the rounded product passes the test of the loop
    exactly when the true product does. *)
Lemma safe_test (m : Z) (k : nat) :
  1 <= m -> (k <= 22)%nat ->
  Qle_bool (fmul (inject_Z m) (Math_pow 10 k)) maxSafeInteger
  = (m * 10 ^ Z.of_nat k <=? 2 ^ 53 - 1).
Proof.
  intros Hm Hk.
  rewrite Math_pow10_exact, maxSafeInteger_exact by exact Hk.
  unfold fmul.
  rewrite (round64_Proper _ (inject_Z (m * 10 ^ Z.of_nat k)))
    by (rewrite inject_Z_mult; reflexivity).
  assert (Hp : 0 < 10 ^ Z.of_nat k) by (apply Z.pow_pos_nonneg; lia).
  destruct (Z.leb_spec (m * 10 ^ Z.of_nat k) (2 ^ 53 - 1)) as [Hle | Hgt].
  - rewrite round64_int by nia.
    apply Qle_bool_iff. rewrite <- Zle_Qle. exact Hle.
  - destruct (Qle_bool _ _) eqn:E; [| reflexivity].
    exfalso. apply Qle_bool_iff in E.
    assert (H : (round64 (inject_Z (2 ^ 53)) <= round64 (inject_Z (m * 10 ^ Z.of_nat k)))%Q).
    { apply round64_mono; [apply inject_Z_nonneg; lia | rewrite <- Zle_Qle; lia]. }
    assert (H53 : round64 (inject_Z (2 ^ 53)) = inject_Z (2 ^ 53))
      by (vm_compute; reflexivity).
    rewrite H53 in H.
    pose proof (Qle_trans _ _ _ H E) as H'.
    rewrite <- Zle_Qle in H'. lia.
Qed.

(** Ten to the sixteenth is past the safe integers. *)
Lemma safe_places_bound (m : Z) (k : nat) :
  1 <= m -> m * 10 ^ Z.of_nat k <= 2 ^ 53 - 1 -> (k <= 15)%nat.
Proof.
  intros Hm Hk.
  destruct (Nat.le_gt_cases k 15) as [H | H]; [exact H | exfalso].
  assert (10 ^ 16 <= 10 ^ Z.of_nat k) by (apply Z.pow_le_mono_r; lia).
  assert (10 ^ 16 <= m * 10 ^ Z.of_nat k) by nia.
  lia.
Qed.

(** The loop stops, at the last [d] whose product is safe. *)
Lemma count_spec (m : Z) (fuel : nat) : forall k,
  1 <= m -> m * 10 ^ Z.of_nat k <= 2 ^ 53 - 1 -> (16 <= k + fuel)%nat ->
  exists d, count fuel (inject_Z m) k = Some d
            /\ (k <= d)%nat
            /\ m * 10 ^ Z.of_nat d <= 2 ^ 53 - 1 < m * 10 ^ Z.of_nat (d + 1).
Proof.
  induction fuel as [| fuel IH]; intros k Hm Hk Hf.
  - pose proof (safe_places_bound m k Hm Hk). lia.
  - pose proof (safe_places_bound m k Hm Hk) as Hk15.
    cbn [count]. rewrite safe_test by lia.
    destruct (Z.leb_spec (m * 10 ^ Z.of_nat (k + 1)) (2 ^ 53 - 1)) as [Hle | Hgt].
    + destruct (IH (k + 1)%nat Hm Hle ltac:(lia)) as (d & Hd & Hkd & Hb).
      exists d. repeat split; try tauto; lia.
    + exists k. repeat split; try lia; reflexivity.
Qed.

Lemma pow10_mono (m : Z) (a b : nat) :
  1 <= m -> (a <= b)%nat -> m * 10 ^ Z.of_nat a <= m * 10 ^ Z.of_nat b.
Proof.
  intros Hm Hab.
  assert (10 ^ Z.of_nat a <= 10 ^ Z.of_nat b) by (apply Z.pow_le_mono_r; lia).
  nia.
Qed.

Lemma calculateSafeDecimals_spec (m : Z) (fuel : nat) :
  1 <= m <= 2 ^ 53 - 1 -> (16 <= fuel)%nat ->
  exists d, calculateSafeDecimals fuel (inject_Z m) = Some d
            /\ m * 10 ^ Z.of_nat d <= 2 ^ 53 - 1 < m * 10 ^ Z.of_nat (d + 1).
Proof.
  intros Hm Hf. unfold calculateSafeDecimals.
  rewrite maxSafeInteger_exact.
  assert (E : Qle_bool (inject_Z m) (inject_Z (2 ^ 53 - 1)) = true)
    by (apply Qle_bool_iff; rewrite <- Zle_Qle; lia).
  rewrite E. cbn [negb].
  destruct (count_spec m fuel 0%nat ltac:(lia) ltac:(cbn; lia) ltac:(lia))
    as (d & Hd & _ & Hb).
  exists d. split; [exact Hd | exact Hb].
Qed.

Lemma calculateSafeDecimals_beyond (m : Z) (fuel : nat) :
  2 ^ 53 - 1 < m -> calculateSafeDecimals fuel (inject_Z m) = Some 0%nat.
Proof.
  intros Hm. unfold calculateSafeDecimals. rewrite maxSafeInteger_exact.
  destruct (Qle_bool _ _) eqn:E; [| reflexivity].
  apply Qle_bool_iff in E. rewrite <- Zle_Qle in E. lia.
Qed.

(** More fuel than the loop needs changes nothing. *)
Lemma count_fuel (x : Q) (fuel fuel' : nat) : forall k d,
  (fuel <= fuel')%nat -> count fuel x k = Some d -> count fuel' x k = Some d.
Proof.
  revert fuel'. induction fuel as [| fuel IH]; intros fuel' k d Hf H; [discriminate |].
  destruct fuel' as [| fuel']; [lia |].
  cbn [count] in *.
  destruct (Qle_bool _ _); [| exact H].
  apply (IH fuel'); [lia | exact H].
Qed.

Lemma calculateSafeDecimals_fuel (x : Q) (fuel fuel' : nat) (d : nat) :
  (fuel <= fuel')%nat ->
  calculateSafeDecimals fuel x = Some d -> calculateSafeDecimals fuel' x = Some d.
Proof.
  intros Hf. unfold calculateSafeDecimals.
  destruct (negb _); [trivial |]. apply count_fuel. exact Hf.
Qed.

(** X14: [calculateSafeDecimals] on a safe positive integer returns the
    number [d] of decimal places such that [maxInteger * 10^k] is a safe
    integer exactly for the [k] up to [d]; the loop ends within sixteen
    tests. *)
Theorem calculateSafeDecimals_largest (maxInteger : Z) (fuel : nat) :
  1 <= maxInteger <= 2 ^ 53 - 1 -> (16 <= fuel)%nat ->
  exists d, calculateSafeDecimals fuel (inject_Z maxInteger) = Some d
            /\ (d <= 15)%nat
            /\ forall k : nat, maxInteger * 10 ^ Z.of_nat k <= 2 ^ 53 - 1 <-> (k <= d)%nat.
Proof.
  intros Hm Hf.
  destruct (calculateSafeDecimals_spec maxInteger fuel Hm Hf) as (d & Hd & Hlo & Hhi).
  exists d. split; [exact Hd |]. split.
  - apply (safe_places_bound maxInteger); [lia | exact Hlo].
  - intros k. split.
    + intros Hk. destruct (Nat.le_gt_cases k d) as [H | H]; [exact H | exfalso].
      pose proof (pow10_mono maxInteger (d + 1) k ltac:(lia) ltac:(lia)). lia.
    + intros Hk. pose proof (pow10_mono maxInteger k d ltac:(lia) Hk). lia.
Qed.

Lemma calculateSafeDecimals_largest_witness :
  exists d, calculateSafeDecimals 16 (inject_Z 1000000000) = Some d
            /\ (d <= 15)%nat
            /\ forall k : nat, 1000000000 * 10 ^ Z.of_nat k <= 2 ^ 53 - 1 <-> (k <= d)%nat.
Proof. apply (calculateSafeDecimals_largest 1000000000 16); lia. Defined.

(** X15: a larger integer never has more safe decimals, whether or not
    it is itself a safe integer. *)
Theorem calculateSafeDecimals_antitone (m m' : Z) (fuel : nat) :
  1 <= m <= m' -> (16 <= fuel)%nat ->
  exists d d', calculateSafeDecimals fuel (inject_Z m) = Some d
               /\ calculateSafeDecimals fuel (inject_Z m') = Some d'
               /\ (d' <= d)%nat.
Proof.
  intros Hm Hf.
  destruct (Z_le_gt_dec m' (2 ^ 53 - 1)) as [Hs' | Hs'].
  - destruct (calculateSafeDecimals_spec m fuel ltac:(lia) Hf) as (d & Hd & Hlo & Hhi).
    destruct (calculateSafeDecimals_spec m' fuel ltac:(lia) Hf) as (d' & Hd' & Hlo' & Hhi').
    exists d, d'. split; [exact Hd |]. split; [exact Hd' |].
    destruct (Nat.le_gt_cases d' d) as [H | H]; [exact H | exfalso].
    pose proof (pow10_mono m (d + 1) d' ltac:(lia) ltac:(lia)).
    assert (0 < 10 ^ Z.of_nat d') by (apply Z.pow_pos_nonneg; lia).
    nia.
  - destruct (Z_le_gt_dec m (2 ^ 53 - 1)) as [Hs | Hs].
    + destruct (calculateSafeDecimals_spec m fuel ltac:(lia) Hf) as (d & Hd & _).
      exists d, 0%nat. rewrite (calculateSafeDecimals_beyond m') by lia.
      split; [exact Hd |]. split; [reflexivity | lia].
    + exists 0%nat, 0%nat. rewrite !calculateSafeDecimals_beyond by lia.
      repeat split; lia.
Qed.

Lemma calculateSafeDecimals_antitone_witness :
  exists d d', calculateSafeDecimals 16 (inject_Z 99) = Some d
               /\ calculateSafeDecimals 16 (inject_Z 1000000000) = Some d'
               /\ (d' <= d)%nat.
Proof. apply (calculateSafeDecimals_antitone 99 1000000000 16); lia. Defined.

(** X16: the chart's data are the fourteen points (10^i - 1, 15 - i) for
    [i] from 2 to 15: the safe decimals fall by one with each further
    digit of the integer part, down to none. *)
Theorem generateData_line (fuel : nat) :
  (14 <= fuel)%nat ->
  generateData fuel
  = Some (map (fun i => {| Visualizer.maxInteger := inject_Z (10 ^ Z.of_nat i - 1);
                           safeDecimals := 15 - i |})
              (seq 2 14)).
Proof.
  intros Hf.
  assert (H : forall i d, calculateSafeDecimals 14 (round64 (Math_pow 10 i - 1)) = Some d ->
                          calculateSafeDecimals fuel (round64 (Math_pow 10 i - 1)) = Some d).
  { intros i d. apply calculateSafeDecimals_fuel. exact Hf. }
  unfold generateData. cbn [seq mapM mbind option_bind mret option_ret].
  repeat (erewrite H by (vm_compute; reflexivity); cbn [mbind option_bind]).
  vm_compute. reflexivity.
Qed.

Lemma generateData_line_witness :
  generateData 14
  = Some (map (fun i => {| Visualizer.maxInteger := inject_Z (10 ^ Z.of_nat i - 1);
                           safeDecimals := 15 - i |})
              (seq 2 14)).
Proof. apply (generateData_line 14). lia. Defined.

End Safe_decimals.

(** ** Numbers as text *)

Section Text.
Import ES Digits.
Local Open Scope string_scope.
Local Open Scope Z_scope.

Lemma append_cons (c : ascii) (a b : string) : String c a ++ b = String c (a ++ b).
Proof. reflexivity. Qed.

Lemma append_nil_l (s : string) : "" ++ s = s.
Proof. reflexivity. Qed.

Lemma append_nil_r (s : string) : s ++ "" = s.
Proof.
  induction s as [| c s IH]; [reflexivity |]. rewrite append_cons, IH. reflexivity.
Qed.

Lemma append_assoc (a b c : string) : (a ++ b) ++ c = a ++ (b ++ c).
Proof.
  induction a as [| x a IH]; [reflexivity |]. rewrite !append_cons, IH. reflexivity.
Qed.

Lemma length_append (a b : string) :
  String.length (a ++ b) = (String.length a + String.length b)%nat.
Proof.
  induction a as [| x a IH]; [reflexivity |].
  rewrite append_cons. cbn [String.length]. rewrite IH. reflexivity.
Qed.

Lemma all_append (a b : string) : all (a ++ b) = all a && all b.
Proof.
  induction a as [| x a IH]; [reflexivity |].
  rewrite append_cons. cbn [all]. destruct (digit_of x); [exact IH | reflexivity].
Qed.

Lemma digit_of_bound (c : ascii) (d : Z) : digit_of c = Some d -> 0 <= d <= 9.
Proof.
  unfold digit_of. intros H.
  destruct (Z.leb_spec 48 (Z.of_nat (nat_of_ascii c)));
    destruct (Z.leb_spec (Z.of_nat (nat_of_ascii c)) 57); cbn in H; try discriminate.
  injection H as <-. lia.
Qed.

(** [read_digits] reads a run of digits to its end. *)
Lemma read_digits_all (s : string) : forall acc count rest,
  all s = true -> stops rest = true ->
  read_digits (s ++ rest) acc count = (number s acc, (count + String.length s)%nat, rest).
Proof.
  induction s as [| c s IH]; intros acc count rest Hs Hr.
  - rewrite append_nil_l. cbn [number String.length]. rewrite Nat.add_0_r.
    destruct rest as [| c r]; [reflexivity |].
    cbn [read_digits stops] in *. destruct (digit_of c); [discriminate | reflexivity].
  - rewrite append_cons. cbn [read_digits number all String.length] in *.
    destruct (digit_of c) as [d |]; [| discriminate].
    rewrite IH by assumption. f_equal. f_equal. lia.
Qed.

Lemma number_append (a b : string) : forall acc,
  all a = true -> number (a ++ b) acc = number b (number a acc).
Proof.
  induction a as [| c a IH]; intros acc Ha; [reflexivity |].
  rewrite append_cons. cbn [number all] in *.
  destruct (digit_of c); [apply IH; exact Ha | discriminate].
Qed.

Lemma number_shift (s : string) : forall acc,
  all s = true ->
  number s acc = acc * 10 ^ Z.of_nat (String.length s) + number s 0.
Proof.
  induction s as [| c s IH]; intros acc Hs.
  - cbn. lia.
  - cbn [number String.length] in *. cbn [all] in Hs.
    destruct (digit_of c) as [d |]; [| discriminate].
    rewrite (IH (10 * acc + d) Hs), (IH (10 * 0 + d) Hs).
    rewrite Nat2Z.inj_succ, Z.pow_succ_r by lia. ring.
Qed.

Lemma number_bound (s : string) :
  all s = true -> 0 <= number s 0 < 10 ^ Z.of_nat (String.length s).
Proof.
  induction s as [| c s IH]; intros Hs.
  - cbn. lia.
  - cbn [number String.length] in *. cbn [all] in Hs.
    destruct (digit_of c) as [d |] eqn:Hd; [| discriminate].
    pose proof (digit_of_bound c d Hd) as Hb.
    rewrite (number_shift s (10 * 0 + d) Hs).
    specialize (IH Hs).
    rewrite Nat2Z.inj_succ, Z.pow_succ_r by lia. nia.
Qed.

(** A first digit that is not 0 gives the number its full length. *)
Lemma number_lower (c : ascii) (s : string) (d : Z) :
  digit_of c = Some d -> 1 <= d -> all s = true ->
  10 ^ Z.of_nat (String.length s) <= number (String c s) 0.
Proof.
  intros Hd H1 Hs. cbn [number]. rewrite Hd.
  rewrite (number_shift s (10 * 0 + d) Hs).
  pose proof (number_bound s Hs).
  assert (0 < 10 ^ Z.of_nat (String.length s)) by (apply Z.pow_pos_nonneg; lia).
  nia.
Qed.

Lemma repeat_zero (k : nat) :
  all (repeat_char "0" k) = true
  /\ String.length (repeat_char "0" k) = k
  /\ forall acc, number (repeat_char "0" k) acc = acc * 10 ^ Z.of_nat k.
Proof.
  induction k as [| k (IH1 & IH2 & IH3)].
  - repeat split. intros acc. cbn. lia.
  - cbn [repeat_char all String.length number].
    change (digit_of "0") with (Some 0).
    split; [exact IH1 |]. split; [rewrite IH2; reflexivity |].
    intros acc. rewrite IH3, Nat2Z.inj_succ, Z.pow_succ_r by lia. ring.
Qed.

(** Cutting a string in two. *)
Lemma substring_all (s : string) : substring 0 (String.length s) s = s.
Proof. induction s as [| c s IH]; [reflexivity | cbn; f_equal; exact IH]. Qed.

Lemma substring_split (s : string) : forall a b,
  (a + b = String.length s)%nat -> substring 0 a s ++ substring a b s = s.
Proof.
  induction s as [| c s IH]; intros a b H.
  - cbn in H. assert (a = 0%nat) by lia. assert (b = 0%nat) by lia. subst. reflexivity.
  - destruct a as [| a].
    + cbn in H. subst b. cbn [substring]. rewrite append_nil_l, substring_all. reflexivity.
    + cbn in H. cbn [substring]. rewrite append_cons, IH by lia. reflexivity.
Qed.

Lemma substring_length (s : string) : forall a b,
  (a + b <= String.length s)%nat -> String.length (substring a b s) = b.
Proof.
  induction s as [| c s IH]; intros a b H.
  - cbn in H. assert (a = 0%nat) by lia. assert (b = 0%nat) by lia. subst. reflexivity.
  - destruct a as [| a]; cbn in H.
    + destruct b as [| b]; [reflexivity |]. cbn. rewrite IH by lia. reflexivity.
    + cbn [substring]. apply IH. lia.
Qed.

(** The decimal notation of the Standard Library. *)
Lemma uint_all (d : Decimal.uint) : all (NilEmpty.string_of_uint d) = true.
Proof. induction d; cbn; try exact IHd; reflexivity. Qed.

Lemma uint_length (d : Decimal.uint) :
  String.length (NilEmpty.string_of_uint d) = Decimal.nb_digits d.
Proof. induction d; cbn; try (rewrite IHd); reflexivity. Qed.

Lemma uint_number_acc (d : Decimal.uint) : forall acc : positive,
  number (NilEmpty.string_of_uint d) (Zpos acc) = Zpos (Pos.of_uint_acc d acc).
Proof.
  induction d; intros acc; cbn [NilEmpty.string_of_uint number Pos.of_uint_acc];
    try reflexivity;
    match goal with
    | |- context [digit_of ?c] =>
        let v := eval vm_compute in (digit_of c) in change (digit_of c) with v
    end; cbv iota; rewrite <- IHd; f_equal; lia.
Qed.

Lemma uint_number (d : Decimal.uint) :
  number (NilEmpty.string_of_uint d) 0 = Z.of_N (Pos.of_uint d).
Proof.
  induction d; cbn [NilEmpty.string_of_uint number Pos.of_uint];
    try reflexivity;
    match goal with
    | |- context [digit_of ?c] =>
        let v := eval vm_compute in (digit_of c) in change (digit_of c) with v
    end; cbv iota; try exact IHd;
    cbn [Z.mul Z.add Z.of_N]; apply uint_number_acc.
Qed.

Lemma nzhead_digit (d d' : Decimal.uint) : Decimal.nzhead d <> Decimal.D0 d'.
Proof. induction d; cbn; try discriminate. exact IHd. Qed.

(** [digits]: the decimal notation of a natural number. *)
Lemma digits_spec (n : Z) :
  0 <= n -> all (digits n) = true /\ number (digits n) 0 = n /\ digits n <> "".
Proof.
  intros Hn. unfold digits, NilZero.string_of_uint.
  set (d := N.to_uint (Z.to_N n)).
  assert (Hv : Z.of_N (Pos.of_uint d) = n).
  { unfold d. change (Pos.of_uint (N.to_uint (Z.to_N n))) with (N.of_uint (N.to_uint (Z.to_N n))).
    rewrite DecimalN.Unsigned.of_to. lia. }
  destruct d eqn:Ed; try (split; [apply uint_all | split; [rewrite uint_number; exact Hv | discriminate]]).
  cbn in Hv. subst n. repeat split. discriminate.
Qed.

Lemma digits_length (c : Z) (k : nat) :
  (1 <= k)%nat -> 10 ^ (Z.of_nat k - 1) <= c < 10 ^ Z.of_nat k ->
  String.length (digits c) = k.
Proof.
  intros Hk Hc.
  assert (Hc1 : 1 <= c).
  { assert (0 < 10 ^ (Z.of_nat k - 1)) by (apply Z.pow_pos_nonneg; lia). lia. }
  destruct (digits_spec c ltac:(lia)) as (Hall & Hnum & _).
  pose proof (number_bound (digits c) Hall) as Hub. rewrite Hnum in Hub.
  (* the first digit is not 0 *)
  assert (Hlow : 10 ^ (Z.of_nat (String.length (digits c)) - 1) <= c).
  { revert Hall Hnum. unfold digits, NilZero.string_of_uint.
    destruct (Z.to_N c) as [| p] eqn:Ep; [lia |].
    change (N.to_uint (N.pos p)) with (Pos.to_uint p).
    pose proof (DecimalPos.Unsigned.to_of (Pos.to_uint p)) as Hn.
    rewrite DecimalPos.Unsigned.of_to in Hn.
    change (N.to_uint (N.pos p)) with (Pos.to_uint p) in Hn.
    pose proof (DecimalPos.Unsigned.to_uint_nonzero p) as Hz.
    unfold Decimal.unorm in Hn.
    destruct (Decimal.nzhead (Pos.to_uint p)) eqn:Eh;
      try (exfalso; apply Hz; exact Hn);
      try (exfalso; exact (nzhead_digit _ _ Eh));
      rewrite Hn; cbn [NilEmpty.string_of_uint];
      intros Hall Hnum; rewrite <- Hnum;
      cbn [String.length]; rewrite Nat2Z.inj_succ;
      replace (Z.succ (Z.of_nat (String.length (NilEmpty.string_of_uint u))) - 1)
        with (Z.of_nat (String.length (NilEmpty.string_of_uint u))) by lia;
      (eapply number_lower; [vm_compute; reflexivity | lia | apply uint_all]). }
  set (L := String.length (digits c)) in *.
  assert (H1 : Z.of_nat L - 1 < Z.of_nat k).
  { apply (Z.pow_lt_mono_r_iff 10); lia. }
  assert (H2 : Z.of_nat k - 1 < Z.of_nat L).
  { apply (Z.pow_lt_mono_r_iff 10); lia. }
  lia.
Qed.

End Text.

(** ** Doubles and their neighbourhoods *)

Section Neighbourhood.
Local Open Scope Q_scope.
Import JS.

(** A positive result of [round64] is a significand below 2^53 times a
    power of two not below 2^-1074. *)
Lemma round64_double (q : Q) :
  0 < q -> 0 < round64 q ->
  exists R e, (0 < R < 2 ^ 53)%Z /\ (-1074 <= e)%Z /\ round64 q == inject_Z R * 2 ^ e.
Proof.
  intros Hq Hr.
  pose proof (round64_pos_eq q Hq) as E.
  pose proof (scaled_upper q Hq) as Hu.
  pose proof (exponent_pos q Hq) as He.
  assert (He' : (-1074 <= exponent q)%Z) by (rewrite He; lia).
  pose proof (pow2_pos (exponent q)) as Hp.
  set (R0 := rne (q * 2 ^ (- exponent q))) in *.
  assert (HR1 : (R0 <= 2 ^ 53)%Z).
  { apply rne_le. rewrite <- pow2_inject by lia. lra. }
  assert (HR0 : (0 < R0)%Z).
  { destruct (Z_lt_le_dec 0 R0) as [H | H]; [exact H | exfalso].
    assert (inject_Z R0 <= 0) by (change 0 with (inject_Z 0); rewrite <- Zle_Qle; exact H).
    rewrite E in Hr. nra. }
  destruct (Z.eq_dec R0 (2 ^ 53)%Z) as [Heq | Hne].
  - exists (2 ^ 52)%Z, (exponent q + 1)%Z. split; [lia |]. split; [lia |].
    rewrite E, Heq, pow2_add.
    change (inject_Z (2 ^ 53)) with (inject_Z (2 ^ 52) * 2). change (2 ^ 1) with 2. ring.
  - exists R0, (exponent q). split; [lia |]. split; [exact He' | exact E].
Qed.

(** Whatever lies within a relative 2^-54 of a double rounds to it. *)
Lemma round64_near (R e : Z) (z : Q) :
  (0 < R < 2 ^ 53)%Z -> (-1074 <= e)%Z ->
  Qabs (z - inject_Z R * 2 ^ e) < inject_Z R * 2 ^ e * (1 # 18014398509481984) ->
  round64 z == inject_Z R * 2 ^ e.
Proof.
  intros HR He Hz.
  pose proof (pow2_pos e) as Hpe.
  assert (HRq : 1 <= inject_Z R) by (change 1 with (inject_Z 1); rewrite <- Zle_Qle; lia).
  assert (HRu : inject_Z R <= 9007199254740991).
  { change 9007199254740991 with (inject_Z (2 ^ 53 - 1)). rewrite <- Zle_Qle. lia. }
  apply Qabs_Qlt_condition in Hz. destruct Hz as [Hz1 Hz2].
  assert (Hx : 0 < inject_Z R * 2 ^ e) by nra.
  assert (Hz0 : 0 < z) by nra.
  rewrite (round64_pos_eq z Hz0).
  pose proof (scaled_upper z Hz0) as Hup.
  change (2 ^ 53) with 9007199254740992 in Hup.
  pose proof (pow2_cancel (exponent z)) as Hc.
  pose proof (pow2_pos (exponent z)) as Hpz.
  pose proof (pow2_pos (- exponent z)) as Hpnz.
  destruct (Z_le_gt_dec (exponent z) e) as [Hle | Hgt].
  - (* the double is an integer at the scale of [z] *)
    set (N := (R * 2 ^ (e - exponent z))%Z).
    assert (HN : inject_Z N == inject_Z R * 2 ^ e * 2 ^ (- exponent z)).
    { unfold N. rewrite inject_Z_mult, <- pow2_inject by lia.
      replace (e - exponent z)%Z with (e + - exponent z)%Z by lia.
      rewrite pow2_add. ring. }
    assert (Hrne : rne (z * 2 ^ (- exponent z)) = N).
    { remember (z * 2 ^ (- exponent z)) as t eqn:Et.
      assert (Ht1 : inject_Z N - inject_Z N * (1 # 18014398509481984) < t)
        by (rewrite HN, Et; nra).
      assert (Ht2 : t < inject_Z N + inject_Z N * (1 # 18014398509481984))
        by (rewrite HN, Et; nra).
      assert (HNu : inject_Z N < 9007199254740993) by lra.
      assert (HNz : (N <= 2 ^ 53)%Z).
      { change 9007199254740993 with (inject_Z (2 ^ 53 + 1)) in HNu.
        rewrite <- Zlt_Qlt in HNu. lia. }
      assert (HNq : inject_Z N <= 9007199254740992).
      { change 9007199254740992 with (inject_Z (2 ^ 53)). rewrite <- Zle_Qle. exact HNz. }
      assert (G1 : (rne t < N + 1)%Z).
      { apply rne_lt. rewrite inject_Z_succ. lra. }
      assert (G2 : (N - 1 < rne t)%Z).
      { apply rne_gt. rewrite inject_Z_pred. lra. }
      lia. }
    rewrite Hrne, HN.
    rewrite <- Qmult_assoc, Hc. ring.
  - (* [z] cannot be a binade above the double *)
    exfalso.
    assert (Hex : exponent z = (ilog2 z - 52)%Z \/ exponent z = (-1074)%Z).
    { rewrite (exponent_pos z Hz0). lia. }
    pose proof (scaled_lower z Hz0 ltac:(lia)) as Hlow.
    change (2 ^ 52) with 4503599627370496 in Hlow.
    assert (Hpow : 2 * 2 ^ e <= 2 ^ exponent z).
    { change 2 with (2 ^ 1) at 1. rewrite <- pow2_add. apply pow2_le. lia. }
    assert (Hzz : z == z * 2 ^ (- exponent z) * 2 ^ exponent z).
    { rewrite <- Qmult_assoc, Hc. ring. }
    remember (z * 2 ^ (- exponent z)) as t eqn:Et. clear Et.
    remember (2 ^ exponent z) as pz eqn:Epz. clear Epz.
    remember (2 ^ e) as pe eqn:Epe. clear Epe.
    remember (inject_Z R) as Rq eqn:ERq. clear ERq.
    assert (H1 : 4503599627370496 * pz <= t * pz) by (apply Qmult_le_compat_r; lra).
    assert (H2 : Rq * pe <= 9007199254740991 * pe) by (apply Qmult_le_compat_r; lra).
    rewrite Hzz in Hz2. lra.
Qed.

End Neighbourhood.

(** ** The shortest digits of a double *)

Section Shortest.
Local Open Scope Q_scope.
Import JS ES.

Lemma pow10_pos (a : Z) : 0 < 10 ^ a.
Proof. apply Qpower_0_lt. reflexivity. Qed.

Lemma pow10_add (a b : Z) : 10 ^ (a + b) == 10 ^ a * 10 ^ b.
Proof. apply Qpower_plus. discriminate. Qed.

Lemma pow10_inject (n : Z) : (0 <= n)%Z -> 10 ^ n == inject_Z (10 ^ n).
Proof. intros H. rewrite Zpower_Qpower by exact H. reflexivity. Qed.

Lemma pow10_cancel (a : Z) : 10 ^ a * 10 ^ (- a) == 1.
Proof. rewrite <- pow10_add. replace (a + - a)%Z with 0%Z by lia. reflexivity. Qed.

(** The estimate of [ilog10] from the binade is off by one at most;
    checked on the binades from 2^-64 to 2^63, which hold the numbers of
    the ranges below. *)
Lemma ilog10_table :
  forallb (fun a : Z =>
             let g := (a * 30103 / 100000)%Z in
             Qle_bool (10 ^ (g - 1)) (2 ^ a) && Qle_bool (2 ^ (a + 1)) (10 ^ (g + 2)))
          (seqZ (-64) 128) = true.
Proof. vm_compute. reflexivity. Qed.

Lemma ilog10_spec (x : Q) :
  2 ^ (-64) <= x -> x < 2 ^ 64 -> 10 ^ ilog10 x <= x /\ x < 10 ^ (ilog10 x + 1).
Proof.
  intros Hlo Hhi.
  assert (Hx : 0 < x) by (pose proof (pow2_pos (-64)); lra).
  destruct (ilog2_spec x Hx) as [Ha1 Ha2].
  assert (Ha : (-64 <= ilog2 x < 64)%Z).
  { split.
    - assert (H : (-64 < ilog2 x + 1)%Z); [| lia].
      apply pow2_lt_inv. lra.
    - apply pow2_lt_inv. lra. }
  pose proof ilog10_table as Ht. rewrite forallb_forall in Ht.
  specialize (Ht (ilog2 x)).
  assert (Hin : In (ilog2 x) (seqZ (-64) 128)) by (apply list_elem_of_In, elem_of_seqZ; lia).
  apply Ht in Hin. cbv zeta in Hin.
  apply andb_true_iff in Hin. destruct Hin as [H1 H2].
  apply Qle_bool_iff in H1, H2.
  unfold ilog10. cbv zeta.
  remember (ilog2 x * 30103 / 100000)%Z as g eqn:Eg. clear Eg.
  destruct (Qle_bool (10 ^ (g + 1)) x) eqn:T1.
  - apply Qle_bool_iff in T1. split; [exact T1 |].
    replace (g + 1 + 1)%Z with (g + 2)%Z by lia. lra.
  - assert (T1' : x < 10 ^ (g + 1)).
    { destruct (Qlt_le_dec x (10 ^ (g + 1))) as [H | H]; [exact H |].
      apply Qle_bool_iff in H. congruence. }
    destruct (Qle_bool (10 ^ g) x) eqn:T2.
    + apply Qle_bool_iff in T2. split; assumption.
    + assert (T2' : x < 10 ^ g).
      { destruct (Qlt_le_dec x (10 ^ g)) as [H | H]; [exact H |].
        apply Qle_bool_iff in H. congruence. }
      replace (g - 1 + 1)%Z with g by lia. split; [lra | exact T2'].
Qed.

(** The scaled number lies between 10^(k-1) and 10^k, and so does its floor. *)
Lemma scaled_digits (x : Q) (k : Z) :
  2 ^ (-64) <= x -> x < 2 ^ 64 -> (1 <= k)%Z ->
  let n := (ilog10 x + 1)%Z in
  let scaled := x * 10 ^ (k - n) in
  inject_Z (10 ^ (k - 1)) <= scaled /\ scaled < inject_Z (10 ^ k)
  /\ (10 ^ (k - 1) <= Qfloor scaled < 10 ^ k)%Z.
Proof.
  intros Hlo Hhi Hk n scaled.
  destruct (ilog10_spec x Hlo Hhi) as [H1 H2]. fold n in H2.
  replace (ilog10 x) with (n - 1)%Z in H1 by (unfold n; lia).
  pose proof (pow10_pos (k - n)) as Hp.
  assert (E1 : inject_Z (10 ^ (k - 1)) == 10 ^ (n - 1) * 10 ^ (k - n)).
  { rewrite <- pow10_inject by lia. rewrite <- pow10_add. f_equiv. lia. }
  assert (E2 : inject_Z (10 ^ k) == 10 ^ n * 10 ^ (k - n)).
  { rewrite <- pow10_inject by lia. rewrite <- pow10_add. f_equiv. lia. }
  assert (S1 : inject_Z (10 ^ (k - 1)) <= scaled).
  { rewrite E1. unfold scaled. apply Qmult_le_compat_r; lra. }
  assert (S2 : scaled < inject_Z (10 ^ k)).
  { rewrite E2. unfold scaled. apply Qmult_lt_compat_r; lra. }
  split; [exact S1 |]. split; [exact S2 |].
  split.
  - rewrite <- (Qfloor_Z (10 ^ (k - 1))). apply Qfloor_resp_le. exact S1.
  - rewrite Zlt_Qlt. eapply Qle_lt_trans; [apply Qfloor_le | exact S2].
Qed.

(** What [significand] returns has [k] digits and reads back as [x]. *)
Lemma significand_sound (x : Q) (k c n : Z) :
  2 ^ (-64) <= x -> x < 2 ^ 64 -> (1 <= k)%Z ->
  significand x k = Some (c, n) ->
  (10 ^ (k - 1) <= c < 10 ^ k)%Z /\ round64 (inject_Z c * 10 ^ (n - k)) == x.
Proof.
  intros Hlo Hhi Hk.
  destruct (scaled_digits x k Hlo Hhi Hk) as (_ & _ & Hfl).
  cbv zeta in Hfl.
  unfold significand. cbv zeta.
  remember (ilog10 x + 1)%Z as n0 eqn:En0.
  remember (Qfloor (x * 10 ^ (k - n0))) as lo eqn:Elo.
  assert (Hp : (0 < 10 ^ (k - 1))%Z) by (apply Z.pow_pos_nonneg; lia).
  assert (Hpk : (10 ^ k = 10 * 10 ^ (k - 1))%Z).
  { rewrite <- Z.pow_succ_r by lia. f_equal. lia. }
  assert (Hnorm : forall c0,
            (10 ^ (k - 1) <= c0 <= 10 ^ k)%Z ->
            Qeq_bool (round64 (inject_Z c0 * 10 ^ (n0 - k))) x = true ->
            Some (if (c0 =? 10 ^ k)%Z then ((10 ^ (k - 1))%Z, (n0 + 1)%Z) else (c0, n0))
            = Some (c, n) ->
            (10 ^ (k - 1) <= c < 10 ^ k)%Z /\ round64 (inject_Z c * 10 ^ (n - k)) == x).
  { intros c0 Hc0 Hr H. apply Qeq_bool_iff in Hr.
    destruct (Z.eqb_spec c0 (10 ^ k)) as [Heq | Hne]; injection H as <- <-.
    - split; [lia |].
      assert (E : inject_Z (10 ^ (k - 1)) * 10 ^ (n0 + 1 - k)
                  == inject_Z c0 * 10 ^ (n0 - k)).
      { subst c0. rewrite Hpk, inject_Z_mult.
        replace (n0 + 1 - k)%Z with (1 + (n0 - k))%Z by lia.
        rewrite pow10_add. change (10 ^ 1) with 10. change (inject_Z 10) with 10. ring. }
      rewrite (round64_Proper _ _ E). exact Hr.
    - split; [lia | exact Hr]. }
  destruct (Qeq_bool (round64 (inject_Z lo * 10 ^ (n0 - k))) x) eqn:Rlo;
    destruct (Qeq_bool (round64 (inject_Z (lo + 1) * 10 ^ (n0 - k))) x) eqn:Rhi;
    try discriminate.
  - destruct (Qle_bool _ _).
    + apply Hnorm; [lia | exact Rlo].
    + apply Hnorm; [lia | exact Rhi].
  - apply Hnorm; [lia | exact Rlo].
  - apply Hnorm; [lia | exact Rhi].
Qed.

(** Seventeen digits always read back: the nearer of the two
    seventeen-digit decimals around a double is within a relative
    10^-16 / 2 of it, less than 2^-54. *)
Lemma significand_17 (x : Q) (R e : Z) :
  (0 < R < 2 ^ 53)%Z -> (-1074 <= e)%Z -> x == inject_Z R * 2 ^ e ->
  2 ^ (-64) <= x -> x < 2 ^ 64 ->
  significand x 17 <> None.
Proof.
  intros HR He Ex Hlo Hhi.
  pose proof (pow2_pos e) as Hpe.
  assert (HRq : 1 <= inject_Z R) by (change 1 with (inject_Z 1); rewrite <- Zle_Qle; lia).
  assert (Hx : 0 < x) by (pose proof (pow2_pos (-64)); lra).
  destruct (scaled_digits x 17 Hlo Hhi ltac:(lia)) as (Hs1 & _ & _).
  destruct (ilog10_spec x Hlo Hhi) as [Hl1 _].
  cbv zeta in Hs1.
  unfold significand. cbv zeta.
  remember (ilog10 x + 1)%Z as n0 eqn:En0.
  replace (ilog10 x) with (n0 - 1)%Z in Hl1 by lia.
  assert (Hq : 10 ^ (n0 - 17) == 10 ^ (n0 - 1) * (1 # 10000000000000000)).
  { replace (n0 - 17)%Z with (n0 - 1 + -16)%Z by lia. rewrite pow10_add. reflexivity. }
  assert (Hback : x * 10 ^ (17 - n0) * 10 ^ (n0 - 17) == x).
  { rewrite <- Qmult_assoc.
    replace (n0 - 17)%Z with (- (17 - n0))%Z by lia. rewrite pow10_cancel. ring. }
  pose proof (pow10_pos (n0 - 17)) as Hp17.
  pose proof (pow10_pos (n0 - 1)) as Hp1.
  destruct (Qfloor_bounds (x * 10 ^ (17 - n0))) as [Hf1 Hf2].
  remember (x * 10 ^ (17 - n0)) as scaled eqn:Es.
  remember (Qfloor scaled) as lo eqn:Elo.
  assert (Hreads : forall c : Z,
            - (1 # 2) <= inject_Z c - scaled -> inject_Z c - scaled <= 1 # 2 ->
            Qeq_bool (round64 (inject_Z c * 10 ^ (n0 - 17))) x = true).
  { intros c H1 H2. apply Qeq_bool_iff.
    rewrite Ex. apply round64_near; [exact HR | exact He |].
    rewrite <- Ex.
    assert (E : inject_Z c * 10 ^ (n0 - 17) - x == (inject_Z c - scaled) * 10 ^ (n0 - 17)).
    { rewrite <- Hback at 1. ring. }
    rewrite E. apply Qabs_Qlt_condition.
    remember (inject_Z c - scaled) as d eqn:Ed. clear Ed E.
    remember (10 ^ (n0 - 17)) as p eqn:Ep. clear Ep.
    remember (10 ^ (n0 - 1)) as p1 eqn:Ep1. clear Ep1.
    split; nra. }
  rewrite inject_Z_succ.
  destruct (Qle_bool (scaled - inject_Z lo) (inject_Z lo + 1 - scaled)) eqn:C.
  - apply Qle_bool_iff in C.
    rewrite (Hreads lo) by lra.
    rewrite <- inject_Z_succ.
    destruct (Qeq_bool (round64 (inject_Z (lo + 1) * 10 ^ (n0 - 17))) x); discriminate.
  - assert (C' : inject_Z lo + 1 - scaled < scaled - inject_Z lo).
    { destruct (Qlt_le_dec (inject_Z lo + 1 - scaled) (scaled - inject_Z lo)) as [H | H];
        [exact H |]. apply Qle_bool_iff in H. congruence. }
    rewrite <- inject_Z_succ.
    rewrite (Hreads (lo + 1)%Z) by (rewrite inject_Z_succ; lra).
    destruct (Qeq_bool (round64 (inject_Z lo * 10 ^ (n0 - 17))) x); discriminate.
Qed.

(** The search stops at the first length whose digits read back. *)
Lemma shortest_first (x : Q) (fuel : nat) : forall k : Z,
  (1 <= fuel)%nat -> significand x (k + Z.of_nat fuel - 1) <> None ->
  exists k' c n, (k <= k' <= k + Z.of_nat fuel - 1)%Z
                 /\ shortest fuel x k = (k', c, n)
                 /\ significand x k' = Some (c, n).
Proof.
  induction fuel as [| fuel IH]; intros k Hf Hlast; [lia |].
  cbn [shortest].
  destruct (significand x k) as [[c n] |] eqn:Ek.
  - exists k, c, n. split; [lia |]. split; [reflexivity | exact Ek].
  - destruct fuel as [| fuel'].
    + exfalso. apply Hlast. rewrite <- Ek. f_equal. lia.
    + destruct (IH (k + 1)%Z ltac:(lia)) as (k' & c & n & Hk & Hs & Hg).
      * intros H. apply Hlast. rewrite <- H. f_equal. lia.
      * exists k', c, n. split; [lia |]. split; [exact Hs | exact Hg].
Qed.

(** The digits [Number::toString] prints for a double read back as it. *)
Lemma shortest_spec (x : Q) (R e : Z) :
  (0 < R < 2 ^ 53)%Z -> (-1074 <= e)%Z -> x == inject_Z R * 2 ^ e ->
  2 ^ (-64) <= x -> x < 2 ^ 64 ->
  exists k c n, shortest 17 x 1 = (k, c, n)
                /\ (1 <= k <= 17)%Z
                /\ (10 ^ (k - 1) <= c < 10 ^ k)%Z
                /\ round64 (inject_Z c * 10 ^ (n - k)) == x.
Proof.
  intros HR He Ex Hlo Hhi.
  destruct (shortest_first x 17 1 ltac:(lia)) as (k & c & n & Hk & Hs & Hg).
  - change (1 + Z.of_nat 17 - 1)%Z with 17%Z. apply (significand_17 x R e); assumption.
  - exists k, c, n. split; [exact Hs |].
    change (1 + Z.of_nat 17 - 1)%Z with 17%Z in Hk. split; [exact Hk |].
    apply (significand_sound x k c n Hlo Hhi); [lia | exact Hg].
Qed.

End Shortest.

(** ** Reading back what the runtime prints *)

Section Reading.
Import JS ES Digits.
Local Open Scope string_scope.
Local Open Scope Z_scope.

Lemma read_sign_digits (s : string) :
  all s = true -> read_sign s = (false, s).
Proof.
  destruct s as [| c s]; [reflexivity |].
  cbn [all]. destruct (digit_of c) eqn:Hd; [| discriminate]. intros _.
  destruct c as [[] [] [] [] [] [] [] []]; try reflexivity; vm_compute in Hd; discriminate.
Qed.

Lemma read_digits_whole (s : string) :
  all s = true -> read_digits s 0 0 = (number s 0, String.length s, "").
Proof.
  intros Hs. rewrite <- (append_nil_r s) at 1.
  rewrite read_digits_all by (exact Hs || reflexivity). reflexivity.
Qed.

Lemma nonempty_length (s : string) : s <> "" -> exists n, String.length s = S n.
Proof. destruct s as [| c s]; [congruence |]. intros _. exists (String.length s). reflexivity. Qed.

(** An exponent part: "e", a sign, digits. *)
Lemma read_exponent_signed (neg : bool) (e : string) :
  all e = true -> e <> "" ->
  read_exponent ("e" ++ (if neg then "-" else "+") ++ e)
  = Some (if neg then - number e 0 else number e 0).
Proof.
  intros He Hne. destruct (nonempty_length e Hne) as [n Hn].
  destruct neg.
  - change ("e" ++ "-" ++ e) with (String "e" (String "-" e)).
    unfold read_exponent. change (Ascii.eqb "e" "e") with true. cbn [orb read_sign].
    rewrite read_digits_whole by exact He. rewrite Hn. reflexivity.
  - change ("e" ++ "+" ++ e) with (String "e" (String "+" e)).
    unfold read_exponent. change (Ascii.eqb "e" "e") with true. cbn [orb read_sign].
    rewrite read_digits_whole by exact He. rewrite Hn. reflexivity.
Qed.

(** The four shapes of a printed number. *)
Lemma read_integer (a : string) :
  all a = true -> a <> "" ->
  read_decimal a = Some (inject_Z (number a 0 * 10 ^ Z.of_nat 0 + 0) * 10 ^ (0 - Z.of_nat 0))%Q.
Proof.
  intros Ha Hne. destruct (nonempty_length a Hne) as [n Hn].
  unfold read_decimal. rewrite read_sign_digits by exact Ha.
  rewrite read_digits_whole by exact Ha. rewrite Hn. reflexivity.
Qed.

Lemma read_fraction (a b : string) :
  all a = true -> a <> "" -> all b = true ->
  read_decimal (a ++ "." ++ b)
  = Some (inject_Z (number a 0 * 10 ^ Z.of_nat (String.length b) + number b 0)
          * 10 ^ (0 - Z.of_nat (String.length b)))%Q.
Proof.
  intros Ha Hne Hb. destruct (nonempty_length a Hne) as [n Hn].
  unfold read_decimal.
  assert (Hs : read_sign (a ++ "." ++ b) = (false, a ++ "." ++ b)).
  { destruct a as [| c a]; [congruence |].
    rewrite append_cons. cbn [all] in Ha.
    destruct (digit_of c) eqn:Hd; [| discriminate].
    destruct c as [[] [] [] [] [] [] [] []]; try reflexivity; vm_compute in Hd; discriminate. }
  rewrite Hs.
  change ("." ++ b) with (String "." b).
  rewrite read_digits_all by (exact Ha || reflexivity).
  rewrite read_digits_whole by exact Hb.
  rewrite Nat.add_0_l, Hn. reflexivity.
Qed.

Lemma read_exponential (a : string) (neg : bool) (e : string) :
  all a = true -> a <> "" -> all e = true -> e <> "" ->
  read_decimal (a ++ "e" ++ (if neg then "-" else "+") ++ e)
  = Some (inject_Z (number a 0 * 10 ^ Z.of_nat 0 + 0)
          * 10 ^ ((if neg then - number e 0 else number e 0) - Z.of_nat 0))%Q.
Proof.
  intros Ha Hne He Hee. destruct (nonempty_length a Hne) as [n Hn].
  unfold read_decimal.
  assert (Hs : forall t, read_sign (a ++ t) = (false, a ++ t)).
  { intros t. destruct a as [| c a]; [congruence |].
    rewrite append_cons. cbn [all] in Ha.
    destruct (digit_of c) eqn:Hd; [| discriminate].
    destruct c as [[] [] [] [] [] [] [] []]; try reflexivity; vm_compute in Hd; discriminate. }
  rewrite Hs.
  rewrite read_digits_all; [| exact Ha | reflexivity].
  rewrite Nat.add_0_l, Hn.
  change ("e" ++ (if neg then "-" else "+") ++ e)
    with (String "e" ((if neg then "-" else "+") ++ e)) at 1.
  cbv iota beta.
  change (String "e" ((if neg then "-" else "+") ++ e))
    with ("e" ++ (if neg then "-" else "+") ++ e).
  rewrite read_exponent_signed by assumption. reflexivity.
Qed.

Lemma read_scientific (a b : string) (neg : bool) (e : string) :
  all a = true -> a <> "" -> all b = true -> all e = true -> e <> "" ->
  read_decimal (a ++ "." ++ b ++ "e" ++ (if neg then "-" else "+") ++ e)
  = Some (inject_Z (number a 0 * 10 ^ Z.of_nat (String.length b) + number b 0)
          * 10 ^ ((if neg then - number e 0 else number e 0)
                  - Z.of_nat (String.length b)))%Q.
Proof.
  intros Ha Hne Hb He Hee. destruct (nonempty_length a Hne) as [n Hn].
  unfold read_decimal.
  assert (Hs : forall t, read_sign (a ++ t) = (false, a ++ t)).
  { intros t. destruct a as [| c a]; [congruence |].
    rewrite append_cons. cbn [all] in Ha.
    destruct (digit_of c) eqn:Hd; [| discriminate].
    destruct c as [[] [] [] [] [] [] [] []]; try reflexivity; vm_compute in Hd; discriminate. }
  rewrite Hs.
  rewrite read_digits_all; [| exact Ha | reflexivity].
  rewrite Nat.add_0_l, Hn.
  change ("." ++ b ++ "e" ++ (if neg then "-" else "+") ++ e)
    with (String "." (b ++ "e" ++ (if neg then "-" else "+") ++ e)).
  cbv iota beta.
  rewrite read_digits_all; [| exact Hb | reflexivity].
  rewrite Nat.add_0_l.
  rewrite read_exponent_signed by assumption. reflexivity.
Qed.

(** [Number] reads what [toFixed] prints as the decimal it prints. *)
Lemma Number_toFixed (x : Q) (f : nat) :
  (0 <= x)%Q -> (x * 10 ^ Z.of_nat f + (1 # 2) < 10 ^ 21)%Q ->
  ES.Number (ES.toFixed x f)
  = round64 (inject_Z (Qfloor (x * 10 ^ Z.of_nat f + (1 # 2))) / 10 ^ Z.of_nat f).
Proof.
  intros Hx Hb.
  assert (Hp1 : (1 <= 10 ^ Z.of_nat f)%Q).
  { change 1%Q with (10 ^ 0)%Q. apply Qpower_le_compat_l; [lia | discriminate]. }
  assert (Hx21 : Qle_bool (10 ^ 21) (Qabs x) = false).
  { destruct (Qle_bool (10 ^ 21) (Qabs x)) eqn:E; [| reflexivity].
    apply Qle_bool_iff in E. rewrite (Qabs_pos x Hx) in E. exfalso. nra. }
  assert (Hxs : Qle_bool 0 x = true) by (apply Qle_bool_iff; exact Hx).
  assert (Hxn : Qfloor (Qabs x * 10 ^ Z.of_nat f + (1 # 2))
                = Qfloor (x * 10 ^ Z.of_nat f + (1 # 2))).
  { apply Qfloor_comp. rewrite (Qabs_pos x Hx). reflexivity. }
  unfold toFixed. rewrite Hx21, Hxs. cbv zeta. rewrite !Hxn.
  set (n := Qfloor (x * 10 ^ Z.of_nat f + (1 # 2))).
  assert (Hn : 0 <= n).
  { unfold n. change 0 with (Qfloor 0). apply Qfloor_resp_le. nra. }
  destruct (digits_spec n Hn) as (Hall & Hnum & Hne).
  rewrite append_nil_l.
  destruct f as [| f'].
  - cbn [Nat.eqb]. unfold ES.Number. rewrite read_integer by assumption.
    apply round64_Proper. rewrite Hnum.
    change (Z.of_nat 0) with 0. change (0 - 0) with 0.
    change (10 ^ 0)%Q with 1%Q. change (10 ^ 0) with 1.
    rewrite Z.mul_1_r, Z.add_0_r. field.
  - cbn [Nat.eqb]. set (f := S f') in *.
    set (m1 := if (String.length (digits n) <=? f)%nat
               then repeat_char "0" (f + 1 - String.length (digits n)) ++ digits n
               else digits n).
    assert (Hm1 : all m1 = true /\ number m1 0 = n /\ (f + 1 <= String.length m1)%nat).
    { unfold m1. destruct (Nat.leb_spec (String.length (digits n)) f) as [Hle | Hgt].
      - destruct (repeat_zero (f + 1 - String.length (digits n))) as (Z1 & Z2 & Z3).
        split; [rewrite all_append, Z1, Hall; reflexivity |].
        split; [rewrite number_append, Z3 by exact Z1; exact Hnum |].
        rewrite length_append, Z2. lia.
      - split; [exact Hall |]. split; [exact Hnum | lia]. }
    destruct Hm1 as (Hall1 & Hnum1 & Hlen1).
    set (k := String.length m1) in *.
    set (a := substring 0 (k - f) m1). set (b := substring (k - f) f m1).
    assert (Hab : a ++ b = m1) by (apply substring_split; lia).
    assert (Hlb : String.length b = f) by (apply substring_length; lia).
    assert (Hla : (1 <= String.length a)%nat).
    { pose proof (length_append a b) as H. rewrite Hab, Hlb in H. fold k in H. lia. }
    assert (Hane : a <> "") by (intros E; rewrite E in Hla; cbn in Hla; lia).
    assert (Hall' : all a = true /\ all b = true).
    { rewrite <- Hab, all_append in Hall1. apply andb_true_iff. exact Hall1. }
    destruct Hall' as [Ha Hb'].
    unfold ES.Number. rewrite read_fraction by assumption.
    apply round64_Proper.
    assert (Hv : number a 0 * 10 ^ Z.of_nat (String.length b) + number b 0 = n).
    { rewrite <- Hnum1, <- Hab, number_append by exact Ha.
      rewrite (number_shift b (number a 0) Hb'). reflexivity. }
    rewrite Hv, Hlb.
    replace (0 - Z.of_nat f) with (- Z.of_nat f) by lia.
    rewrite Qpower_opp. reflexivity.
Qed.

(** [Number] reads what [Number::toString] prints as the digits and
    the exponent it printed. *)
Lemma Number_toString_pos (x : Q) (k c n : Z) :
  shortest 17 x 1 = (k, c, n) -> 1 <= k -> 10 ^ (k - 1) <= c < 10 ^ k ->
  ES.Number (toString_pos x) = round64 (inject_Z c * 10 ^ (n - k)).
Proof.
  intros Hs Hk Hc.
  assert (Hc0 : 0 < c).
  { assert (0 < 10 ^ (k - 1)) by (apply Z.pow_pos_nonneg; lia). lia. }
  destruct (digits_spec c ltac:(lia)) as (Hall & Hnum & Hne).
  assert (Hlen : String.length (digits c) = Z.to_nat k).
  { apply digits_length; [lia |]. rewrite Z2Nat.id by lia. exact Hc. }
  unfold toString_pos. rewrite Hs. cbv zeta.
  set (d := digits c) in *.
  destruct ((k <=? n) && (n <=? 21)) eqn:T1.
  { (* the digits, then zeros *)
    apply andb_true_iff in T1. destruct T1 as [T1 _]. apply Z.leb_le in T1.
    destruct (repeat_zero (Z.to_nat (n - k))) as (Z1 & Z2 & Z3).
    unfold ES.Number. rewrite read_integer.
    - apply round64_Proper.
      rewrite number_append, Z3, Hnum by exact Hall.
      change (Z.of_nat 0) with 0. change (0 - 0) with 0.
      change (10 ^ 0)%Q with 1%Q. change (10 ^ 0) with 1.
      rewrite Z.mul_1_r, Z.add_0_r, Z2Nat.id by lia.
      rewrite inject_Z_mult, <- pow10_inject by lia. ring.
    - rewrite all_append, Hall, Z1. reflexivity.
    - destruct d; [congruence | rewrite append_cons; discriminate]. }
  destruct ((0 <? n) && (n <=? 21)) eqn:T2.
  { (* a point inside the digits *)
    apply andb_true_iff in T2. destruct T2 as [T2 T2']. apply Z.ltb_lt in T2.
    apply Z.leb_le in T2'.
    assert (Hnk : n < k).
    { destruct (Z.leb_spec k n) as [H | H]; [| exact H].
      destruct (Z.leb_spec n 21); [discriminate | lia]. }
    set (a := substring 0 (Z.to_nat n) d).
    set (b := substring (Z.to_nat n) (Z.to_nat (k - n)) d).
    assert (Hab : a ++ b = d) by (apply substring_split; lia).
    assert (Hlb : String.length b = Z.to_nat (k - n)) by (apply substring_length; lia).
    assert (Hla : (1 <= String.length a)%nat).
    { pose proof (length_append a b) as H. rewrite Hab, Hlb, Hlen in H. lia. }
    assert (Hane : a <> "") by (intros E; rewrite E in Hla; cbn in Hla; lia).
    assert (Hall' : all a = true /\ all b = true).
    { rewrite <- Hab, all_append in Hall. apply andb_true_iff. exact Hall. }
    destruct Hall' as [Ha Hb].
    unfold ES.Number. rewrite read_fraction by assumption.
    apply round64_Proper.
    assert (Hv : number a 0 * 10 ^ Z.of_nat (String.length b) + number b 0 = c).
    { rewrite <- Hnum, <- Hab, number_append by exact Ha.
      rewrite (number_shift b (number a 0) Hb). reflexivity. }
    rewrite Hv, Hlb, Z2Nat.id by lia.
    replace (0 - (k - n)) with (n - k) by lia. reflexivity. }
  destruct ((-6 <? n) && (n <=? 0)) eqn:T3.
  { (* zeros after the point, then the digits *)
    apply andb_true_iff in T3. destruct T3 as [_ T3]. apply Z.leb_le in T3.
    destruct (repeat_zero (Z.to_nat (- n))) as (Z1 & Z2 & Z3).
    change ("0." ++ repeat_char "0" (Z.to_nat (- n)) ++ d)
      with ("0" ++ "." ++ (repeat_char "0" (Z.to_nat (- n)) ++ d)).
    unfold ES.Number. rewrite read_fraction.
    - apply round64_Proper.
      rewrite length_append, Z2, Hlen, number_append by exact Z1.
      rewrite Z3. change (number "0" 0) with 0.
      rewrite !Z.mul_0_l, Hnum, Z.add_0_l, Nat2Z.inj_add, !Z2Nat.id by lia.
      replace (0 - (- n + k)) with (n - k) by lia. reflexivity.
    - reflexivity.
    - discriminate.
    - rewrite all_append, Z1, Hall. reflexivity. }
  (* an exponent *)
  destruct (digits_spec (Z.abs (n - 1)) ltac:(lia)) as (Eall & Enum & Ene).
  assert (Hsign : (if 0 <? n - 1 then "+" else "-")
                  = (if negb (0 <? n - 1) then "-" else "+"))
    by (destruct (0 <? n - 1); reflexivity).
  assert (Hexp : (if negb (0 <? n - 1) then - number (digits (Z.abs (n - 1))) 0
                  else number (digits (Z.abs (n - 1))) 0) = n - 1).
  { rewrite Enum. destruct (Z.ltb_spec 0 (n - 1)); cbn [negb]; lia. }
  rewrite Hsign.
  destruct (Z.eqb_spec k 1) as [-> | Hk1].
  - unfold ES.Number. rewrite read_exponential by assumption.
    apply round64_Proper. rewrite Hexp, Hnum.
    change (Z.of_nat 0) with 0. change (10 ^ 0) with 1.
    rewrite Z.mul_1_r, Z.add_0_r, Z.sub_0_r. reflexivity.
  - set (a := substring 0 1 d).
    set (b := substring 1 (Z.to_nat (k - 1)) d).
    assert (Hab : a ++ b = d) by (apply substring_split; lia).
    assert (Hlb : String.length b = Z.to_nat (k - 1)) by (apply substring_length; lia).
    assert (Hla : (1 <= String.length a)%nat).
    { pose proof (length_append a b) as H. rewrite Hab, Hlb, Hlen in H. lia. }
    assert (Hane : a <> "") by (intros E; rewrite E in Hla; cbn in Hla; lia).
    assert (Hall' : all a = true /\ all b = true).
    { rewrite <- Hab, all_append in Hall. apply andb_true_iff. exact Hall. }
    destruct Hall' as [Ha Hb].
    unfold ES.Number. rewrite read_scientific by assumption.
    apply round64_Proper.
    assert (Hv : number a 0 * 10 ^ Z.of_nat (String.length b) + number b 0 = c).
    { rewrite <- Hnum, <- Hab, number_append by exact Ha.
      rewrite (number_shift b (number a 0) Hb). reflexivity. }
    rewrite Hv, Hexp, Hlb, Z2Nat.id by lia.
    replace (n - 1 - (k - 1)) with (n - k) by lia. reflexivity.
Qed.

(** [JSON.parse(JSON.stringify(x))] is [x], for a double [x] between
    2^-64 and 2^64. *)
Lemma JSON_round_trip (x : Q) (R e : Z) :
  0 < R < 2 ^ 53 -> -1074 <= e -> (x == inject_Z R * 2 ^ e)%Q ->
  (2 ^ (-64) <= x)%Q -> (x < 2 ^ 64)%Q ->
  (ES.JSON_parse (ES.JSON_stringify x) == x)%Q.
Proof.
  intros HR He Ex Hlo Hhi.
  assert (Hx : (0 < x)%Q).
  { rewrite Ex. pose proof (pow2_pos e).
    assert (1 <= inject_Z R)%Q by (change 1%Q with (inject_Z 1); rewrite <- Zle_Qle; lia).
    nra. }
  destruct (shortest_spec x R e HR He Ex Hlo Hhi) as (k & c & n & Hs & Hk & Hc & Hr).
  unfold ES.JSON_parse, ES.JSON_stringify, Number_toString.
  assert (H0 : Qeq_bool x 0 = false).
  { destruct (Qeq_bool x 0) eqn:E; [| reflexivity]. apply Qeq_bool_iff in E. lra. }
  assert (H1 : Qle_bool 0 x = true) by (apply Qle_bool_iff; lra).
  rewrite H0, H1.
  rewrite (Number_toString_pos x k c n Hs ltac:(lia) Hc). exact Hr.
Qed.

End Reading.

(** ** The runtime's conversions on the range *)

Section Node_platform.
Local Open Scope Q_scope.
Import JS Worker.

Variables (maxInteger : Z) (decimalPlaces : nat) (index : Z).
Hypothesis Hmax : (1 <= maxInteger <= 2 ^ 31)%Z.
Hypothesis Hsafe : (maxInteger * 10 ^ Z.of_nat decimalPlaces <= 2 ^ 51)%Z.
Hypothesis Hindex : (0 <= index < maxInteger * 10 ^ Z.of_nat decimalPlaces)%Z.

Local Abbreviation v := (value index (multiplier decimalPlaces)).
Local Abbreviation s := (round64 (inject_Z index / 10 ^ Z.of_nat decimalPlaces)).

(** [Number(value.toFixed(decimalPlaces))] is the double nearest to
    index / 10^decimalPlaces. *)
Lemma node_serialized : serialized node v decimalPlaces = s.
Proof using Hmax Hsafe Hindex.
  unfold serialized. cbn [Number toFixed node].
  rewrite Number_toFixed.
  - rewrite (value_floor maxInteger decimalPlaces index Hmax Hsafe Hindex). reflexivity.
  - apply (value_nonneg maxInteger decimalPlaces index Hmax Hsafe Hindex).
  - apply (value_below maxInteger decimalPlaces index Hmax Hsafe Hindex).
Qed.

(** It prints, with [toFixed], like the value it was read from. *)
Lemma node_prints_alike : ES.toFixed s decimalPlaces = ES.toFixed v decimalPlaces.
Proof using Hmax Hsafe Hindex.
  destruct (decimal_error maxInteger decimalPlaces index Hmax Hsafe Hindex)
    as (Hs0 & Hs1 & He1 & He2). cbv zeta in *.
  assert (Hp : 10 ^ Z.of_nat decimalPlaces
               == inject_Z (10 ^ Z.of_nat decimalPlaces)).
  { rewrite Zpower_Qpower by lia. reflexivity. }
  assert (Hi : inject_Z index <= 2251799813685248).
  { change 2251799813685248 with (inject_Z (2 ^ 51)). rewrite <- Zle_Qle. lia. }
  remember s as s0 eqn:Es0. clear Es0.
  assert (Hfloor : Qfloor (s0 * 10 ^ Z.of_nat decimalPlaces + (1 # 2)) = index).
  { apply Qfloor_unique; rewrite Hp; lra. }
  rewrite (toFixed_decimal s0 decimalPlaces Hs0).
  - rewrite (toFixed_decimal v decimalPlaces
               (value_nonneg maxInteger decimalPlaces index Hmax Hsafe Hindex)
               (value_below maxInteger decimalPlaces index Hmax Hsafe Hindex)).
    rewrite Hfloor, (value_floor maxInteger decimalPlaces index Hmax Hsafe Hindex).
    reflexivity.
  - rewrite Hp. apply Qle_lt_trans with 2251799813685249; [lra | reflexivity].
Qed.

(** It survives [JSON.stringify] and [JSON.parse]. *)
Lemma node_deserialized : deserialized node s == s.
Proof using Hmax Hsafe Hindex.
  unfold deserialized. cbn [JSON_parse JSON_stringify node].
  destruct (decimal_error maxInteger decimalPlaces index Hmax Hsafe Hindex)
    as (Hs0 & Hs1 & _). cbv zeta in *.
  destruct (Z.eq_dec index 0%Z) as [E0 | Hne].
  - assert (Ez : inject_Z index / 10 ^ Z.of_nat decimalPlaces == 0).
    { rewrite E0. unfold Qdiv. change (inject_Z 0) with 0. ring. }
    rewrite (round64_zero _ Ez). vm_compute. reflexivity.
  - assert (Hp : 10 ^ Z.of_nat decimalPlaces
                 == inject_Z (10 ^ Z.of_nat decimalPlaces)).
    { rewrite Zpower_Qpower by lia. reflexivity. }
    assert (Hmpos : (0 < 10 ^ Z.of_nat decimalPlaces)%Z) by (apply Z.pow_pos_nonneg; lia).
    assert (HM : 0 < inject_Z (10 ^ Z.of_nat decimalPlaces)) by (apply inject_Z_pos; lia).
    assert (HM51 : inject_Z (10 ^ Z.of_nat decimalPlaces) <= 2251799813685248).
    { change 2251799813685248 with (inject_Z (2 ^ 51)). rewrite <- Zle_Qle. nia. }
    assert (Hi1 : 1 <= inject_Z index)
      by (change 1 with (inject_Z 1); rewrite <- Zle_Qle; lia).
    assert (Hq : (1 # 2251799813685248) <= inject_Z index / 10 ^ Z.of_nat decimalPlaces).
    { rewrite Hp. apply Qle_shift_div_l; [exact HM |]. lra. }
    assert (Hq0 : 0 < inject_Z index / 10 ^ Z.of_nat decimalPlaces) by lra.
    assert (Hslow : round64 (1 # 2251799813685248) <= s).
    { apply round64_mono; [discriminate | exact Hq]. }
    assert (Hspos : 0 < s).
    { eapply Qlt_le_trans; [| exact Hslow]. vm_compute. reflexivity. }
    destruct (round64_double _ Hq0 Hspos) as (R & e & HR & He & Es).
    apply (JSON_round_trip s R e HR He Es).
    + eapply Qle_trans; [| exact Hslow]. vm_compute. discriminate.
    + apply Qle_lt_trans with (inject_Z maxInteger); [exact Hs1 |].
      apply Qle_lt_trans with (inject_Z (2 ^ 31)); [rewrite <- Zle_Qle; lia | reflexivity].
Qed.

(** So the comparison of the worker finds nothing. *)
Lemma node_check : mismatch node v decimalPlaces = false.
Proof using Hmax Hsafe Hindex.
  unfold mismatch. cbv zeta. rewrite node_serialized.
  cbn [toFixed node]. rewrite node_prints_alike, String.eqb_refl.
  unfold strict_eq.
  assert (E : Qeq_bool s (deserialized node s) = true).
  { apply Qeq_bool_iff. symmetry. exact node_deserialized. }
  rewrite E. reflexivity.
Qed.

End Node_platform.

(** X17: on the runtime's own conversions every index of a range
    within 2^51 passes: [Number(value.toFixed(decimalPlaces))] is the
    double nearest to index / 10^decimalPlaces, it comes back unchanged
    from [JSON.parse(JSON.stringify(...))], and it prints with [toFixed]
    as the value does. *)
Theorem node_passes_range (maxInteger : Z) (decimalPlaces : nat) (index : Z) :
  1 <= maxInteger <= 2 ^ 31 ->
  maxInteger * 10 ^ Z.of_nat decimalPlaces <= 2 ^ 51 ->
  0 <= index < maxInteger * 10 ^ Z.of_nat decimalPlaces ->
  let value := Worker.value index (Worker.multiplier decimalPlaces) in
  let serialized := Worker.serialized node value decimalPlaces in
  serialized = JS.round64 (inject_Z index / 10 ^ Z.of_nat decimalPlaces)
  /\ (Worker.deserialized node serialized == serialized)%Q
  /\ toFixed node serialized decimalPlaces = toFixed node value decimalPlaces
  /\ Worker_spec.passes node decimalPlaces index.
Proof.
  intros Hmax Hsafe Hindex value serialized.
  pose proof (node_serialized maxInteger decimalPlaces index Hmax Hsafe Hindex) as Hs.
  fold value in Hs. fold serialized in Hs.
  split; [exact Hs |]. split; [| split].
  - rewrite Hs. apply (node_deserialized maxInteger decimalPlaces index Hmax Hsafe Hindex).
  - rewrite Hs. apply (node_prints_alike maxInteger decimalPlaces index Hmax Hsafe Hindex).
  - apply (node_check maxInteger decimalPlaces index Hmax Hsafe Hindex).
Qed.

Lemma node_passes_range_witness :
  let value := Worker.value 999999999999998 (Worker.multiplier 6) in
  let serialized := Worker.serialized node value 6 in
  serialized = JS.round64 (inject_Z 999999999999998 / 10 ^ Z.of_nat 6)
  /\ (Worker.deserialized node serialized == serialized)%Q
  /\ toFixed node serialized 6 = toFixed node value 6
  /\ Worker_spec.passes node 6 999999999999998.
Proof. apply (node_passes_range 1000000000 6 999999999999998); lia. Defined.

(** X18: on the runtime's own conversions a worker given any chunk of
    such a range posts [{ completed: true }], having checked every index
    of the chunk. *)
Theorem node_worker_completes (maxInteger : Z) (start end_ : Z)
    (decimalPlaces workerId : nat) (arr : list Z) :
  1 <= maxInteger <= 2 ^ 31 ->
  maxInteger * 10 ^ Z.of_nat decimalPlaces <= 2 ^ 51 ->
  end_ <= maxInteger * 10 ^ Z.of_nat decimalPlaces ->
  Worker_spec.valid start end_ decimalPlaces workerId arr ->
  let r := Worker.verifyChunk node start end_ decimalPlaces arr workerId in
  Worker.posted (Worker.events r) = [Worker.Completed]
  /\ Worker.control r = Worker.Return
  /\ Worker.checked (Worker.events r) = seqZ start (end_ - start).
Proof.
  intros Hmax Hsafe Hend [Hstart _ _ Hw] r. subst r.
  assert (Hpass : forall j, start <= j < end_ -> Worker_spec.passes node decimalPlaces j).
  { intros j Hj. apply (node_check maxInteger decimalPlaces j Hmax Hsafe). lia. }
  destruct (run_passing node start end_ decimalPlaces workerId arr Hw Hpass)
    as (closing & He & Hp & _ & _ & Hc).
  destruct (all_pass node start end_ decimalPlaces workerId arr Hw Hpass) as (_ & Hpl & _).
  split; [rewrite He, !posted_app, Hpl, Hp; reflexivity |].
  split; [exact Hc |].
  apply run_passing_checked; assumption.
Qed.

Lemma node_worker_completes_witness :
  let r := Worker.verifyChunk node 0 99 1 [0] 0 in
  Worker.posted (Worker.events r) = [Worker.Completed]
  /\ Worker.control r = Worker.Return
  /\ Worker.checked (Worker.events r) = seqZ 0 (99 - 0).
Proof.
  apply (node_worker_completes 10 0 99 1 0 [0]); try lia.
  split; [lia | lia | lia | cbn; lia].
Defined.

(** X19: on the runtime's own conversions the validation succeeds:
    for a range within 2^51, on any number of CPUs and in whatever order
    the workers' messages and exits arrive, the coordinator prints the
    closing lines and the process ends with code 0.  The script's
    1e9 and 6 make a range of 10^15, within 2^51. *)
Theorem node_run_succeeds (maxInteger : Z) (decimalPlaces numCPUs : nat)
    (evs : list Coordinator.WorkerEvent) :
  1 <= maxInteger <= 2 ^ 31 ->
  2 <= maxInteger * 10 ^ Z.of_nat decimalPlaces <= 2 ^ 51 ->
  1 <= Z.of_nat numCPUs <= 2 ^ 53 ->
  Threads.schedule node maxInteger decimalPlaces numCPUs evs ->
  let st := Coordinator.run maxInteger decimalPlaces numCPUs evs in
  Coordinator.process st = Coordinator.Exited 0
  /\ Coordinator.declared_success st = true.
Proof.
  intros Hmax Hsafe Hcpus Hs st. subst st.
  assert (Htotal : 0 < Coordinator.totalNumbers maxInteger decimalPlaces < 2 ^ 53)
    by (unfold Coordinator.totalNumbers; lia).
  apply (clean_schedule node maxInteger decimalPlaces numCPUs Htotal Hcpus evs); [| exact Hs].
  intros w Hw.
  apply (passing_reports node maxInteger decimalPlaces numCPUs Htotal Hcpus w); [| exact Hw].
  intros j Hj. apply (node_check maxInteger decimalPlaces j Hmax ltac:(lia)).
  unfold Coordinator.totalNumbers in Hj. lia.
Qed.

Lemma node_run_succeeds_witness :
  let st := Coordinator.run 1 1 2
              [Coordinator.OnMessage 0 Worker.Completed;
               Coordinator.OnMessage 1 Worker.Completed;
               Coordinator.OnExit 1 0; Coordinator.OnExit 0 0] in
  Coordinator.process st = Coordinator.Exited 0
  /\ Coordinator.declared_success st = true.
Proof.
  apply (node_run_succeeds 1 1 2).
  - lia.
  - cbn. lia.
  - lia.
  - intros [| [| w]]; vm_compute; reflexivity.
Defined.
